(** * Autonity: Tendermint algorithm and accountable fault detection

    A shallow embedding of
    - [consensus/tendermint/algorithm/tendermint.go] (the pure Tendermint
      state machine),
    - the fault detector's message store ([MsgStore]),
    - the fault detector's message pipeline ([msg_handler.go]),
    - the rule engine's power accounting and the [Rule] constants,
    together with the properties of these that the specification states. *)

From stdpp Require Import gmap list sorting strings.
From Stdlib Require Import ZArith Lia.

Open Scope Z_scope.

(** Go's fixed-width integers are modelled as [Z] with the wrap-around
    written out where the source does arithmetic on them. *)
Definition wrap_u64 (z : Z) : Z := z mod 2 ^ 64.
Definition wrap_i64 (z : Z) : Z := (z + 2 ^ 63) mod 2 ^ 64 - 2 ^ 63.

(* ===================================================================== *)
(** * The Tendermint algorithm ([package algorithm]) *)
(* ===================================================================== *)

Module algorithm.

(** [type ValueID [32]byte] and [type NodeID [20]byte], as 256-bit and
    160-bit numbers; [var NilValue ValueID] is the all-zero array. *)
Definition ValueID := Z.
Definition NilValue : ValueID := 0.
Definition NodeID := Z.

(** The [error] that [Oracle.Value] may return, by its text. *)
Definition error := string.

(** [type Step uint8] with [Propose], [Prevote], [Precommit] numbered by
    [iota]. *)
Inductive Step := Propose | Prevote | Precommit.

Definition Step_u8 (s : Step) : Z :=
  match s with Propose => 0 | Prevote => 1 | Precommit => 2 end.

Definition Step_eqb (s t : Step) : bool := Step_u8 s =? Step_u8 t.

(** [func (s Step) In(steps ...Step) bool] *)
Fixpoint In (s : Step) (steps : list Step) : bool :=
  match steps with
  | [] => false
  | step :: rest => if Step_eqb s step then true else In s rest
  end.

Record Timeout := {
  TimeoutType : Step;
  Delay : Z;
  TimeoutHeight : Z;
  TimeoutRound : Z
}.

Record ConsensusMessage := {
  MsgType : Step;
  Height : Z;
  Round : Z;
  Value : ValueID;
  ValidRound : Z
}.

(** [type Oracle interface]. The oracle answers from the message store and
    the chain, both of which change between calls, so every operation of
    the algorithm takes the oracle's answers at the time of the call. *)
Record Oracle := {
  Valid : ValueID -> bool;
  MatchingProposal : ConsensusMessage -> option ConsensusMessage;
  PrevoteQThresh : Z -> option ValueID -> bool;
  PrecommitQThresh : Z -> option ValueID -> bool;
  FThresh : Z -> bool;
  Proposer : Z -> NodeID -> bool;
  OracleHeight : Z;
  OracleValue : ValueID + error
}.

(** [type Algorithm struct], without the [oracle] field (see [Oracle]). *)
Record Algorithm := {
  nodeID : NodeID;
  round : Z;
  step : Step;
  lockedRound : Z;
  lockedValue : ValueID;
  validRound : Z;
  validValue : ValueID;
  line34Executed : bool;
  line36Executed : bool;
  line47Executed : bool
}.

(** [func New(nodeID NodeID, oracle Oracle) *Algorithm]; the fields the
    literal leaves out take Go's zero values. *)
Definition New (id : NodeID) : Algorithm := {|
  nodeID := id;
  round := -1;
  step := Propose;
  lockedRound := -1;
  lockedValue := NilValue;
  validRound := -1;
  validValue := NilValue;
  line34Executed := false;
  line36Executed := false;
  line47Executed := false
|}.

Definition set_step (s : Step) (a : Algorithm) : Algorithm := {|
  nodeID := nodeID a; round := round a; step := s;
  lockedRound := lockedRound a; lockedValue := lockedValue a;
  validRound := validRound a; validValue := validValue a;
  line34Executed := line34Executed a;
  line36Executed := line36Executed a;
  line47Executed := line47Executed a
|}.

Definition set_locked (r : Z) (v : ValueID) (a : Algorithm) : Algorithm := {|
  nodeID := nodeID a; round := round a; step := step a;
  lockedRound := r; lockedValue := v;
  validRound := validRound a; validValue := validValue a;
  line34Executed := line34Executed a;
  line36Executed := line36Executed a;
  line47Executed := line47Executed a
|}.

Definition set_valid (r : Z) (v : ValueID) (a : Algorithm) : Algorithm := {|
  nodeID := nodeID a; round := round a; step := step a;
  lockedRound := lockedRound a; lockedValue := lockedValue a;
  validRound := r; validValue := v;
  line34Executed := line34Executed a;
  line36Executed := line36Executed a;
  line47Executed := line47Executed a
|}.

Definition set_line34Executed (b : bool) (a : Algorithm) : Algorithm := {|
  nodeID := nodeID a; round := round a; step := step a;
  lockedRound := lockedRound a; lockedValue := lockedValue a;
  validRound := validRound a; validValue := validValue a;
  line34Executed := b;
  line36Executed := line36Executed a;
  line47Executed := line47Executed a
|}.

Definition set_line36Executed (b : bool) (a : Algorithm) : Algorithm := {|
  nodeID := nodeID a; round := round a; step := step a;
  lockedRound := lockedRound a; lockedValue := lockedValue a;
  validRound := validRound a; validValue := validValue a;
  line34Executed := line34Executed a;
  line36Executed := b;
  line47Executed := line47Executed a
|}.

Definition set_line47Executed (b : bool) (a : Algorithm) : Algorithm := {|
  nodeID := nodeID a; round := round a; step := step a;
  lockedRound := lockedRound a; lockedValue := lockedValue a;
  validRound := validRound a; validValue := validValue a;
  line34Executed := line34Executed a;
  line36Executed := line36Executed a;
  line47Executed := b
|}.

(** [func (a *Algorithm) msg(msgType Step, value ValueID) *ConsensusMessage] *)
Definition msg (o : Oracle) (a : Algorithm) (msgType : Step) (value : ValueID)
  : ConsensusMessage := {|
  MsgType := msgType;
  Height := OracleHeight o;
  Round := round a;
  Value := value;
  ValidRound := if Step_eqb (step a) Propose then validRound a else 0
|}.

(** [func (a *Algorithm) timeout(timeoutType Step) *Timeout] *)
Definition timeout (o : Oracle) (a : Algorithm) (timeoutType : Step) : Timeout := {|
  TimeoutType := timeoutType;
  Delay := 1;
  TimeoutHeight := OracleHeight o;
  TimeoutRound := round a
|}.

(** A call either returns or panics; in both cases the receiver is left in
    some state. [PanicNewRound prev new] stands for the diagnostic
    ["New round must be more than the current round. Previous round: prev,
    new round: new"]. *)
Inductive Panic := PanicNewRound (previous new : Z).

Inductive Outcome (A : Type) :=
  | Returned (x : A)
  | Panicked (p : Panic).
Arguments Returned {A} x.
Arguments Panicked {A} p.

Definition StartRoundResult : Type :=
  option ConsensusMessage * option Timeout * option error.

(** [func (a *Algorithm) StartRound(round int64)], returning a message to
    broadcast, a timeout to schedule, or an error. *)
Definition StartRound (o : Oracle) (round' : Z) (a : Algorithm)
  : Algorithm * Outcome StartRoundResult :=
  if round' <=? round a then
    (a, Panicked (PanicNewRound (round a) round'))
  else
    let a := set_line34Executed false a in
    let a := set_line36Executed false a in
    let a := set_line47Executed false a in
    let a := {| nodeID := nodeID a; round := round'; step := Propose;
                lockedRound := lockedRound a; lockedValue := lockedValue a;
                validRound := validRound a; validValue := validValue a;
                line34Executed := line34Executed a;
                line36Executed := line36Executed a;
                line47Executed := line47Executed a |} in
    if Proposer o round' (nodeID a) then
      if negb (validValue a =? NilValue) then
        (a, Returned (Some (msg o a Propose (validValue a)), None, None))
      else
        match OracleValue o with
        | inr err => (a, Returned (None, None, Some err))
        | inl value => (a, Returned (Some (msg o a Propose value), None, None))
        end
    else
      (a, Returned (None, Some (timeout o a Propose), None)).

(** [type RoundChange struct] *)
Record RoundChange := {
  RoundChangeRound : Z;
  Decision : option ConsensusMessage
}.

(** The upon-conditions of [ReceiveMessage], named by the line of the
    paper's pseudocode that the source's comments give them. *)
Inductive Upon :=
  | Line22 | Line28 | Line36 | Line44 | Line34 | Line49 | Line47 | Line55
  | NoMatch.

(** The guards of [ReceiveMessage], in the order of the source: the first
    one that holds decides which block runs. *)
Definition upon (o : Oracle) (a : Algorithm) (cm : ConsensusMessage) : Upon :=
  let r := round a in
  let s := step a in
  let t := MsgType cm in
  let p := MatchingProposal o cm in
  if In t [Propose] && (Round cm =? r) && (ValidRound cm =? -1)
     && Step_eqb s Propose then Line22
  else if In t [Propose; Prevote]
     && match p with
        | None => false
        | Some p =>
            (Round p =? r) && PrevoteQThresh o (ValidRound p) (Some (Value p))
            && Step_eqb s Propose
            && ((ValidRound p >=? 0) && (ValidRound p <? r))
        end then Line28
  else if In t [Propose; Prevote]
     && match p with
        | None => false
        | Some p =>
            (Round p =? r) && PrevoteQThresh o r (Some (Value p))
            && Valid o (Value p) && (Step_u8 s >=? Step_u8 Prevote)
            && negb (line36Executed a)
        end then Line36
  else if In t [Prevote] && (Round cm =? r)
     && PrevoteQThresh o r (Some NilValue) && Step_eqb s Prevote then Line44
  else if In t [Prevote] && (Round cm =? r) && PrevoteQThresh o r None
     && Step_eqb s Prevote && negb (line34Executed a) then Line34
  else if In t [Propose; Precommit]
     && match p with
        | None => false
        | Some p => PrecommitQThresh o (Round p) (Some (Value p))
        end then Line49
  else if In t [Precommit] && (Round cm =? r) && PrecommitQThresh o r None
     && negb (line47Executed a) then Line47
  else if (Round cm >? r) && FThresh o (Round cm) then Line55
  else NoMatch.

Definition ReceiveResult : Type :=
  option RoundChange * option ConsensusMessage * option Timeout.

(** [func (a *Algorithm) ReceiveMessage(cm *ConsensusMessage)], returning
    a round change, a message and a timeout of which at most one is non-nil:
    the block of the first upon-condition that holds. In the blocks for lines 28, 36 and 49 the
    guard has established [p != nil]. *)
Definition ReceiveMessage (o : Oracle) (a : Algorithm) (cm : ConsensusMessage)
  : Algorithm * ReceiveResult :=
  let r := round a in
  let s := step a in
  let p := MatchingProposal o cm in
  match upon o a cm, p with
  | Line22, _ =>
      let a := set_step Prevote a in
      if Valid o (Value cm) && (lockedRound a =? -1)
         || (lockedValue a =? Value cm)
      then (a, (None, Some (msg o a Prevote (Value cm)), None))
      else (a, (None, Some (msg o a Prevote NilValue), None))
  | Line28, Some p =>
      let a := set_step Prevote a in
      if Valid o (Value p)
         && ((lockedRound a <=? ValidRound p) || (lockedValue a =? Value p))
      then (a, (None, Some (msg o a Prevote (Value p)), None))
      else (a, (None, Some (msg o a Prevote NilValue), None))
  | Line36, Some p =>
      let a := set_line36Executed true a in
      let a := if Step_eqb s Prevote
               then set_step Precommit (set_locked r (Value p) a)
               else a in
      let a := set_valid r (Value p) a in
      (a, (None, Some (msg o a Precommit (Value p)), None))
  | Line44, _ =>
      let a := set_step Precommit a in
      (a, (None, Some (msg o a Precommit NilValue), None))
  | Line34, _ =>
      let a := set_line34Executed true a in
      (a, (None, None, Some (timeout o a Prevote)))
  | Line49, Some p =>
      let a := if Valid o (Value p)
               then set_valid (-1) NilValue (set_locked (-1) NilValue a)
               else a in
      (a, (Some {| RoundChangeRound := 0; Decision := Some p |}, None, None))
  | Line47, _ =>
      let a := set_line47Executed true a in
      (a, (None, None, Some (timeout o a Precommit)))
  | Line55, _ =>
      (a, (Some {| RoundChangeRound := Round cm; Decision := None |}, None, None))
  | _, _ => (a, (None, None, None))
  end.

(** [func (a *Algorithm) OnTimeoutPropose(height uint64, round int64)
      *ConsensusMessage] *)
Definition OnTimeoutPropose (o : Oracle) (a : Algorithm) (height round' : Z)
  : Algorithm * option ConsensusMessage :=
  if (height =? OracleHeight o) && (round' =? round a)
     && Step_eqb (step a) Propose then
    let a := set_step Prevote a in
    (a, Some (msg o a Prevote NilValue))
  else (a, None).

(** [func (a *Algorithm) OnTimeoutPrevote(height uint64, round int64)
      *ConsensusMessage] *)
Definition OnTimeoutPrevote (o : Oracle) (a : Algorithm) (height round' : Z)
  : Algorithm * option ConsensusMessage :=
  if (height =? OracleHeight o) && (round' =? round a)
     && Step_eqb (step a) Prevote then
    let a := set_step Precommit a in
    (a, Some (msg o a Precommit NilValue))
  else (a, None).

(** [func (a *Algorithm) OnTimeoutPrecommit(height uint64, round int64)
      *RoundChange]; [a.round + 1] is an [int64] addition. *)
Definition OnTimeoutPrecommit (o : Oracle) (a : Algorithm) (height round' : Z)
  : option RoundChange :=
  if (height =? OracleHeight o) && (round' =? round a) then
    Some {| RoundChangeRound := wrap_i64 (round a + 1); Decision := None |}
  else None.

(** ** Runs of the algorithm between two [StartRound] calls

    The driver calls [ReceiveMessage] and the three timeout handlers in
    any order, each with the oracle's answers of the moment. *)
Inductive Call :=
  | CallReceiveMessage (o : Oracle) (cm : ConsensusMessage)
  | CallOnTimeoutPropose (o : Oracle) (height round' : Z)
  | CallOnTimeoutPrevote (o : Oracle) (height round' : Z)
  | CallOnTimeoutPrecommit (o : Oracle) (height round' : Z).

(** What a call gave back; for [ReceiveMessage] also the upon-condition
    whose block ran. *)
Inductive Output :=
  | OutReceiveMessage (u : Upon) (res : ReceiveResult)
  | OutMessage (m : option ConsensusMessage)
  | OutRoundChange (rc : option RoundChange).

Definition exec (a : Algorithm) (c : Call) : Algorithm * Output :=
  match c with
  | CallReceiveMessage o cm =>
      let '(a', res) := ReceiveMessage o a cm in
      (a', OutReceiveMessage (upon o a cm) res)
  | CallOnTimeoutPropose o h r =>
      let '(a', m) := OnTimeoutPropose o a h r in (a', OutMessage m)
  | CallOnTimeoutPrevote o h r =>
      let '(a', m) := OnTimeoutPrevote o a h r in (a', OutMessage m)
  | CallOnTimeoutPrecommit o h r =>
      (a, OutRoundChange (OnTimeoutPrecommit o a h r))
  end.

Fixpoint run (a : Algorithm) (calls : list Call) : Algorithm * list Output :=
  match calls with
  | [] => (a, [])
  | c :: rest =>
      let '(a', out) := exec a c in
      let '(a'', outs) := run a' rest in
      (a'', out :: outs)
  end.

Definition Upon_eqb (u v : Upon) : bool :=
  match u, v with
  | Line22, Line22 | Line28, Line28 | Line36, Line36 | Line44, Line44
  | Line34, Line34 | Line49, Line49 | Line47, Line47 | Line55, Line55
  | NoMatch, NoMatch => true
  | _, _ => false
  end.

(** How many times the block of upon-condition [u] ran. *)
Definition is_fired (u : Upon) (out : Output) : bool :=
  match out with
  | OutReceiveMessage v _ => Upon_eqb u v
  | _ => false
  end.

Definition fired (u : Upon) (outs : list Output) : nat :=
  length (List.filter (is_fired u) outs).

(** How many timeouts of type [ty] were handed back for scheduling. *)
Definition is_scheduled (ty : Step) (out : Output) : bool :=
  match out with
  | OutReceiveMessage _ (_, _, Some t) => Step_eqb (TimeoutType t) ty
  | _ => false
  end.

Definition scheduled (ty : Step) (outs : list Output) : nat :=
  length (List.filter (is_scheduled ty) outs).

(** How many precommits for a value other than nil were handed back for
    broadcast. *)
Definition is_value_precommit (out : Output) : bool :=
  match out with
  | OutReceiveMessage _ (_, Some m, _)
  | OutMessage (Some m) =>
      Step_eqb (MsgType m) Precommit && negb (Value m =? NilValue)
  | _ => false
  end.

Definition precommitted (outs : list Output) : nat :=
  length (List.filter is_value_precommit outs).

(** ** A concrete node, used to run the definitions

    Height 11, node 1 is not the proposer, value [7] has been proposed in
    round 0 with valid round -1 and is proposed again in round 1. *)
Module scenario.

Definition X : ValueID := 7.

Definition proposal (r : Z) : ConsensusMessage :=
  {| MsgType := Propose; Height := 11; Round := r; Value := X;
     ValidRound := -1 |}.

Definition prevote (r : Z) (v : ValueID) : ConsensusMessage :=
  {| MsgType := Prevote; Height := 11; Round := r; Value := v;
     ValidRound := 0 |}.

Definition precommit (r : Z) (v : ValueID) : ConsensusMessage :=
  {| MsgType := Precommit; Height := 11; Round := r; Value := v;
     ValidRound := 0 |}.

(** The store holds the proposal of round [r] and a prevote quorum for it;
    [valid] is the block verifier's answer. *)
Definition oracle (valid : bool) (r : Z) : Oracle :=
  {| Valid := fun _ => valid;
     MatchingProposal := fun _ => Some (proposal r);
     PrevoteQThresh := fun _ _ => true;
     PrecommitQThresh := fun _ _ => false;
     FThresh := fun _ => false;
     Proposer := fun _ _ => false;
     OracleHeight := 11;
     OracleValue := inl X |}.

(** The store holds a quorum of prevotes, but for no single value. *)
Definition oracle_split_prevotes : Oracle :=
  {| Valid := fun _ => true;
     MatchingProposal := fun _ => Some (proposal 0);
     PrevoteQThresh := fun _ v => match v with None => true | Some _ => false end;
     PrecommitQThresh := fun _ _ => false;
     FThresh := fun _ => false;
     Proposer := fun _ _ => false;
     OracleHeight := 11;
     OracleValue := inl X |}.

(** The store holds a quorum of precommits, but for no single value. *)
Definition oracle_split_precommits : Oracle :=
  {| Valid := fun _ => true;
     MatchingProposal := fun _ => Some (proposal 0);
     PrevoteQThresh := fun _ _ => true;
     PrecommitQThresh := fun _ v => match v with None => true | Some _ => false end;
     FThresh := fun _ => false;
     Proposer := fun _ _ => false;
     OracleHeight := 11;
     OracleValue := inl X |}.

(** The store holds the proposal of round 0 and a precommit quorum for
    it. *)
Definition oracle_precommit_quorum : Oracle :=
  {| Valid := fun _ => true;
     MatchingProposal := fun _ => Some (proposal 0);
     PrevoteQThresh := fun _ _ => false;
     PrecommitQThresh := fun _ _ => true;
     FThresh := fun _ => false;
     Proposer := fun _ _ => false;
     OracleHeight := 11;
     OracleValue := inl X |}.

(** Node 1 after [StartRound 0]. *)
Definition started : Algorithm :=
  {| nodeID := 1; round := 0; step := Propose;
     lockedRound := -1; lockedValue := NilValue;
     validRound := -1; validValue := NilValue;
     line34Executed := false; line36Executed := false;
     line47Executed := false |}.

(** A round in which every qualifying message arrives twice. *)
Definition busy_round : list Call :=
  [ CallOnTimeoutPropose (oracle true 0) 11 0;
    CallReceiveMessage oracle_split_prevotes (prevote 0 X);
    CallReceiveMessage oracle_split_prevotes (prevote 0 X);
    CallReceiveMessage (oracle true 0) (prevote 0 X);
    CallReceiveMessage (oracle true 0) (prevote 0 X);
    CallReceiveMessage oracle_split_precommits (precommit 0 X);
    CallReceiveMessage oracle_split_precommits (precommit 0 X) ].

(** Node 1 locked on [X] in round 0 and now in round 1, step propose. *)
Definition locked_on_X : Algorithm :=
  {| nodeID := 1; round := 1; step := Propose;
     lockedRound := 0; lockedValue := X;
     validRound := 0; validValue := X;
     line34Executed := false; line36Executed := false;
     line47Executed := false |}.

(** The calls that take a fresh node 1 to [locked_on_X]. *)
Definition lock_on_X (a : Algorithm) : Algorithm :=
  let a := (StartRound (oracle true 0) 0 a).1 in
  let a := (ReceiveMessage (oracle true 0) a (proposal 0)).1 in
  let a := (ReceiveMessage (oracle true 0) a (prevote 0 X)).1 in
  (StartRound (oracle true 0) 1 a).1.

End scenario.

End algorithm.

(* ===================================================================== *)
(** * Proofs of misbehaviour ([package types]) *)
(* ===================================================================== *)

Module types.

(** [type ProofType uint64] *)
Inductive ProofType := InnocentProof | ChallengeProof | AccusationProof.

(** [type Rule uint8] and its constants, in the order of the [const]
    block. *)
Inductive Rule :=
  | PN | PO | PVN | PVO | C | C1
  | GarbageMessage | InvalidProposal | InvalidProposer | Equivocation
  | UnknownRule.

Definition Rule_const_block : list Rule :=
  [PN; PO; PVN; PVO; C; C1;
   GarbageMessage; InvalidProposal; InvalidProposer; Equivocation;
   UnknownRule].

Definition Rule_eqb (r s : Rule) : bool :=
  match r, s with
  | PN, PN | PO, PO | PVN, PVN | PVO, PVO | C, C | C1, C1
  | GarbageMessage, GarbageMessage | InvalidProposal, InvalidProposal
  | InvalidProposer, InvalidProposer | Equivocation, Equivocation
  | UnknownRule, UnknownRule => true
  | _, _ => false
  end.

(** Go's [iota]: the first constant of a block declared [= iota] is 0 and
    each following line adds one. *)
Fixpoint iota (block : list Rule) (r : Rule) (line : Z) : Z :=
  match block with
  | [] => line
  | c :: rest => if Rule_eqb c r then line else iota rest r (line + 1)
  end.

(** The [uint8] that a [Rule] constant stands for. *)
Definition Rule_u8 (r : Rule) : Z := iota Rule_const_block r 0.

(** Modelled from the spec: [types.ConsensusMessage] and its accessors are
    declared outside the sources at hand. The record holds the spec's tuple
    (type, height, round, value, valid round, sender, payload) and the
    sender's voting power, under the names of the accessors and fields the
    sources use: [Code] and [Type()], [Address] and [Sender()], [H()], [R()],
    [Value()], [ValidRound()], [GetPower()], [Payload()]. [Height()]
    returns [H] together with [HeightErr], the text of its error if any. *)
Record ConsensusMessage := {
  Code : Z;
  Address : Z;
  H : Z;
  HeightErr : option string;
  R : Z;
  Value : Z;
  ValidRound : Z;
  GetPower : Z;
  Payload : list Byte.byte
}.

(** Modelled from the spec: the message codes are declared outside the
    sources at hand; they are numbered like the steps Propose, Prevote,
    Precommit. *)
Definition MsgProposal : Z := 0.
Definition MsgPrevote : Z := 1.
Definition MsgPrecommit : Z := 2.

(** [type RawProof struct] *)
Record RawProof := {
  RawProof_Rule : Rule;
  RawProof_Message : list Byte.byte;
  RawProof_Evidence : list (list Byte.byte)
}.

(** [type OnChainProof struct] *)
Record OnChainProof := {
  Sender : Z;
  Msghash : Z;
  Rawproof : list Byte.byte
}.

End types.

(* ===================================================================== *)
(** * The fault detector ([package afd]) *)
(* ===================================================================== *)

Module afd.
Import types.

(** The errors of the package, compared by identity in the sources;
    [errOther] is any other error, by its text. *)
Inductive error :=
  | errFutureMsg | errGarbageMsg | errNotCommitteeMsg | errProposer
  | errProposal | errEquivocation | errUnknownMsg
  | errOther (text : string).

Definition is_errFutureMsg (e : error) : bool :=
  match e with errFutureMsg => true | _ => false end.

Definition is_errEquivocation (e : error) : bool :=
  match e with errEquivocation => true | _ => false end.

(** ** The message store *)

(** [type MsgStore struct]: height, round, message type and sender lead to
    the message. The stores of [package faultdetector] and of [package afd]
    differ in the name of the message type only. *)
Record MsgStore := {
  messages : gmap Z (gmap Z (gmap Z (gmap Z ConsensusMessage)))
}.

Definition newMsgStore : MsgStore := {| messages := ∅ |}.

(** The message at a key, if any. *)
Definition stored (ms : MsgStore) (height round code address : Z)
  : option ConsensusMessage :=
  match messages ms !! height with
  | None => None
  | Some roundMap =>
      match roundMap !! round with
      | None => None
      | Some msgTypeMap =>
          match msgTypeMap !! code with
          | None => None
          | Some addressMap => addressMap !! address
          end
      end
  end.

(** [func (ms *MsgStore) Save(m)]. The three [if !ok] blocks create the
    maps that are missing on the way to the sender's entry; Go's maps are
    references, so a map created or changed below is the one the level above
    holds. *)
Definition Save (RLPHash : list Byte.byte -> Z) (ms : MsgStore)
    (m : ConsensusMessage)
  : MsgStore * (option ConsensusMessage * option error) :=
  let roundMap := default ∅ (messages ms !! H m) in
  let msgTypeMap := default ∅ (roundMap !! R m) in
  let addressMap := default ∅ (msgTypeMap !! Code m) in
  let link addressMap :=
    {| messages :=
         <[H m := <[R m := <[Code m := addressMap]> msgTypeMap]> roundMap]>
           (messages ms) |} in
  match addressMap !! Address m with
  | None => (link (<[Address m := m]> addressMap), (None, None))
  | Some msg =>
      if negb (RLPHash (Payload msg) =? RLPHash (Payload m))
      then (link addressMap, (Some msg, Some errEquivocation))
      else (link addressMap, (None, None))
  end.

(** Go's [for k, v := range m]: the body runs once for every entry, in an
    order that the language leaves unspecified and that may differ from one
    loop to the next. [for_each] threads the loop's state through the
    entries in the order chosen. *)
Fixpoint for_each {A S : Type} (body : A -> S -> S -> Prop) (entries : list A)
    (s s' : S) : Prop :=
  match entries with
  | [] => s' = s
  | x :: rest => exists s1, body x s s1 /\ for_each body rest s1 s'
  end.

Definition range {V S : Type} (m : gmap Z V) (body : Z -> V -> S -> S -> Prop)
    (s s' : S) : Prop :=
  exists entries, entries ≡ₚ map_to_list m /\
                  for_each (fun kv => body kv.1 kv.2) entries s s'.

(** [func (ms *MsgStore) Get(height, query)]: [Get ms height query result]
    holds when [result] is a slice that the call may return. The loops over
    the senders of one message type and over the message types of one round
    are the two inner [for ... range] statements. *)
Definition senders_loop (query : ConsensusMessage -> bool)
    (addressMap : gmap Z ConsensusMessage)
    (result result' : list ConsensusMessage) : Prop :=
  range addressMap (fun _ m result result' =>
    result' = if query m then result ++ [m] else result) result result'.

Definition types_loop (query : ConsensusMessage -> bool)
    (msgTypeMap : gmap Z (gmap Z ConsensusMessage))
    (result result' : list ConsensusMessage) : Prop :=
  range msgTypeMap (fun _ addressMap => senders_loop query addressMap)
    result result'.

Definition Get (ms : MsgStore) (height : Z) (query : ConsensusMessage -> bool)
    (result : list ConsensusMessage) : Prop :=
  match messages ms !! height with
  | None => result = []
  | Some roundMap =>
      range roundMap (fun _ msgTypeMap => types_loop query msgTypeMap)
        [] result
  end.

(** The scan that the specification describes: rounds, then message types,
    then senders, each in ascending order. *)
Definition key_le {V : Type} (kv1 kv2 : Z * V) : Prop := kv1.1 <= kv2.1.

#[global] Instance key_le_dec {V : Type} : RelDecision (@key_le V) :=
  fun kv1 kv2 => decide (kv1.1 <= kv2.1).

Definition ascending {V : Type} (m : gmap Z V) : list (Z * V) :=
  merge_sort key_le (map_to_list m).

Definition scan_senders (query : ConsensusMessage -> bool)
    (addressMap : gmap Z ConsensusMessage) : list ConsensusMessage :=
  flat_map (fun am => if query am.2 then [am.2] else []) (ascending addressMap).

Definition scan_types (query : ConsensusMessage -> bool)
    (msgTypeMap : gmap Z (gmap Z ConsensusMessage)) : list ConsensusMessage :=
  flat_map (fun ta => scan_senders query ta.2) (ascending msgTypeMap).

Definition Get_ascending (ms : MsgStore) (height : Z)
    (query : ConsensusMessage -> bool) : list ConsensusMessage :=
  match messages ms !! height with
  | None => []
  | Some roundMap =>
      flat_map (fun rm => scan_types query rm.2) (ascending roundMap)
  end.

(** ** Power accounting *)

(** [func powerOfVotes(votes []types.ConsensusMessage) uint64]; the loop,
    with [power] as it stands before [votes]. *)
Fixpoint powerOfVotes_loop (votes : list ConsensusMessage) (power : Z) : Z :=
  match votes with
  | [] => power
  | vote :: rest =>
      if negb (Code vote =? MsgPrevote) || negb (Code vote =? MsgPrecommit)
      then powerOfVotes_loop rest power
      else powerOfVotes_loop rest (wrap_u64 (power + GetPower vote))
  end.

Definition powerOfVotes (votes : list ConsensusMessage) : Z :=
  powerOfVotes_loop votes 0.

(** The sum that the specification describes: the voting power of the
    prevotes and precommits among [votes], as a [uint64]. *)
Definition is_vote (m : ConsensusMessage) : bool :=
  (Code m =? MsgPrevote) || (Code m =? MsgPrecommit).

Definition power_of_prevotes_and_precommits (votes : list ConsensusMessage) : Z :=
  wrap_u64 (foldr Z.add 0 (GetPower <$> List.filter is_vote votes)).

(** ** The message pipeline *)

(** What the block verifier says about a proposed block. *)
Inductive verify_error := ErrFutureBlock | ErrInvalidBlock (text : string).

(** What the pipeline asks of the chain and of the packages outside the
    sources at hand, as the answers they give:
    - [CurrentHeaderNumber] is [chain.CurrentHeader().Number];
    - [Validate m n] is the error text, if any, of
      [m.Validate(crypto.CheckValidatorSignature, chain.GetHeaderByNumber(n))];
    - [Decode m] is the error text, if any, of [m.Decode];
    - [isProposerMsg] and [verifyProposal] are the results of the functions
      of these names, which execute the block against the chain's state;
    - [RLPHash] is [types.RLPHash] and [EncodeToBytes] is
      [rlp.EncodeToBytes] on a [RawProof]. *)
Record BlockChain := {
  CurrentHeaderNumber : Z;
  Validate : ConsensusMessage -> Z -> option string;
  Decode : ConsensusMessage -> option string;
  isProposerMsg : ConsensusMessage -> bool;
  verifyProposal : ConsensusMessage -> option verify_error;
  RLPHash : list Byte.byte -> Z;
  EncodeToBytes : RawProof -> list Byte.byte + string
}.

(** [func (x *big.Int) Cmp(y *big.Int) int] of Go's [math/big]. *)
Definition Cmp (x y : Z) : Z :=
  match x ?= y with Lt => -1 | Eq => 0 | Gt => 1 end.

(** [type FaultDetector struct], the fields the pipeline uses: the store,
    the buffer of future messages by height, the proofs handed to
    [sendProofs] and the lines handed to the logger, oldest first. *)
Record FaultDetector := {
  msgStore : MsgStore;
  futureMsgs : gmap Z (list ConsensusMessage);
  sent : list (ProofType * list OnChainProof);
  logged : list (string * error)
}.

Definition log (text : string) (err : error) (fd : FaultDetector) : FaultDetector :=
  {| msgStore := msgStore fd; futureMsgs := futureMsgs fd; sent := sent fd;
     logged := logged fd ++ [(text, err)] |}.

Definition sendProofs (t : ProofType) (ps : list OnChainProof)
    (fd : FaultDetector) : FaultDetector :=
  {| msgStore := msgStore fd; futureMsgs := futureMsgs fd;
     sent := sent fd ++ [(t, ps)]; logged := logged fd |}.

(** [func errorToRule(err error) (types.Rule, error)] *)
Definition errorToRule (err : error) : Rule * option error :=
  match err with
  | errEquivocation => (Equivocation, None)
  | errProposer => (InvalidProposer, None)
  | errProposal => (InvalidProposal, None)
  | errGarbageMsg => (GarbageMessage, None)
  | _ => (UnknownRule, Some (errOther "errors of not provable"))
  end.

(** The [rawProof] that [generateOnChainProof] fills in and encodes. *)
Definition rawProof (m : ConsensusMessage) (proofs : list ConsensusMessage)
    (rule : Rule) : RawProof :=
  {| RawProof_Rule := rule;
     RawProof_Message := Payload m;
     RawProof_Evidence := Payload <$> proofs |}.

(** [func (fd *FaultDetector) generateOnChainProof(m, proofs, rule)] *)
Definition generateOnChainProof (chain : BlockChain) (m : ConsensusMessage)
    (proofs : list ConsensusMessage) (rule : Rule)
  : OnChainProof * option error :=
  match EncodeToBytes chain (rawProof m proofs rule) with
  | inr text =>
      ({| Sender := Address m; Msghash := RLPHash chain (Payload m);
          Rawproof := [] |}, Some (errOther text))
  | inl rp =>
      ({| Sender := Address m; Msghash := RLPHash chain (Payload m);
          Rawproof := rp |}, None)
  end.

(** [func (fd *FaultDetector) submitMisbehavior(m, proofs, err)] *)
Definition submitMisbehavior (chain : BlockChain) (fd : FaultDetector)
    (m : ConsensusMessage) (proofs : list ConsensusMessage) (err : error)
  : FaultDetector :=
  let '(rule, e) := errorToRule err in
  let fd := match e with
            | Some e => log "error to rule" e fd
            | None => fd
            end in
  let '(proof, err) := generateOnChainProof chain m proofs rule in
  let fd := match err with
            | Some err => log "generate misbehavior proof" err fd
            | None => fd
            end in
  sendProofs ChallengeProof [proof] fd.

(** [func (fd *FaultDetector) bufferMsg(m)] *)
Definition bufferMsg (fd : FaultDetector) (m : ConsensusMessage) : FaultDetector :=
  match HeightErr m with
  | Some _ => fd
  | None =>
      {| msgStore := msgStore fd;
         futureMsgs :=
           <[H m := default [] (futureMsgs fd !! H m) ++ [m]]> (futureMsgs fd);
         sent := sent fd; logged := logged fd |}
  end.

(** [func decodeVote(m) error] *)
Definition decodeVote (chain : BlockChain) (m : ConsensusMessage) : option error :=
  match Decode chain m with
  | Some _ => Some errGarbageMsg
  | None => None
  end.

(** [func checkProposal(chain, m) error] *)
Definition checkProposal (chain : BlockChain) (m : ConsensusMessage) : option error :=
  match Decode chain m with
  | Some _ => Some errGarbageMsg
  | None =>
      if negb (isProposerMsg chain m) then Some errProposer
      else match verifyProposal chain m with
           | Some ErrFutureBlock => Some errFutureMsg
           | Some _ => Some errProposal
           | None => None
           end
  end.

(** [func checkAutoIncriminatingMsg(chain, m) error] *)
Definition checkAutoIncriminatingMsg (chain : BlockChain) (m : ConsensusMessage)
  : option error :=
  if Code m =? MsgProposal then checkProposal chain m
  else if (Code m =? MsgPrevote) || (Code m =? MsgPrecommit)
  then decodeVote chain m
  else Some errUnknownMsg.

(** [func checkMsgSignature(chain, m) error]; [msgHeight.Uint64() - 1] is
    a [uint64] subtraction. *)
Definition checkMsgSignature (chain : BlockChain) (m : ConsensusMessage)
  : option error :=
  match HeightErr m with
  | Some text => Some (errOther text)
  | None =>
      if Cmp (H m) (CurrentHeaderNumber chain) >? 1 then Some errFutureMsg
      else match Validate chain m (wrap_u64 (H m - 1)) with
           | Some _ => Some errNotCommitteeMsg
           | None => None
           end
  end.

Definition set_msgStore (ms : MsgStore) (fd : FaultDetector) : FaultDetector :=
  {| msgStore := ms; futureMsgs := futureMsgs fd; sent := sent fd;
     logged := logged fd |}.

(** [func (fd *FaultDetector) processMsg(m) error] *)
Definition processMsg (chain : BlockChain) (fd : FaultDetector)
    (m : ConsensusMessage) : FaultDetector * option error :=
  match checkMsgSignature chain m with
  | Some err =>
      ((if is_errFutureMsg err then bufferMsg fd m else fd), Some err)
  | None =>
      let save fd :=
        let '(ms, (p, err)) := Save (RLPHash chain) (msgStore fd) m in
        let fd := set_msgStore ms fd in
        match err, p with
        | Some errEquivocation, Some p =>
            (submitMisbehavior chain fd m [p] errEquivocation,
             Some errEquivocation)
        | _, _ => (fd, None)
        end in
      match checkAutoIncriminatingMsg chain m with
      | Some err =>
          if is_errFutureMsg err then save (bufferMsg fd m)
          else (submitMisbehavior chain fd m [m] err, Some err)
      | None => save fd
      end
  end.

(** The inner loop of [processBufferedMsgs] over one bucket; next to the
    detector it keeps the messages handed to [processMsg] so far. *)
Fixpoint replay (chain : BlockChain) (msgs : list ConsensusMessage)
    (s : FaultDetector * list ConsensusMessage)
  : FaultDetector * list ConsensusMessage :=
  match msgs with
  | [] => s
  | m :: rest =>
      let '(fd, err) := processMsg chain s.1 m in
      let fd := match err with
                | Some err => log "process consensus msg" err fd
                | None => fd
                end in
      replay chain rest (fd, s.2 ++ [m])
  end.

(** [func (fd *FaultDetector) processBufferedMsgs(height uint64)]. The
    loop variable is named [height] too and hides the parameter, so the
    test compares the bucket's height with itself. A bucket is read when
    the loop reaches its height. [processBufferedMsgs chain height fd fd'
    handled] holds when the call may leave the detector as [fd'], having
    handed the messages [handled] to [processMsg]. *)
Definition processBufferedMsgs (chain : BlockChain) (height : Z)
    (fd fd' : FaultDetector) (handled : list ConsensusMessage) : Prop :=
  range (futureMsgs fd) (fun height' _ s s' =>
      let msgs := default [] (futureMsgs s.1 !! height') in
      if height' <=? height' then s' = replay chain msgs s else s' = s)
    (fd, []) (fd', handled).

(** Every bucket of [fd1] is still in [fd2], possibly with more messages
    behind it. *)
Definition keeps_buffered (fd1 fd2 : FaultDetector) : Prop :=
  forall k msgs, futureMsgs fd1 !! k = Some msgs ->
    exists more, futureMsgs fd2 !! k = Some (msgs ++ more).

(** ** Concrete messages and chains, used to run the definitions *)
Module scenario.

(** A stand-in for the hash of a payload: its bytes read as a number in
    base 256 after a leading 1, so that distinct payloads differ. *)
Definition positional_hash (payload : list Byte.byte) : Z :=
  foldl (fun acc b => acc * 256 + Z.of_N (Byte.to_N b)) 1 payload.

Definition vote (code height round' sender value : Z) : ConsensusMessage :=
  {| Code := code; Address := sender; H := height; HeightErr := None;
     R := round'; Value := value; ValidRound := 0; GetPower := 1;
     Payload := [Byte.x02; default Byte.x00 (Byte.of_N (Z.to_N code));
                 default Byte.x00 (Byte.of_N (Z.to_N value))] |}.

Definition proposal (height round' sender value : Z) : ConsensusMessage :=
  {| Code := MsgProposal; Address := sender; H := height; HeightErr := None;
     R := round'; Value := value; ValidRound := -1; GetPower := 1;
     Payload := [Byte.x01; default Byte.x00 (Byte.of_N (Z.to_N height));
                 default Byte.x00 (Byte.of_N (Z.to_N value))] |}.

(** Validators 1 and 2 prevote in rounds 0 and 1 of height 11. *)
Definition prevote_r0_s1 := vote MsgPrevote 11 0 1 7.
Definition prevote_r0_s1' := vote MsgPrevote 11 0 1 8.
Definition prevote_r0_s2 := vote MsgPrevote 11 0 2 7.
Definition prevote_r1_s1 := vote MsgPrevote 11 1 1 7.
Definition precommit_r0_s1 := vote MsgPrecommit 11 0 1 7.

Definition store_of (msgs : list ConsensusMessage) : MsgStore :=
  foldl (fun ms m => (Save positional_hash ms m).1) newMsgStore msgs.

Definition two_rounds : MsgStore := store_of [prevote_r0_s1; prevote_r1_s1].

(** A chain whose head is at [head]: every signature and every encoding
    is good, every proposal comes from the proposer, and the block
    verifier finds a block beyond [head + 1] to be a future block. *)
Definition chain_at (head : Z) : BlockChain :=
  {| CurrentHeaderNumber := head;
     Validate := fun _ _ => None;
     Decode := fun _ => None;
     isProposerMsg := fun _ => true;
     verifyProposal := fun m =>
       if H m >? head + 1 then Some ErrFutureBlock else None;
     RLPHash := positional_hash;
     EncodeToBytes := fun rp =>
       inl (default Byte.x00 (Byte.of_N (Z.to_N (Rule_u8 (RawProof_Rule rp))))
            :: RawProof_Message rp ++ concat (RawProof_Evidence rp)) |}.

Definition newFaultDetector : FaultDetector :=
  {| msgStore := newMsgStore; futureMsgs := ∅; sent := []; logged := [] |}.

(** With the head at 3 the proposals of heights 5 and 20 arrive. *)
Definition proposal_h5 := proposal 5 0 1 7.
Definition proposal_h20 := proposal 20 0 1 9.

Definition buffered : FaultDetector :=
  (processMsg (chain_at 3)
     (processMsg (chain_at 3) newFaultDetector proposal_h5).1
     proposal_h20).1.

(** The head advances to 10 and the buffer is replayed, the buckets in
    the order of [map_to_list]. *)
Definition replayed : FaultDetector * list ConsensusMessage :=
  foldl (fun s kv => replay (chain_at 10) (default [] (futureMsgs s.1 !! kv.1)) s)
    (buffered, []) (map_to_list (futureMsgs buffered)).

(** With the head at 10 a prevote of height 12 arrives. *)
Definition prevote_h12 := vote MsgPrevote 12 0 1 7.

End scenario.

End afd.

(* ===================================================================== *)
(** * Removing messages from the store *)
(* ===================================================================== *)

Module msgstore.
Import types afd.

(** [func (ms *MsgStore) removeMsg(m)]: indexing a map at a missing key
    gives the nil map, and [delete] on the nil map does nothing. *)
Definition removeMsg (ms : MsgStore) (m : ConsensusMessage) : MsgStore :=
  match messages ms !! H m with
  | None => ms
  | Some roundMap =>
      match roundMap !! R m with
      | None => ms
      | Some msgTypeMap =>
          match msgTypeMap !! Code m with
          | None => ms
          | Some addressMap =>
              {| messages :=
                   <[H m := <[R m := <[Code m :=
                      delete (Address m) addressMap]> msgTypeMap]> roundMap]>
                     (messages ms) |}
          end
      end
  end.

(** [func (ms *MsgStore) DeleteMsgsAtHeight(height uint64)]. The three
    loops range over the maps of the height while [removeMsg] deletes from
    them; Go does not produce an entry that was deleted before the loop
    reached it, so the body runs for an entry only if it is still stored.
    [removeMsg] deletes at the key that the message names, which is the
    entry at hand when the message is stored under its own key. *)
Definition DeleteMsgsAtHeight (ms : MsgStore) (height : Z) (ms' : MsgStore)
  : Prop :=
  exists s,
    range (default ∅ (messages ms !! height)) (fun r msgTypeMap =>
      range msgTypeMap (fun c addressMap =>
        range addressMap (fun a m (s s' : MsgStore) =>
          s' = match stored s height r c a with
               | Some _ => removeMsg s m
               | None => s
               end)))
      ms s /\
    ms' = {| messages := delete height (messages s) |}.

(** Every message sits under the key that it names. *)
Definition well_keyed (ms : MsgStore) : Prop :=
  forall h r c a m, stored ms h r c a = Some m ->
    H m = h /\ R m = r /\ Code m = c /\ Address m = a.

End msgstore.

(* ===================================================================== *)
(** * The buffer of future messages *)
(* ===================================================================== *)

Module buffer.
Import types afd.

(** Every buffered message sits in the bucket of its own height, which
    [Height()] could read. *)
Definition by_height (fd : FaultDetector) : Prop :=
  forall k msgs m, futureMsgs fd !! k = Some msgs -> m ∈ msgs ->
    H m = k /\ HeightErr m = None.

(** The key of a message in the store. *)
Definition stored_at_key_of (ms : MsgStore) (m : ConsensusMessage)
  : option ConsensusMessage :=
  stored ms (H m) (R m) (Code m) (Address m).

(** A chain that finds no signature good, and one that can decode no
    message; otherwise like [scenario.chain_at 10]. *)
Definition chain_rejecting : BlockChain :=
  {| CurrentHeaderNumber := 10;
     Validate := fun _ _ => Some "not a committee member"%string;
     Decode := Decode (scenario.chain_at 10);
     isProposerMsg := isProposerMsg (scenario.chain_at 10);
     verifyProposal := verifyProposal (scenario.chain_at 10);
     RLPHash := RLPHash (scenario.chain_at 10);
     EncodeToBytes := EncodeToBytes (scenario.chain_at 10) |}.

Definition chain_garbling : BlockChain :=
  {| CurrentHeaderNumber := 10;
     Validate := Validate (scenario.chain_at 10);
     Decode := fun _ => Some "rlp: unexpected input"%string;
     isProposerMsg := isProposerMsg (scenario.chain_at 10);
     verifyProposal := verifyProposal (scenario.chain_at 10);
     RLPHash := RLPHash (scenario.chain_at 10);
     EncodeToBytes := EncodeToBytes (scenario.chain_at 10) |}.

End buffer.

(* ===================================================================== *)
(** * The rule engine ([runRules] and the proofs of innocence) *)
(* ===================================================================== *)

Module rule_engine.
Import types afd.

(** [type Proof struct] *)
Record Proof := {
  Proof_Rule : Rule;
  Proof_Message : ConsensusMessage;
  Proof_Evidence : list ConsensusMessage
}.

(** [var nilValue = common.Hash{}] *)
Definition nilValue : Z := 0.

(** [var proof types.OnChainProof], the zero value. *)
Definition no_proof : OnChainProof :=
  {| Sender := 0; Msghash := 0; Rawproof := [] |}.

(** The queries that the rule engine hands to [Get], by the place where
    they are written. *)
Definition is_proposal (m : ConsensusMessage) : bool := Code m =? MsgProposal.
Definition is_prevote (m : ConsensusMessage) : bool := Code m =? MsgPrevote.
Definition is_precommit (m : ConsensusMessage) : bool := Code m =? MsgPrecommit.

Definition q_proposalsNew (m : ConsensusMessage) : bool :=
  is_proposal m && (ValidRound m =? -1).

Definition q_PN_precommits (proposal m : ConsensusMessage) : bool :=
  (Address m =? Address proposal) && is_precommit m && (R m <? R proposal)
  && negb (Value m =? nilValue).

Definition q_proposalsOld (m : ConsensusMessage) : bool :=
  is_proposal m && (ValidRound m >? -1).

Definition q_PO_precommits_at (proposal m : ConsensusMessage) : bool :=
  is_precommit m && (R m =? ValidRound proposal)
  && (Address m =? Address proposal) && negb (Value m =? nilValue)
  && negb (Value m =? Value proposal).

Definition q_PO_precommits_after (proposal m : ConsensusMessage) : bool :=
  is_precommit m
  && (R m >? ValidRound proposal) && (R m <? R proposal)
  && (Address m =? Address proposal)
  && negb (Value m =? nilValue).

Definition q_PO_prevotes (proposal m : ConsensusMessage) : bool :=
  is_prevote m && (R m =? ValidRound proposal).

Definition q_prevotes (m : ConsensusMessage) : bool :=
  is_prevote m && negb (Value m =? nilValue).

Definition q_proposal_for (vote m : ConsensusMessage) : bool :=
  is_proposal m && (Value m =? Value vote) && (R m =? R vote).

Definition q_PVN_precommits (prevote m : ConsensusMessage) : bool :=
  is_precommit m && negb (Value m =? nilValue)
  && negb (Value m =? Value prevote) && (Address prevote =? Address m)
  && (R m <? R prevote).

Definition q_PVO_precommits (prevote m : ConsensusMessage) : bool :=
  is_precommit m && (Address prevote =? Address m)
  && (R m <? R prevote) && negb (Value m =? nilValue).

Definition q_precommits (m : ConsensusMessage) : bool :=
  is_precommit m && negb (Value m =? nilValue).

Definition q_prevotesForNotV (precommit m : ConsensusMessage) : bool :=
  is_prevote m && negb (Value m =? Value precommit) && (R m =? R precommit).

Definition q_prevotesForV (precommit m : ConsensusMessage) : bool :=
  is_prevote m && (Value m =? Value precommit) && (R m =? R precommit).

(** ** Proofs of innocence

    [quorum] stands for
    [bft.Quorum(fd.blockchain.GetHeaderByNumber(height - 1).TotalVotingPower())],
    a [uint64] computed outside the sources at hand. Each function calls
    [Get], so it is given as the set of results it may return. *)
Definition InnocentProof : Type := OnChainProof * option error.

(** [func (fd *FaultDetector) GetInnocentProofOfPO(c)] *)
Definition GetInnocentProofOfPO (chain : BlockChain) (ms : MsgStore)
    (quorum : Z) (c : Proof) (result : InnocentProof) : Prop :=
  let proposal := Proof_Message c in
  exists prevotes,
    Get ms (H proposal)
      (fun m => is_prevote m && (R m =? ValidRound proposal)
                && (Value m =? Value proposal)) prevotes /\
    result = if powerOfVotes prevotes <? quorum
             then (no_proof, Some (errOther "node is malicious"))
             else generateOnChainProof chain proposal prevotes (Proof_Rule c).

(** [func (fd *FaultDetector) GetInnocentProofOfPVN(c)]; an error of
    [generateOnChainProof] is dropped here. *)
Definition GetInnocentProofOfPVN (chain : BlockChain) (ms : MsgStore)
    (c : Proof) (result : InnocentProof) : Prop :=
  let prevote := Proof_Message c in
  exists correspondingProposals,
    Get ms (H prevote) (q_proposal_for prevote) correspondingProposals /\
    result = match correspondingProposals with
             | [] => (no_proof, Some (errOther "node is malicious"))
             | _ => ((generateOnChainProof chain prevote
                        correspondingProposals (Proof_Rule c)).1, None)
             end.

(** [func (fd *FaultDetector) GetInnocentProofOfC(c)] *)
Definition GetInnocentProofOfC (chain : BlockChain) (ms : MsgStore)
    (c : Proof) (result : InnocentProof) : Prop :=
  let preCommit := Proof_Message c in
  exists proposals,
    Get ms (H preCommit) (q_proposal_for preCommit) proposals /\
    result = match proposals with
             | [] => (no_proof, Some (errOther "node is malicious"))
             | _ => generateOnChainProof chain preCommit proposals
                      (Proof_Rule c)
             end.

(** [func (fd *FaultDetector) GetInnocentProofOfC1(c)] *)
Definition GetInnocentProofOfC1 (chain : BlockChain) (ms : MsgStore)
    (quorum : Z) (c : Proof) (result : InnocentProof) : Prop :=
  let preCommit := Proof_Message c in
  exists prevotesForV,
    Get ms (H preCommit)
      (fun m => is_prevote m && (Value m =? Value preCommit)
                && (R m =? R preCommit)) prevotesForV /\
    result = if powerOfVotes prevotesForV <? quorum
             then (no_proof, Some (errOther "node might be malicious"))
             else generateOnChainProof chain preCommit prevotesForV
                    (Proof_Rule c).

(** [func (fd *FaultDetector) getInnocentProof(c)] *)
Definition getInnocentProof (chain : BlockChain) (ms : MsgStore)
    (quorum : Z) (c : Proof) (result : InnocentProof) : Prop :=
  match Proof_Rule c with
  | PO => GetInnocentProofOfPO chain ms quorum c result
  | PVN => GetInnocentProofOfPVN chain ms c result
  | C => GetInnocentProofOfC chain ms c result
  | C1 => GetInnocentProofOfC1 chain ms quorum c result
  | _ => result = (no_proof, Some (errOther "not provable rule"))
  end.

(** ** [runRules]

    The two slices that [runRules] builds, [proofs] and [accusations]. *)
Definition Findings : Type := list Proof * list Proof.

Definition add_proof (p : Proof) (f : Findings) : Findings := (f.1 ++ [p], f.2).
Definition add_accusation (p : Proof) (f : Findings) : Findings :=
  (f.1, f.2 ++ [p]).

(** The body of the loop over the new proposals. *)
Definition PN_step (ms : MsgStore) (height : Z) (proposal : ConsensusMessage)
    (f f' : Findings) : Prop :=
  exists precommits,
    Get ms height (q_PN_precommits proposal) precommits /\
    f' = match precommits with
         | [] => f
         | _ => add_proof {| Proof_Rule := PN; Proof_Evidence := precommits;
                             Proof_Message := proposal |} f
         end.

(** The body of the loop over the old proposals. *)
Definition PO_step (ms : MsgStore) (quorum height : Z)
    (proposal : ConsensusMessage) (f f' : Findings) : Prop :=
  exists precommits precommits' prevotes,
    Get ms height (q_PO_precommits_at proposal) precommits /\
    Get ms height (q_PO_precommits_after proposal) precommits' /\
    Get ms height (q_PO_prevotes proposal) prevotes /\
    let f := match precommits with
             | [] => f
             | _ => add_proof {| Proof_Rule := PO; Proof_Evidence := precommits;
                                 Proof_Message := proposal |} f
             end in
    let f := match precommits' with
             | [] => f
             | _ => add_proof {| Proof_Rule := PO; Proof_Evidence := precommits';
                                 Proof_Message := proposal |} f
             end in
    f' = if powerOfVotes prevotes <? quorum
         then add_accusation {| Proof_Rule := PO; Proof_Message := proposal;
                                Proof_Evidence := [] |} f
         else f.

(** The body of the loop over the precommits; [continue] ends it when
    there is no proposal for the precommit. *)
Definition precommit_step (ms : MsgStore) (quorum height : Z)
    (precommit : ConsensusMessage) (f f' : Findings) : Prop :=
  exists proposals,
    Get ms height (q_proposal_for precommit) proposals /\
    match proposals with
    | [] => f' = add_accusation {| Proof_Rule := C; Proof_Message := precommit;
                                   Proof_Evidence := [] |} f
    | _ =>
        exists prevotesForNotV prevotesForV,
          Get ms height (q_prevotesForNotV precommit) prevotesForNotV /\
          Get ms height (q_prevotesForV precommit) prevotesForV /\
          f' = if powerOfVotes prevotesForNotV >=? quorum
               then add_proof {| Proof_Rule := C;
                                 Proof_Evidence := prevotesForNotV;
                                 Proof_Message := precommit |} f
               else if powerOfVotes prevotesForV <? quorum
               then add_accusation {| Proof_Rule := C1;
                                      Proof_Message := precommit;
                                      Proof_Evidence := [] |} f
               else f
    end.

(** The part headed [Precommits], which stands inside the loop over the
    corresponding proposals. *)
Definition precommit_section (ms : MsgStore) (quorum height : Z)
    (f f' : Findings) : Prop :=
  exists precommits,
    Get ms height q_precommits precommits /\
    for_each (precommit_step ms quorum height) precommits f f'.

(** The loop over the corresponding proposals of a prevote; [break] ends
    it after a proof of [PVN]. *)
Fixpoint proposals_loop (ms : MsgStore) (quorum height : Z)
    (prevote : ConsensusMessage)
    (correspondingProposals : list ConsensusMessage) (f f' : Findings)
  : Prop :=
  match correspondingProposals with
  | [] => f' = f
  | correspondingProposal :: rest =>
      if ValidRound correspondingProposal =? -1 then
        exists precommits,
          Get ms height (q_PVN_precommits prevote) precommits /\
          match precommits with
          | [] =>
              exists f1, precommit_section ms quorum height f f1 /\
                         proposals_loop ms quorum height prevote rest f1 f'
          | _ =>
              f' = add_proof
                     {| Proof_Rule := PVN;
                        Proof_Evidence := precommits ++ [correspondingProposal];
                        Proof_Message := prevote |} f
          end
      else
        exists precommits,
          Get ms height (q_PVO_precommits prevote) precommits /\
          exists f1, precommit_section ms quorum height f f1 /\
                     proposals_loop ms quorum height prevote rest f1 f'
  end.

(** The body of the loop over the prevotes. *)
Definition prevote_step (ms : MsgStore) (quorum height : Z)
    (prevote : ConsensusMessage) (f f' : Findings) : Prop :=
  exists correspondingProposals,
    Get ms height (q_proposal_for prevote) correspondingProposals /\
    let f := match correspondingProposals with
             | [] => add_accusation {| Proof_Rule := PVN;
                                       Proof_Message := prevote;
                                       Proof_Evidence := [] |} f
             | _ => f
             end in
    proposals_loop ms quorum height prevote correspondingProposals f f'.

(** [func (fd *FaultDetector) runRules(height uint64)
      (proofs []types.Proof, accusations []types.Proof)] *)
Definition runRules (ms : MsgStore) (quorum height : Z) (result : Findings)
  : Prop :=
  exists proposalsNew f1 proposalsOld f2 prevotes,
    Get ms height q_proposalsNew proposalsNew /\
    for_each (PN_step ms height) proposalsNew ([], []) f1 /\
    Get ms height q_proposalsOld proposalsOld /\
    for_each (PO_step ms quorum height) proposalsOld f1 f2 /\
    Get ms height q_prevotes prevotes /\
    for_each (prevote_step ms quorum height) prevotes f2 result.

(** ** [runRules] when every map is visited in ascending order

    One of the ways for [runRules] to run, as a function: every [Get]
    returns its ascending scan. *)
Definition PN_step_ascending (ms : MsgStore) (height : Z) (f : Findings)
    (proposal : ConsensusMessage) : Findings :=
  match Get_ascending ms height (q_PN_precommits proposal) with
  | [] => f
  | precommits =>
      add_proof {| Proof_Rule := PN; Proof_Evidence := precommits;
                   Proof_Message := proposal |} f
  end.

Definition PO_step_ascending (ms : MsgStore) (quorum height : Z) (f : Findings)
    (proposal : ConsensusMessage) : Findings :=
  let f := match Get_ascending ms height (q_PO_precommits_at proposal) with
           | [] => f
           | precommits =>
               add_proof {| Proof_Rule := PO; Proof_Evidence := precommits;
                            Proof_Message := proposal |} f
           end in
  let f := match Get_ascending ms height (q_PO_precommits_after proposal) with
           | [] => f
           | precommits =>
               add_proof {| Proof_Rule := PO; Proof_Evidence := precommits;
                            Proof_Message := proposal |} f
           end in
  if powerOfVotes (Get_ascending ms height (q_PO_prevotes proposal)) <? quorum
  then add_accusation {| Proof_Rule := PO; Proof_Message := proposal;
                         Proof_Evidence := [] |} f
  else f.

Definition precommit_step_ascending (ms : MsgStore) (quorum height : Z)
    (f : Findings) (precommit : ConsensusMessage) : Findings :=
  match Get_ascending ms height (q_proposal_for precommit) with
  | [] => add_accusation {| Proof_Rule := C; Proof_Message := precommit;
                            Proof_Evidence := [] |} f
  | _ =>
      if powerOfVotes (Get_ascending ms height (q_prevotesForNotV precommit))
         >=? quorum
      then add_proof
             {| Proof_Rule := C;
                Proof_Evidence :=
                  Get_ascending ms height (q_prevotesForNotV precommit);
                Proof_Message := precommit |} f
      else if powerOfVotes (Get_ascending ms height (q_prevotesForV precommit))
              <? quorum
      then add_accusation {| Proof_Rule := C1; Proof_Message := precommit;
                             Proof_Evidence := [] |} f
      else f
  end.

Definition precommit_section_ascending (ms : MsgStore) (quorum height : Z)
    (f : Findings) : Findings :=
  foldl (precommit_step_ascending ms quorum height) f
    (Get_ascending ms height q_precommits).

Fixpoint proposals_loop_ascending (ms : MsgStore) (quorum height : Z)
    (prevote : ConsensusMessage)
    (correspondingProposals : list ConsensusMessage) (f : Findings)
  : Findings :=
  match correspondingProposals with
  | [] => f
  | correspondingProposal :: rest =>
      if ValidRound correspondingProposal =? -1 then
        match Get_ascending ms height (q_PVN_precommits prevote) with
        | [] =>
            proposals_loop_ascending ms quorum height prevote rest
              (precommit_section_ascending ms quorum height f)
        | precommits =>
            add_proof
              {| Proof_Rule := PVN;
                 Proof_Evidence := precommits ++ [correspondingProposal];
                 Proof_Message := prevote |} f
        end
      else
        proposals_loop_ascending ms quorum height prevote rest
          (precommit_section_ascending ms quorum height f)
  end.

Definition prevote_step_ascending (ms : MsgStore) (quorum height : Z)
    (f : Findings) (prevote : ConsensusMessage) : Findings :=
  let correspondingProposals :=
    Get_ascending ms height (q_proposal_for prevote) in
  let f := match correspondingProposals with
           | [] => add_accusation {| Proof_Rule := PVN;
                                     Proof_Message := prevote;
                                     Proof_Evidence := [] |} f
           | _ => f
           end in
  proposals_loop_ascending ms quorum height prevote correspondingProposals f.

Definition runRules_ascending (ms : MsgStore) (quorum height : Z) : Findings :=
  let f := foldl (PN_step_ascending ms height) ([], [])
             (Get_ascending ms height q_proposalsNew) in
  let f := foldl (PO_step_ascending ms quorum height) f
             (Get_ascending ms height q_proposalsOld) in
  foldl (prevote_step_ascending ms quorum height) f
    (Get_ascending ms height q_prevotes).

(** ** A height with three offences

    At height 11, validator 1 precommits value 9 in round 0 and proposes
    value 7 as new in round 1; validator 2 precommits 9 in round 0 and
    prevotes 7 in round 1; validator 3 precommits 9 in round 1 and proposes
    value 8 in round 2 with valid round 0. The quorum is 3. *)
Module example.

Definition message (code sender round' value validRound : Z)
  : ConsensusMessage :=
  {| Code := code; Address := sender; H := 11; HeightErr := None;
     R := round'; Value := value; ValidRound := validRound; GetPower := 1;
     Payload := [default Byte.x00 (Byte.of_N (Z.to_N code));
                 default Byte.x00 (Byte.of_N (Z.to_N sender));
                 default Byte.x00 (Byte.of_N (Z.to_N round'));
                 default Byte.x00 (Byte.of_N (Z.to_N value))] |}.

Definition precommit_1 := message MsgPrecommit 1 0 9 0.
Definition proposal_1 := message MsgProposal 1 1 7 (-1).
Definition precommit_2 := message MsgPrecommit 2 0 9 0.
Definition prevote_2 := message MsgPrevote 2 1 7 0.
Definition precommit_3 := message MsgPrecommit 3 1 9 0.
Definition proposal_3 := message MsgProposal 3 2 8 0.

Definition store : MsgStore :=
  scenario.store_of [precommit_1; proposal_1; precommit_2; prevote_2;
                     precommit_3; proposal_3].

Definition findings : Findings := runRules_ascending store 3 11.

Definition proof_against_1 : Proof :=
  {| Proof_Rule := PN; Proof_Message := proposal_1;
     Proof_Evidence := [precommit_1] |}.

Definition proof_against_2 : Proof :=
  {| Proof_Rule := PVN; Proof_Message := prevote_2;
     Proof_Evidence := [precommit_2; proposal_1] |}.

Definition proof_against_3 : Proof :=
  {| Proof_Rule := PO; Proof_Message := proposal_3;
     Proof_Evidence := [precommit_3] |}.

Definition accusation_against_3 : Proof :=
  {| Proof_Rule := PO; Proof_Message := proposal_3; Proof_Evidence := [] |}.

(** A height without an offence: validator 1 proposes value 7 as new in
    round 0, validator 2 prevotes it and validator 3 precommits it. *)
Definition proposal_a := message MsgProposal 1 0 7 (-1).
Definition prevote_b := message MsgPrevote 2 0 7 0.
Definition precommit_c := message MsgPrecommit 3 0 7 0.

Definition quiet_store : MsgStore :=
  scenario.store_of [proposal_a; prevote_b; precommit_c].

Definition quiet_findings : Findings := runRules_ascending quiet_store 3 11.

Definition accusation_against_c : Proof :=
  {| Proof_Rule := C1; Proof_Message := precommit_c; Proof_Evidence := [] |}.

End example.

(** ** The findings that [runRules] can make

    [held ms height q m]: the store holds [m] at the height and [m]
    satisfies the query [q]. *)
Definition held (ms : MsgStore) (height : Z) (q : ConsensusMessage -> bool)
    (m : ConsensusMessage) : Prop :=
  q m = true /\ exists r c a, stored ms height r c a = Some m.

Inductive proof_of (ms : MsgStore) (quorum height : Z) : Proof -> Prop :=
  | proof_PN proposal precommits :
      held ms height q_proposalsNew proposal ->
      Get ms height (q_PN_precommits proposal) precommits ->
      precommits <> [] ->
      proof_of ms quorum height
        {| Proof_Rule := PN; Proof_Message := proposal;
           Proof_Evidence := precommits |}
  | proof_PO_at proposal precommits :
      held ms height q_proposalsOld proposal ->
      Get ms height (q_PO_precommits_at proposal) precommits ->
      precommits <> [] ->
      proof_of ms quorum height
        {| Proof_Rule := PO; Proof_Message := proposal;
           Proof_Evidence := precommits |}
  | proof_PO_after proposal precommits :
      held ms height q_proposalsOld proposal ->
      Get ms height (q_PO_precommits_after proposal) precommits ->
      precommits <> [] ->
      proof_of ms quorum height
        {| Proof_Rule := PO; Proof_Message := proposal;
           Proof_Evidence := precommits |}
  | proof_PVN prevote proposal precommits :
      held ms height q_prevotes prevote ->
      held ms height (q_proposal_for prevote) proposal ->
      ValidRound proposal = -1 ->
      Get ms height (q_PVN_precommits prevote) precommits ->
      precommits <> [] ->
      proof_of ms quorum height
        {| Proof_Rule := PVN; Proof_Message := prevote;
           Proof_Evidence := precommits ++ [proposal] |}
  | proof_C prevote proposal precommit proposal' prevotesForNotV :
      held ms height q_prevotes prevote ->
      held ms height (q_proposal_for prevote) proposal ->
      held ms height q_precommits precommit ->
      held ms height (q_proposal_for precommit) proposal' ->
      Get ms height (q_prevotesForNotV precommit) prevotesForNotV ->
      quorum <= powerOfVotes prevotesForNotV ->
      proof_of ms quorum height
        {| Proof_Rule := C; Proof_Message := precommit;
           Proof_Evidence := prevotesForNotV |}.

Inductive accusation_of (ms : MsgStore) (quorum height : Z) : Proof -> Prop :=
  | accusation_PO proposal prevotes :
      held ms height q_proposalsOld proposal ->
      Get ms height (q_PO_prevotes proposal) prevotes ->
      powerOfVotes prevotes < quorum ->
      accusation_of ms quorum height
        {| Proof_Rule := PO; Proof_Message := proposal; Proof_Evidence := [] |}
  | accusation_PVN prevote :
      held ms height q_prevotes prevote ->
      (forall m, ~ held ms height (q_proposal_for prevote) m) ->
      accusation_of ms quorum height
        {| Proof_Rule := PVN; Proof_Message := prevote; Proof_Evidence := [] |}
  | accusation_C prevote proposal precommit :
      held ms height q_prevotes prevote ->
      held ms height (q_proposal_for prevote) proposal ->
      held ms height q_precommits precommit ->
      (forall m, ~ held ms height (q_proposal_for precommit) m) ->
      accusation_of ms quorum height
        {| Proof_Rule := C; Proof_Message := precommit; Proof_Evidence := [] |}
  | accusation_C1 prevote proposal precommit proposal' prevotesForV :
      held ms height q_prevotes prevote ->
      held ms height (q_proposal_for prevote) proposal ->
      held ms height q_precommits precommit ->
      held ms height (q_proposal_for precommit) proposal' ->
      Get ms height (q_prevotesForV precommit) prevotesForV ->
      powerOfVotes prevotesForV < quorum ->
      accusation_of ms quorum height
        {| Proof_Rule := C1; Proof_Message := precommit; Proof_Evidence := [] |}.

(** All findings so far are of these kinds. *)
Definition findings_of (ms : MsgStore) (quorum height : Z) (f : Findings)
  : Prop :=
  Forall (proof_of ms quorum height) f.1 /\
  Forall (accusation_of ms quorum height) f.2.

(** ** [runRuleEngine]

    The loop that turns findings into on-chain proofs. A finding whose
    encoding fails is left out, after the line that [generateOnChainProof]
    logs and the line of the loop itself. *)
Fixpoint convert (chain : BlockChain) (findings : list Proof)
    (onChainProofs : list OnChainProof) (fd : FaultDetector)
  : list OnChainProof * FaultDetector :=
  match findings with
  | [] => (onChainProofs, fd)
  | x :: rest =>
      match generateOnChainProof chain (Proof_Message x) (Proof_Evidence x)
              (Proof_Rule x) with
      | (_, Some err) =>
          convert chain rest onChainProofs
            (log "convert proof to on-chain proof" err
               (log "fail to rlp encode raw proof" err fd))
      | (p, None) => convert chain rest (onChainProofs ++ [p]) fd
      end
  end.

(** One of the two blocks [if len(...) > 0] of [runRuleEngine]. *)
Definition send_findings (chain : BlockChain) (t : ProofType)
    (findings : list Proof) (fd : FaultDetector) : FaultDetector :=
  match findings with
  | [] => fd
  | _ =>
      let '(onChainProofs, fd) := convert chain findings [] fd in
      sendProofs t onChainProofs fd
  end.

(** [func (fd *FaultDetector) runRuleEngine(height uint64)] *)
Definition runRuleEngine (chain : BlockChain) (quorum : Z)
    (fd : FaultDetector) (height : Z) (fd' : FaultDetector) : Prop :=
  exists proofs accusations,
    runRules (msgStore fd) quorum height (proofs, accusations) /\
    fd' = send_findings chain AccusationProof accusations
            (send_findings chain ChallengeProof proofs fd).

(** The detector of the example with three offences, before the rule
    engine runs over height 11. *)
Definition detector : FaultDetector :=
  {| msgStore := example.store; futureMsgs := ∅; sent := []; logged := [] |}.

End rule_engine.

(* ===================================================================== *)
(** * The algorithm under its driver *)
(* ===================================================================== *)

Module rounds.
Import algorithm.

(** The bounds of Go's [int64]. *)
Definition MinInt64 : Z := - 2 ^ 63.
Definition MaxInt64 : Z := 2 ^ 63 - 1.

(** The states that the driver can bring an algorithm to: it makes it with
    [New], starts a first round, and from then on starts further rounds and
    delivers messages and timeouts. A [StartRound] that panics ends the
    program. *)
Inductive reachable : Algorithm -> Prop :=
  | reachable_first id o r a res :
      StartRound o r (New id) = (a, Returned res) -> reachable a
  | reachable_StartRound a o r a' res :
      reachable a -> StartRound o r a = (a', Returned res) -> reachable a'
  | reachable_exec a c :
      reachable a -> reachable (exec a c).1.

(** The order of the rounds of a state and the pairing of its rounds with
    values. *)
Definition locks_in_order (a : Algorithm) : Prop :=
  0 <= round a /\
  -1 <= lockedRound a <= validRound a /\ validRound a <= round a /\
  (lockedRound a = -1 -> lockedValue a = NilValue) /\
  (validRound a = -1 -> validValue a = NilValue).

(** An oracle whose store holds messages of round 5 from more than a third
    of the voting power, and nothing else of use. *)
Definition oracle_round_5 : Oracle :=
  {| Valid := fun _ => true;
     MatchingProposal := fun _ => None;
     PrevoteQThresh := fun _ _ => false;
     PrecommitQThresh := fun _ _ => false;
     FThresh := fun r => r =? 5;
     Proposer := fun _ _ => false;
     OracleHeight := 11;
     OracleValue := inl scenario.X |}.

End rounds.

(* ===================================================================== *)
(** * Properties of the Tendermint algorithm *)
(* ===================================================================== *)

Module algorithm_spec.
Import algorithm.

(** Reading a guard of [upon] back from the branch it selected. *)
Ltac upon_inv Hu :=
  unfold upon in Hu;
  repeat match type of Hu with
         | (if ?b then _ else _) = _ =>
             let E := fresh "E" in destruct b eqn:E; try discriminate Hu
         end;
  repeat match goal with
         | H : _ && _ = true |- _ =>
             let H1 := fresh H in apply andb_prop in H as [H H1]
         end.

Lemma upon_Line28 o a cm :
  upon o a cm = Line28 -> is_Some (MatchingProposal o cm).
Proof.
  intros Hu. upon_inv Hu.
  destruct (MatchingProposal o cm); [eauto | discriminate].
Qed.

Lemma upon_Line36 o a cm :
  upon o a cm = Line36 ->
  line36Executed a = false /\ is_Some (MatchingProposal o cm).
Proof.
  intros Hu. upon_inv Hu.
  destruct (MatchingProposal o cm); [|discriminate].
  upon_inv Hu. split; [by apply negb_true_iff | eauto].
Qed.

Lemma upon_Line34 o a cm : upon o a cm = Line34 -> line34Executed a = false.
Proof. intros Hu. upon_inv Hu. by apply negb_true_iff. Qed.

Lemma upon_Line49 o a cm :
  upon o a cm = Line49 -> is_Some (MatchingProposal o cm).
Proof.
  intros Hu. upon_inv Hu.
  destruct (MatchingProposal o cm); [eauto | discriminate].
Qed.

Lemma upon_Line47 o a cm : upon o a cm = Line47 -> line47Executed a = false.
Proof. intros Hu. upon_inv Hu. by apply negb_true_iff. Qed.

(** [ReceiveMessage] sets a latch exactly when it runs the block of that
    latch, and never clears one. *)
Lemma ReceiveMessage_latches o a cm :
  let a' := (ReceiveMessage o a cm).1 in
  line34Executed a' = line34Executed a || Upon_eqb Line34 (upon o a cm) /\
  line36Executed a' = line36Executed a || Upon_eqb Line36 (upon o a cm) /\
  line47Executed a' = line47Executed a || Upon_eqb Line47 (upon o a cm).
Proof.
  unfold ReceiveMessage.
  destruct (upon o a cm) eqn:Hu; cbn [Upon_eqb];
    rewrite ?orb_false_r, ?orb_true_r.
  - by destruct (_ || _).
  - destruct (upon_Line28 _ _ _ Hu) as [p ->]. by destruct (_ && _).
  - destruct (upon_Line36 _ _ _ Hu) as [_ [p ->]].
    by destruct (Step_eqb _ _).
  - done.
  - done.
  - destruct (upon_Line49 _ _ _ Hu) as [p ->]. by destruct (Valid _ _).
  - done.
  - done.
  - by destruct (MatchingProposal o cm).
Qed.

(** The same for any call of a run; the timeout handlers touch no latch. *)
Lemma exec_latches a c :
  let a' := (exec a c).1 in
  let out := (exec a c).2 in
  line34Executed a' = line34Executed a || is_fired Line34 out /\
  line36Executed a' = line36Executed a || is_fired Line36 out /\
  line47Executed a' = line47Executed a || is_fired Line47 out.
Proof.
  destruct c as [o cm|o h r|o h r|o h r]; cbn [exec].
  - pose proof (ReceiveMessage_latches o a cm) as H.
    destruct (ReceiveMessage o a cm) as [a' res]. exact H.
  - unfold OnTimeoutPropose. destruct (_ && _); cbn; by rewrite !orb_false_r.
  - unfold OnTimeoutPrevote. destruct (_ && _); cbn; by rewrite !orb_false_r.
  - cbn. by rewrite !orb_false_r.
Qed.

Lemma exec_fired_latch_clear a c :
  let out := (exec a c).2 in
  (is_fired Line34 out = true -> line34Executed a = false) /\
  (is_fired Line36 out = true -> line36Executed a = false) /\
  (is_fired Line47 out = true -> line47Executed a = false).
Proof.
  destruct c as [o cm|o h r|o h r|o h r]; cbn [exec].
  - destruct (ReceiveMessage o a cm) as [a' res]. cbn [snd is_fired].
    destruct (upon o a cm) eqn:Hu; cbn [Upon_eqb]; repeat split; try done.
    + intros _. by apply upon_Line36 in Hu as [? _].
    + intros _. by apply upon_Line34 in Hu.
    + intros _. by apply upon_Line47 in Hu.
  - destruct (OnTimeoutPropose o a h r). by cbn.
  - destruct (OnTimeoutPrevote o a h r). by cbn.
  - by cbn.
Qed.

Lemma run_cons a c calls :
  run a (c :: calls) =
  ((run (exec a c).1 calls).1, (exec a c).2 :: (run (exec a c).1 calls).2).
Proof.
  cbn [run]. destruct (exec a c) as [a' out]. cbn [fst snd].
  by destruct (run a' calls).
Qed.

(** A block guarded by a latch that it sets, and that nothing in the run
    clears, runs at most once, and not at all once the latch is set. *)
Lemma run_fired_bound (L : Algorithm -> bool) (u : Upon) :
  (forall a c, L (exec a c).1 = L a || is_fired u (exec a c).2) ->
  (forall a c, is_fired u (exec a c).2 = true -> L a = false) ->
  forall calls a, (fired u (run a calls).2 <= (if L a then 0 else 1))%nat.
Proof.
  intros Hset Hclear. unfold fired.
  induction calls as [|c calls IH]; intros a.
  - cbn. destruct (L a); lia.
  - rewrite run_cons. cbn [snd List.filter].
    specialize (IH (exec a c).1). rewrite Hset in IH.
    destruct (is_fired u (exec a c).2) eqn:Hf.
    + rewrite (Hclear _ _ Hf) in *. cbn in *. lia.
    + rewrite orb_false_r in IH. exact IH.
Qed.

(** What the driver can observe identifies the block that ran: only line
    34 hands back a prevote timeout, only line 47 a precommit timeout, and
    only line 36 a precommit for a value other than nil. *)
Lemma exec_observable a c :
  let out := (exec a c).2 in
  (is_scheduled Prevote out = true -> is_fired Line34 out = true) /\
  (is_scheduled Precommit out = true -> is_fired Line47 out = true) /\
  (is_value_precommit out = true -> is_fired Line36 out = true).
Proof.
  destruct c as [o cm|o h r|o h r|o h r]; cbn [exec].
  - unfold ReceiveMessage.
    destruct (upon o a cm) eqn:Hu.
    + destruct (_ || _); cbn; repeat split; done.
    + destruct (upon_Line28 _ _ _ Hu) as [p ->].
      destruct (_ && _); cbn; repeat split; done.
    + destruct (upon_Line36 _ _ _ Hu) as [_ [p ->]]. cbn; repeat split; done.
    + cbn; repeat split; done.
    + cbn; repeat split; done.
    + destruct (upon_Line49 _ _ _ Hu) as [p ->]. cbn; repeat split; done.
    + cbn; repeat split; done.
    + cbn; repeat split; done.
    + destruct (MatchingProposal o cm); cbn; repeat split; done.
  - unfold OnTimeoutPropose. destruct (_ && _); cbn; repeat split; done.
  - unfold OnTimeoutPrevote. destruct (_ && _); cbn; repeat split; done.
  - cbn; repeat split; done.
Qed.

Lemma run_count_le (f g : Output -> bool) :
  (forall a c, f (exec a c).2 = true -> g (exec a c).2 = true) ->
  forall calls a,
    (length (List.filter f (run a calls).2)
     <= length (List.filter g (run a calls).2))%nat.
Proof.
  intros Hfg. induction calls as [|c calls IH]; intros a; [done|].
  rewrite run_cons. cbn [snd List.filter].
  specialize (IH (exec a c).1). specialize (Hfg a c).
  destruct (f (exec a c).2); [rewrite Hfg by done|destruct (g (exec a c).2)];
    cbn [length]; lia.
Qed.

(** [StartRound] either panics or clears the three latches. *)
Lemma StartRound_resets o r a a' res :
  StartRound o r a = (a', Returned res) ->
  line34Executed a' = false /\ line36Executed a' = false /\
  line47Executed a' = false.
Proof.
  unfold StartRound. destruct (r <=? round a)%Z; [done|].
  cbn. destruct (Proposer _ _ _); [|by intros [= <- _]].
  destruct (negb _); [by intros [= <- _]|].
  destruct (OracleValue o); by intros [= <- _].
Qed.

(** C8. Between two consecutive [StartRound] calls, however many messages
    and timeouts the driver delivers and whatever the oracle answers, the
    blocks of line 36, line 34 and line 47 each run at most once; so at most
    one precommit for a value, one prevote timeout and one precommit timeout
    are handed back. *)
Theorem latched_lines_fire_at_most_once o r a a' res calls :
  StartRound o r a = (a', Returned res) ->
  let outs := (run a' calls).2 in
  (fired Line36 outs <= 1 /\ fired Line34 outs <= 1 /\ fired Line47 outs <= 1 /\
   precommitted outs <= 1 /\ scheduled Prevote outs <= 1 /\
   scheduled Precommit outs <= 1)%nat.
Proof.
  intros Hstart outs. subst outs.
  destruct (StartRound_resets _ _ _ _ _ Hstart) as (H34 & H36 & H47).
  assert (B36 : (fired Line36 (run a' calls).2 <= 1)%nat).
  { pose proof (run_fired_bound line36Executed Line36
      (fun a c => proj1 (proj2 (exec_latches a c)))
      (fun a c => proj1 (proj2 (exec_fired_latch_clear a c))) calls a') as B.
    by rewrite H36 in B. }
  assert (B34 : (fired Line34 (run a' calls).2 <= 1)%nat).
  { pose proof (run_fired_bound line34Executed Line34
      (fun a c => proj1 (exec_latches a c))
      (fun a c => proj1 (exec_fired_latch_clear a c)) calls a') as B.
    by rewrite H34 in B. }
  assert (B47 : (fired Line47 (run a' calls).2 <= 1)%nat).
  { pose proof (run_fired_bound line47Executed Line47
      (fun a c => proj2 (proj2 (exec_latches a c)))
      (fun a c => proj2 (proj2 (exec_fired_latch_clear a c))) calls a') as B.
    by rewrite H47 in B. }
  pose proof (run_count_le is_value_precommit (is_fired Line36)
    (fun a c => proj2 (proj2 (exec_observable a c))) calls a') as P36.
  pose proof (run_count_le (is_scheduled Prevote) (is_fired Line34)
    (fun a c => proj1 (exec_observable a c)) calls a') as P34.
  pose proof (run_count_le (is_scheduled Precommit) (is_fired Line47)
    (fun a c => proj1 (proj2 (exec_observable a c))) calls a') as P47.
  unfold fired, precommitted, scheduled in *. lia.
Qed.

Lemma latched_lines_fire_at_most_once_witness :
  StartRound (scenario.oracle true 0) 0 (New 1)
    = (scenario.started, Returned (None, Some (timeout (scenario.oracle true 0) scenario.started Propose), None)) /\
  let outs := (run scenario.started scenario.busy_round).2 in
  (fired Line36 outs <= 1 /\ fired Line34 outs <= 1 /\ fired Line47 outs <= 1 /\
   precommitted outs <= 1 /\ scheduled Prevote outs <= 1 /\
   scheduled Precommit outs <= 1)%nat.
Proof.
  split; [reflexivity|].
  apply (latched_lines_fire_at_most_once (scenario.oracle true 0) 0 (New 1)
           scenario.started
           (None, Some (timeout (scenario.oracle true 0) scenario.started Propose), None)
           scenario.busy_round).
  reflexivity.
Defined.

(** The bound is reached: in [busy_round] each latched block runs once,
    although every qualifying message arrives twice. *)
Example busy_round_fires_each_once :
  let outs := (run scenario.started scenario.busy_round).2 in
  (fired Line36 outs = 1 /\ fired Line34 outs = 1 /\ fired Line47 outs = 1 /\
   precommitted outs = 1 /\ scheduled Prevote outs = 1 /\
   scheduled Precommit outs = 1)%nat.
Proof. vm_compute. repeat split. Qed.

(** C9. [StartRound r] requires [r] to exceed the current round: with
    [r <= round] it panics with the diagnostic and leaves the state as it
    was; with [r > round] it returns, in round [r] and step propose. A
    fresh algorithm is at round -1, so [StartRound 0] returns. *)
Theorem StartRound_precondition o a r :
  (r <= round a ->
     StartRound o r a = (a, Panicked (PanicNewRound (round a) r))) /\
  (round a < r ->
     exists a' res, StartRound o r a = (a', Returned res) /\
                    round a' = r /\ step a' = Propose) /\
  (forall id, round (New id) = -1 /\
     exists a' res, StartRound o 0 (New id) = (a', Returned res)).
Proof.
  assert (Hret : forall b, round b < r ->
     exists a' res, StartRound o r b = (a', Returned res) /\
                    round a' = r /\ step a' = Propose).
  { intros b Hlt. unfold StartRound.
    destruct (Z.leb_spec r (round b)) as [Hle|_]; [lia|].
    cbn. destruct (Proposer _ _ _); [|by eauto].
    destruct (negb _); [by eauto|].
    destruct (OracleValue o); by eauto. }
  repeat split.
  - intros Hle. unfold StartRound.
    by destruct (Z.leb_spec r (round a)) as [_|Hlt]; [|lia].
  - apply Hret.
  - unfold StartRound. cbn.
    destruct (Proposer _ _ _); [|by eauto].
    destruct (OracleValue o); by eauto.
Qed.

Lemma StartRound_precondition_witness :
  StartRound (scenario.oracle true 0) 0 scenario.started
    = (scenario.started, Panicked (PanicNewRound 0 0)) /\
  exists a' res,
    StartRound (scenario.oracle true 0) 1 scenario.started = (a', Returned res) /\
    round a' = 1 /\ step a' = Propose.
Proof.
  split.
  - apply (proj1 (StartRound_precondition (scenario.oracle true 0)
                    scenario.started 0)).
    cbn. lia.
  - apply (proj1 (proj2 (StartRound_precondition (scenario.oracle true 0)
                    scenario.started 1))).
    cbn. lia.
Defined.

(** [ReceiveMessage] hands back a round change only from the block of
    line 49, as the decision for the matching proposal with round 0, or
    from the block of line 55, as a skip to the message's round without a
    decision. *)
Lemma ReceiveMessage_RoundChange o a cm a' rc m t :
  ReceiveMessage o a cm = (a', (Some rc, m, t)) ->
  (upon o a cm = Line49 /\ RoundChangeRound rc = 0 /\
   is_Some (Decision rc) /\ Decision rc = MatchingProposal o cm) \/
  (upon o a cm = Line55 /\ RoundChangeRound rc = Round cm /\
   Decision rc = None).
Proof.
  unfold ReceiveMessage.
  destruct (upon o a cm) eqn:Hu.
  - by destruct (_ || _).
  - destruct (upon_Line28 _ _ _ Hu) as [p ->]. by destruct (_ && _).
  - by destruct (upon_Line36 _ _ _ Hu) as [_ [p ->]].
  - done.
  - done.
  - destruct (upon_Line49 _ _ _ Hu) as [p ->].
    intros [= _ <- _ _]. left. cbn. eauto.
  - done.
  - intros [= _ <- _ _]. right. by cbn.
  - by destruct (MatchingProposal o cm).
Qed.

(** C10. A round change that carries a decision has round 0; the round
    changes of the round-skip rule (line 55) and of the precommit timeout
    carry no decision. *)
Theorem RoundChange_decision_has_round_0 o a cm a' rc m t h r rc' :
  (ReceiveMessage o a cm = (a', (Some rc, m, t)) ->
     (Decision rc <> None -> RoundChangeRound rc = 0) /\
     (upon o a cm = Line55 -> Decision rc = None)) /\
  (OnTimeoutPrecommit o a h r = Some rc' -> Decision rc' = None).
Proof.
  split.
  - intros Hrm.
    destruct (ReceiveMessage_RoundChange _ _ _ _ _ _ _ Hrm)
      as [(Hu & Hr & _ & _)|(Hu & _ & Hd)].
    + split; [done|]. intros Hu'. congruence.
    + split; [|done]. intros Hne. congruence.
  - unfold OnTimeoutPrecommit. destruct (_ && _); [|done].
    by intros [= <-].
Qed.

Lemma RoundChange_decision_has_round_0_witness :
  let rc := {| RoundChangeRound := 0; Decision := Some (scenario.proposal 0) |} in
  let rc' := {| RoundChangeRound := 1; Decision := None |} in
  ((Decision rc <> None -> RoundChangeRound rc = 0) /\
   (upon scenario.oracle_precommit_quorum scenario.started
      (scenario.precommit 0 scenario.X) = Line55 -> Decision rc = None)) /\
  Decision rc' = None.
Proof.
  intros rc rc'.
  pose proof (RoundChange_decision_has_round_0
                scenario.oracle_precommit_quorum scenario.started
                (scenario.precommit 0 scenario.X) scenario.started
                rc None None 11 0 rc') as [H1 H2].
  split; [apply H1|apply H2]; reflexivity.
Defined.

(** The block of line 22 prevotes for the proposed value exactly when the
    condition of the source holds; [&&] binds tighter than [||] in Go. *)
Lemma ReceiveMessage_Line22 o a cm :
  upon o a cm = Line22 ->
  ReceiveMessage o a cm =
    (set_step Prevote a,
     (None,
      Some {| MsgType := Prevote; Height := OracleHeight o; Round := round a;
              Value := if Valid o (Value cm) && (lockedRound a =? -1)
                          || (lockedValue a =? Value cm)
                       then Value cm else NilValue;
              ValidRound := 0 |},
      None)).
Proof.
  intros Hu. unfold ReceiveMessage. rewrite Hu.
  cbn [set_step lockedRound lockedValue].
  by destruct (_ || _).
Qed.

(** C2, at an input where the code and the claim differ. Node 1 prevoted
    and then precommitted [X] in round 0, so it is locked on [X]; in round
    1 the proposer proposes [X] again with valid round -1, and the block
    verifier now rejects [X]. Line 22 applies and the node prevotes for [X],
    not for nil: the source tests
    [(Valid(v) && lockedRound == -1) || lockedValue == v]. *)
Theorem Line22_prevotes_invalid_locked_value :
  let o := scenario.oracle false 1 in
  let a := scenario.lock_on_X (New 1) in
  let m := scenario.proposal 1 in
  a = scenario.locked_on_X /\
  MsgType m = Propose /\ Round m = round a /\ ValidRound m = -1 /\
  step a = Propose /\
  (Valid o (Value m) && ((lockedRound a =? -1) || (lockedValue a =? Value m))
     = false) /\
  ReceiveMessage o a m =
    (set_step Prevote a, (None, Some (scenario.prevote 1 scenario.X), None)).
Proof. vm_compute. repeat split. Qed.

End algorithm_spec.

(* ===================================================================== *)
(** * Properties of the message store *)
(* ===================================================================== *)

Module store_spec.
Import types afd.

Lemma stored_default ms h r c a :
  stored ms h r c a
  = default ∅ (default ∅ (default ∅ (messages ms !! h) !! r) !! c) !! a.
Proof.
  unfold stored.
  destruct (messages ms !! h) as [rm|]; cbn; [|done].
  destruct (rm !! r) as [tm|]; cbn; [|done].
  by destruct (tm !! c) as [am|]; cbn.
Qed.

(** When a message is stored at a key, the maps on the way to it exist, so
    linking them in again changes nothing. *)
Lemma relink_id ms h r c a msg :
  stored ms h r c a = Some msg ->
  let roundMap := default ∅ (messages ms !! h) in
  let msgTypeMap := default ∅ (roundMap !! r) in
  let addressMap := default ∅ (msgTypeMap !! c) in
  {| messages := <[h := <[r := <[c := addressMap]> msgTypeMap]> roundMap]>
                   (messages ms) |} = ms.
Proof.
  unfold stored. destruct ms as [mm]. cbn.
  destruct (mm !! h) as [rm|] eqn:Hh; [|done].
  destruct (rm !! r) as [tm|] eqn:Hr; [|done].
  destruct (tm !! c) as [am|] eqn:Hc; [|done].
  intros _. cbn. rewrite ?Hh; cbn. rewrite Hr; cbn. rewrite Hc; cbn. f_equal.
  rewrite (insert_id tm c am) by done.
  rewrite (insert_id rm r tm) by done.
  by rewrite (insert_id mm h rm).
Qed.

(** Linking an address map in makes it the one found at its key and
    leaves every other key as it was. *)
Lemma stored_link ms h r c am h' r' c' a' :
  let roundMap := default ∅ (messages ms !! h) in
  let msgTypeMap := default ∅ (roundMap !! r) in
  stored {| messages := <[h := <[r := <[c := am]> msgTypeMap]> roundMap]>
                          (messages ms) |} h' r' c' a'
  = if decide (h' = h /\ r' = r /\ c' = c) then am !! a'
    else stored ms h' r' c' a'.
Proof.
  cbn. rewrite !stored_default. cbn.
  destruct (decide (h' = h)) as [->|Hh].
  - rewrite lookup_insert_eq. cbn.
    destruct (decide (r' = r)) as [->|Hr].
    + rewrite lookup_insert_eq. cbn.
      destruct (decide (c' = c)) as [->|Hc].
      * rewrite lookup_insert_eq. cbn. by rewrite decide_True.
      * rewrite lookup_insert_ne by done. rewrite decide_False by (intros (?&?&?); done).
        done.
    + rewrite lookup_insert_ne by done. rewrite decide_False by (intros (?&?&?); done).
      done.
  - rewrite lookup_insert_ne by done. rewrite decide_False by (intros (?&?&?); done).
    done.
Qed.

(** C6. [Save m] looks at the key (height, round, type, sender) of [m].
    With nothing stored there it stores [m], touching no other key, and
    returns (nil, nil). With a message of the same payload hash stored
    there it leaves the store as it is and returns (nil, nil). With a
    message of another payload hash stored there it leaves the store as it
    is, so the first message stays, and returns that message with
    [errEquivocation]. Saving [m] a second time leaves the store as the
    first save left it, and returns (nil, nil) whenever the first save did,
    that is, unless [m] equivocates. *)
Theorem Save_keeps_first_message RLPHash ms m :
  let prior := stored ms (H m) (R m) (Code m) (Address m) in
  let ms' := (Save RLPHash ms m).1 in
  (prior = None ->
     (Save RLPHash ms m).2 = (None, None) /\
     forall h r c a,
       stored ms' h r c a
       = if decide (h = H m /\ r = R m /\ c = Code m /\ a = Address m)
         then Some m else stored ms h r c a) /\
  (forall msg, prior = Some msg ->
     RLPHash (Payload msg) = RLPHash (Payload m) ->
     Save RLPHash ms m = (ms, (None, None))) /\
  (forall msg, prior = Some msg ->
     RLPHash (Payload msg) <> RLPHash (Payload m) ->
     Save RLPHash ms m = (ms, (Some msg, Some errEquivocation))) /\
  (Save RLPHash ms' m).1 = ms' /\
  ((Save RLPHash ms m).2 = (None, None) ->
     Save RLPHash ms' m = (ms', (None, None))).
Proof.
  intros prior ms'.
  assert (Hsome : forall msg, prior = Some msg ->
    Save RLPHash ms m
    = (ms, if negb (RLPHash (Payload msg) =? RLPHash (Payload m))
           then (Some msg, Some errEquivocation) else (None, None))).
  { intros msg Hp. subst prior. unfold Save.
    pose proof Hp as Hp'. rewrite stored_default in Hp'. rewrite Hp'.
    rewrite (relink_id _ _ _ _ _ _ Hp). by destruct (negb _). }
  assert (Hnone : prior = None ->
     (Save RLPHash ms m).2 = (None, None) /\
     forall h r c a,
       stored ms' h r c a
       = if decide (h = H m /\ r = R m /\ c = Code m /\ a = Address m)
         then Some m else stored ms h r c a).
  { intros Hp. subst prior ms'. unfold Save.
    pose proof Hp as Hp'. rewrite stored_default in Hp'. rewrite Hp'.
    split; [done|]. intros h r c a. cbn [fst]. rewrite stored_link.
    destruct (decide (h = H m /\ r = R m /\ c = Code m)) as [(-> & -> & ->)|Hk].
    - destruct (decide (a = Address m)) as [->|Ha].
      + rewrite lookup_insert_eq. by rewrite decide_True.
      + rewrite lookup_insert_ne by done.
        rewrite decide_False by (intros (?&?&?&?); done).
        by rewrite stored_default.
    - rewrite decide_False; [done|]. intros (?&?&?&?). by apply Hk. }
  assert (Hagain : forall h r c a, stored ms h r c a = None ->
    h = H m -> r = R m -> c = Code m -> a = Address m ->
    Save RLPHash ms' m = (ms', (None, None))).
  { intros h r c a Hp -> -> -> ->. fold prior in Hp.
    destruct (Hnone Hp) as [_ Hst].
    specialize (Hst (H m) (R m) (Code m) (Address m)).
    rewrite decide_True in Hst by done.
    unfold Save at 1.
    pose proof Hst as Hst'. rewrite stored_default in Hst'. rewrite Hst'.
    rewrite (relink_id _ _ _ _ _ _ Hst). by rewrite Z.eqb_refl. }
  split; [exact Hnone|]. split; [|split; [|split]].
  - intros msg Hp Heq. rewrite (Hsome _ Hp).
    by rewrite (proj2 (Z.eqb_eq _ _) Heq).
  - intros msg Hp Hne. rewrite (Hsome _ Hp).
    by rewrite (proj2 (Z.eqb_neq _ _) Hne).
  - destruct prior as [msg|] eqn:Hp.
    + assert (Hms : ms' = ms) by (subst ms'; by rewrite (Hsome _ eq_refl)).
      rewrite Hms. by rewrite (Hsome _ eq_refl).
    + by rewrite (Hagain _ _ _ _ Hp eq_refl eq_refl eq_refl eq_refl).
  - destruct prior as [msg|] eqn:Hp.
    + assert (Hms : ms' = ms) by (subst ms'; by rewrite (Hsome _ eq_refl)).
      rewrite Hms, (Hsome _ eq_refl). cbn [snd].
      by destruct (negb _).
    + intros _. exact (Hagain _ _ _ _ Hp eq_refl eq_refl eq_refl eq_refl).
Qed.


Lemma Save_keeps_first_message_witness :
  let ms := scenario.store_of [scenario.prevote_r0_s1] in
  (Save scenario.positional_hash newMsgStore scenario.prevote_r0_s1).2
    = (None, None) /\
  Save scenario.positional_hash ms scenario.prevote_r0_s1
    = (ms, (None, None)) /\
  Save scenario.positional_hash ms scenario.prevote_r0_s1'
    = (ms, (Some scenario.prevote_r0_s1, Some errEquivocation)).
Proof.
  intros ms.
  pose proof (Save_keeps_first_message scenario.positional_hash newMsgStore
                scenario.prevote_r0_s1) as (Hnew & _).
  pose proof (Save_keeps_first_message scenario.positional_hash ms
                scenario.prevote_r0_s1) as (_ & Hsame & _).
  pose proof (Save_keeps_first_message scenario.positional_hash ms
                scenario.prevote_r0_s1') as (_ & _ & Hother & _).
  split; [|split].
  - apply Hnew. reflexivity.
  - apply (Hsame scenario.prevote_r0_s1); reflexivity.
  - apply (Hother scenario.prevote_r0_s1); [reflexivity|].
    vm_compute. discriminate.
Defined.

(** ** [Get] and the order of Go's map iteration *)

#[local] Instance key_le_total {V : Type} : Total (@key_le V).
Proof. intros kv1 kv2. unfold key_le. lia. Qed.

Lemma ascending_Sorted {V : Type} (m : gmap Z V) : Sorted key_le (ascending m).
Proof. apply Sorted_merge_sort, _. Qed.

Lemma ascending_Permutation {V : Type} (m : gmap Z V) :
  ascending m ≡ₚ map_to_list m.
Proof. apply merge_sort_Permutation. Qed.

Lemma flat_map_Permutation {A B : Type} (f g : A -> list B) l1 l2 :
  (forall x, f x ≡ₚ g x) -> l1 ≡ₚ l2 -> flat_map f l1 ≡ₚ flat_map g l2.
Proof.
  intros Hfg Hl. trans (flat_map g l1).
  - clear Hl. induction l1 as [|x l IH]; [done|]. cbn. by rewrite Hfg, IH.
  - clear Hfg. induction Hl as [|x l1' l2' _ IH|x y l|l1' l2' l3' _ IH1 _ IH2].
    + done.
    + cbn. by rewrite IH.
    + cbn. rewrite !app_assoc. f_equiv. apply Permutation_app_comm.
    + by rewrite IH1.
Qed.

(** A loop whose body appends [c x] to the result appends the
    contributions of the entries, in the order visited. *)
Lemma for_each_appends {A B : Type} (body : A -> list B -> list B -> Prop)
    (c : A -> list B) entries :
  (forall x s, body x s (s ++ c x)) ->
  forall s, for_each body entries s (s ++ flat_map c entries).
Proof.
  intros Hbody. induction entries as [|x entries IH]; intros s; cbn.
  - by rewrite app_nil_r.
  - exists (s ++ c x). split; [apply Hbody|].
    rewrite app_assoc. apply IH.
Qed.

(** A loop whose body appends some arrangement of [c x] to the result
    appends an arrangement of the contributions of the entries. *)
Lemma for_each_appended {A B : Type} (body : A -> list B -> list B -> Prop)
    (c : A -> list B) entries :
  (forall x s s', body x s s' -> exists e, e ≡ₚ c x /\ s' = s ++ e) ->
  forall s s', for_each body entries s s' ->
    exists e, e ≡ₚ flat_map c entries /\ s' = s ++ e.
Proof.
  intros Hbody. induction entries as [|x entries IH]; intros s s'; cbn.
  - intros ->. exists []. by rewrite app_nil_r.
  - intros (s1 & Hx & Hrest).
    destruct (Hbody _ _ _ Hx) as (e1 & He1 & ->).
    destruct (IH _ _ Hrest) as (e2 & He2 & ->).
    exists (e1 ++ e2). split; [by rewrite He1, He2|by rewrite app_assoc].
Qed.

Lemma range_appends {V B : Type} (m : gmap Z V)
    (body : Z -> V -> list B -> list B -> Prop) (c : Z * V -> list B) entries :
  entries ≡ₚ map_to_list m ->
  (forall kv s, body kv.1 kv.2 s (s ++ c kv)) ->
  forall s, range m body s (s ++ flat_map c entries).
Proof.
  intros Hperm Hbody s. exists entries. split; [done|].
  by apply (for_each_appends (fun kv => body kv.1 kv.2)).
Qed.

Lemma range_appended {V B : Type} (m : gmap Z V)
    (body : Z -> V -> list B -> list B -> Prop) (c : Z * V -> list B) :
  (forall kv s s', body kv.1 kv.2 s s' -> exists e, e ≡ₚ c kv /\ s' = s ++ e) ->
  forall s s', range m body s s' ->
    exists e, e ≡ₚ flat_map c (ascending m) /\ s' = s ++ e.
Proof.
  intros Hbody s s' (entries & Hperm & Hloop).
  destruct (for_each_appended (fun kv => body kv.1 kv.2) c entries Hbody
              _ _ Hloop) as (e & He & ->).
  exists e. split; [|done]. rewrite He.
  apply flat_map_Permutation; [done|]. by rewrite ascending_Permutation.
Qed.

Lemma senders_loop_ascending query addressMap s :
  senders_loop query addressMap s (s ++ scan_senders query addressMap).
Proof.
  apply (range_appends addressMap _
           (fun am => if query am.2 then [am.2] else [])).
  - apply ascending_Permutation.
  - intros [a m] r. cbn. destruct (query m); [done|by rewrite app_nil_r].
Qed.

Lemma senders_loop_Permutation query addressMap s s' :
  senders_loop query addressMap s s' ->
  exists e, e ≡ₚ scan_senders query addressMap /\ s' = s ++ e.
Proof.
  apply (range_appended addressMap _
           (fun am => if query am.2 then [am.2] else [])).
  intros [a m] r r'. cbn. intros ->.
  destruct (query m); [by exists [m]|exists []; by rewrite app_nil_r].
Qed.

Lemma types_loop_ascending query msgTypeMap s :
  types_loop query msgTypeMap s (s ++ scan_types query msgTypeMap).
Proof.
  apply (range_appends msgTypeMap _ (fun ta => scan_senders query ta.2)).
  - apply ascending_Permutation.
  - intros [c am] r. apply senders_loop_ascending.
Qed.

Lemma types_loop_Permutation query msgTypeMap s s' :
  types_loop query msgTypeMap s s' ->
  exists e, e ≡ₚ scan_types query msgTypeMap /\ s' = s ++ e.
Proof.
  apply (range_appended msgTypeMap _ (fun ta => scan_senders query ta.2)).
  intros [c am] r r'. apply senders_loop_Permutation.
Qed.

(** Whatever order the loop over the rounds takes, [Get] may return the
    rounds' messages in that order. *)
Lemma Get_in_order_of_rounds ms height query roundMap rounds :
  messages ms !! height = Some roundMap ->
  rounds ≡ₚ map_to_list roundMap ->
  Get ms height query (flat_map (fun rm => scan_types query rm.2) rounds).
Proof.
  intros Hh Hperm. unfold Get. rewrite Hh.
  apply (range_appends roundMap _ (fun rm => scan_types query rm.2) rounds
           Hperm).
  intros [r tm] s. apply types_loop_ascending.
Qed.

Lemma elem_of_ascending {V : Type} (m : gmap Z V) k v :
  (k, v) ∈ ascending m <-> m !! k = Some v.
Proof. by rewrite ascending_Permutation, elem_of_map_to_list. Qed.

Lemma elem_of_flat_map {A B : Type} (f : A -> list B) l y :
  y ∈ flat_map f l <-> exists x, x ∈ l /\ y ∈ f x.
Proof.
  rewrite list_elem_of_In, in_flat_map.
  split; intros (x & Hx & Hy); exists x; by rewrite ?list_elem_of_In in *.
Qed.

(** The ascending scan returns the stored messages of the height that
    satisfy the query. *)
Lemma elem_of_Get_ascending ms height query m :
  m ∈ Get_ascending ms height query <->
  query m = true /\ exists r c a, stored ms height r c a = Some m.
Proof.
  unfold Get_ascending, stored.
  destruct (messages ms !! height) as [roundMap|].
  2:{ split; [by intros ?%elem_of_nil|by intros (_ & ? & ? & ? & ?)]. }
  unfold scan_types, scan_senders. split.
  - intros ([r tm] & Hr & ([c am] & Hc & ([a m'] & Ha & Hm)%elem_of_flat_map)
              %elem_of_flat_map)%elem_of_flat_map.
    cbn in *. apply elem_of_ascending in Hr, Hc, Ha.
    destruct (query m') eqn:Hq; [|by apply elem_of_nil in Hm].
    apply list_elem_of_singleton in Hm as ->.
    split; [done|]. exists r, c, a. by rewrite Hr, Hc.
  - intros (Hq & r & c & a & Hst).
    destruct (roundMap !! r) as [tm|] eqn:Hr; [|done].
    destruct (tm !! c) as [am|] eqn:Hc; [|done].
    apply elem_of_flat_map. exists (r, tm).
    split; [by apply elem_of_ascending|].
    apply elem_of_flat_map. exists (c, am).
    split; [by apply elem_of_ascending|].
    apply elem_of_flat_map. exists (a, m).
    split; [by apply elem_of_ascending|].
    cbn. rewrite Hq. by apply list_elem_of_singleton.
Qed.

(** C7, as the code has it. [Get height query] returns copies of exactly
    the stored messages of the height that satisfy the query, in the order
    in which Go's map iteration happens to visit rounds, message types and
    senders: the scan in ascending (round, type, sender) order is one
    possible result, and every result is a rearrangement of it. *)
Theorem Get_returns_matching_in_some_order ms height query :
  Get ms height query (Get_ascending ms height query) /\
  forall result, Get ms height query result ->
    result ≡ₚ Get_ascending ms height query /\
    forall m, m ∈ result <->
      query m = true /\ exists r c a, stored ms height r c a = Some m.
Proof.
  split.
  - unfold Get_ascending.
    destruct (messages ms !! height) as [roundMap|] eqn:Hh.
    + eapply Get_in_order_of_rounds; [done|apply ascending_Permutation].
    + unfold Get. by rewrite Hh.
  - intros result Hget.
    assert (Hperm : result ≡ₚ Get_ascending ms height query).
    { unfold Get, Get_ascending in *.
      destruct (messages ms !! height) as [roundMap|]; [|by subst].
      destruct (range_appended roundMap _ (fun rm => scan_types query rm.2)
                  (fun kv s s' => types_loop_Permutation query kv.2 s s')
                  _ _ Hget) as (e & He & ->).
      done. }
    split; [done|]. intros m. rewrite Hperm. apply elem_of_Get_ascending.
Qed.

Lemma Get_returns_matching_in_some_order_witness :
  let ms := scenario.two_rounds in
  let result := [scenario.prevote_r1_s1; scenario.prevote_r0_s1] in
  Get ms 11 (fun _ => true) result /\
  result ≡ₚ Get_ascending ms 11 (fun _ => true).
Proof.
  intros ms result.
  assert (Hget : Get ms 11 (fun _ => true) result).
  { refine (eq_rect _ (Get ms 11 (fun _ => true))
              (Get_in_order_of_rounds ms 11 (fun _ => true)
                 (default ∅ (messages ms !! 11))
                 (reverse (ascending (default ∅ (messages ms !! 11))))
                 _ _) _ _).
    - vm_compute. reflexivity.
    - by rewrite reverse_Permutation, ascending_Permutation.
    - vm_compute. reflexivity. }
  split; [exact Hget|].
  apply (proj2 (Get_returns_matching_in_some_order ms 11 (fun _ => true))
           result Hget).
Defined.

(** C7, as the claim states it, fails: with a prevote of round 0 and one
    of round 1 stored at height 11, [Get] may return them in ascending order
    or round 1 first, so the order is neither ascending nor the same from
    one call to the next. *)
Lemma Get_order_not_stable :
  let ms := scenario.two_rounds in
  let query := fun _ : ConsensusMessage => true in
  let result1 := [scenario.prevote_r0_s1; scenario.prevote_r1_s1] in
  let result2 := [scenario.prevote_r1_s1; scenario.prevote_r0_s1] in
  Get_ascending ms 11 query = result1 /\
  Get ms 11 query result1 /\ Get ms 11 query result2 /\
  result2 <> result1.
Proof.
  intros ms query result1 result2.
  split; [vm_compute; reflexivity|]. split; [|split].
  - refine (eq_rect _ (Get ms 11 query)
              (Get_in_order_of_rounds ms 11 query
                 (default ∅ (messages ms !! 11))
                 (ascending (default ∅ (messages ms !! 11))) _ _) _ _).
    + vm_compute. reflexivity.
    + apply ascending_Permutation.
    + vm_compute. reflexivity.
  - refine (eq_rect _ (Get ms 11 query)
              (Get_in_order_of_rounds ms 11 query
                 (default ∅ (messages ms !! 11))
                 (reverse (ascending (default ∅ (messages ms !! 11)))) _ _)
              _ _).
    + vm_compute. reflexivity.
    + by rewrite reverse_Permutation, ascending_Permutation.
    + vm_compute. reflexivity.
  - vm_compute. discriminate.
Qed.

End store_spec.

(* ===================================================================== *)
(** * Properties of the rule constants and of the power accounting *)
(* ===================================================================== *)

Module rules_spec.
Import types afd.

(** The test of [powerOfVotes] skips every message: no code is both the
    prevote code and the precommit code. *)
Lemma powerOfVotes_loop_skips votes power :
  powerOfVotes_loop votes power = power.
Proof.
  revert power. induction votes as [|vote votes IH]; intros power; [done|].
  cbn [powerOfVotes_loop].
  destruct (Z.eqb_spec (Code vote) MsgPrevote) as [Hpv|_];
    destruct (Z.eqb_spec (Code vote) MsgPrecommit) as [Hpc|_];
    cbn [negb orb]; try apply IH.
  rewrite Hpv in Hpc. discriminate.
Qed.

(** C1, where the code and the claim differ. [powerOfVotes] returns 0 for
    every list of messages, because its test
    [Type() != MsgPrevote || Type() != MsgPrecommit] holds for every
    message; for two prevotes and a precommit of power 1 each, the sum of
    the claim is 3. *)
Theorem powerOfVotes_counts_no_vote :
  (forall votes, powerOfVotes votes = 0) /\
  let votes := [scenario.prevote_r0_s1; scenario.prevote_r0_s2;
                scenario.precommit_r0_s1] in
  power_of_prevotes_and_precommits votes = 3 /\ powerOfVotes votes = 0.
Proof.
  split; [intros votes; apply powerOfVotes_loop_skips|].
  split; reflexivity.
Qed.

(** C4, as the claim states it, fails: the constants are numbered from 0,
    so no rule has the number the claim gives it; the proof of an
    equivocation carries 9, not 10. *)
Lemma Rule_values_not_from_1 :
  Rule_u8 PN <> 1 /\ Rule_u8 PO <> 2 /\ Rule_u8 PVN <> 3 /\
  Rule_u8 PVO <> 4 /\ Rule_u8 C <> 5 /\ Rule_u8 C1 <> 6 /\
  Rule_u8 GarbageMessage <> 7 /\ Rule_u8 InvalidProposal <> 8 /\
  Rule_u8 InvalidProposer <> 9 /\ Rule_u8 Equivocation <> 10 /\
  Rule_u8 (RawProof_Rule
             (rawProof scenario.prevote_r0_s1' [scenario.prevote_r0_s1]
                (errorToRule errEquivocation).1)) = 9.
Proof. repeat split; discriminate. Qed.

(** C4, as the code has it. The rule constants are numbered from 0 in the
    order PN, PO, PVN, PVO, C, C1, GarbageMessage, InvalidProposal,
    InvalidProposer, Equivocation, UnknownRule; the envelope built for a
    message carries the rule it is given, and [errorToRule] gives the
    four provable errors their rules and every other error
    [UnknownRule]. *)
Theorem Rule_values_from_0 :
  Rule_u8 PN = 0 /\ Rule_u8 PO = 1 /\ Rule_u8 PVN = 2 /\ Rule_u8 PVO = 3 /\
  Rule_u8 C = 4 /\ Rule_u8 C1 = 5 /\ Rule_u8 GarbageMessage = 6 /\
  Rule_u8 InvalidProposal = 7 /\ Rule_u8 InvalidProposer = 8 /\
  Rule_u8 Equivocation = 9 /\ Rule_u8 UnknownRule = 10 /\
  (forall m proofs rule, RawProof_Rule (rawProof m proofs rule) = rule) /\
  (forall err,
     Rule_u8 (errorToRule err).1
     = match err with
       | errGarbageMsg => 6
       | errProposal => 7
       | errProposer => 8
       | errEquivocation => 9
       | _ => 10
       end).
Proof.
  repeat split; try reflexivity. intros err. by destruct err.
Qed.

End rules_spec.

(* ===================================================================== *)
(** * Properties of the message pipeline *)
(* ===================================================================== *)

Module pipeline_spec.
Import types afd.

(** [Cmp] answers -1, 0 or 1. *)
Lemma Cmp_range x y : -1 <= Cmp x y <= 1.
Proof. unfold Cmp. destruct (x ?= y); lia. Qed.

Lemma checkMsgSignature_not_future chain m :
  checkMsgSignature chain m <> Some errFutureMsg.
Proof.
  unfold checkMsgSignature. destruct (HeightErr m); [done|].
  pose proof (Cmp_range (H m) (CurrentHeaderNumber chain)) as Hc.
  destruct (Z.gtb_spec (Cmp (H m) (CurrentHeaderNumber chain)) 1); [lia|].
  by destruct (Validate _ _ _).
Qed.

(** C3, where the code and the claim differ. [checkMsgSignature] never
    answers [errFutureMsg]: it tests [msgHeight.Cmp(header.Number) > 1], and
    [Cmp] answers at most 1. With the head at 10, a prevote of height 12
    with a good signature is therefore not buffered by [processMsg] but
    validated and stored. *)
Theorem future_message_is_stored_not_buffered :
  (forall chain m, checkMsgSignature chain m <> Some errFutureMsg) /\
  let chain := scenario.chain_at 10 in
  let m := scenario.prevote_h12 in
  let result := processMsg chain scenario.newFaultDetector m in
  H m > CurrentHeaderNumber chain + 1 /\
  checkMsgSignature chain m = None /\
  result.2 = None /\
  futureMsgs result.1 = ∅ /\
  stored (msgStore result.1) 12 0 MsgPrevote 1 = Some m.
Proof.
  split; [apply checkMsgSignature_not_future|].
  repeat split; vm_compute; reflexivity.
Qed.

(** ** Replaying the buffer *)

Lemma keeps_buffered_refl fd : keeps_buffered fd fd.
Proof. intros k msgs Hk. exists []. by rewrite app_nil_r. Qed.

Lemma keeps_buffered_same fd1 fd2 :
  futureMsgs fd2 = futureMsgs fd1 -> keeps_buffered fd1 fd2.
Proof. intros E k msgs Hk. exists []. by rewrite app_nil_r, E. Qed.

Lemma keeps_buffered_trans fd1 fd2 fd3 :
  keeps_buffered fd1 fd2 -> keeps_buffered fd2 fd3 -> keeps_buffered fd1 fd3.
Proof.
  intros H12 H23 k msgs Hk.
  destruct (H12 _ _ Hk) as (more1 & Hk2).
  destruct (H23 _ _ Hk2) as (more2 & Hk3).
  exists (more1 ++ more2). by rewrite app_assoc.
Qed.

Lemma bufferMsg_keeps fd m : keeps_buffered fd (bufferMsg fd m).
Proof.
  unfold bufferMsg. destruct (HeightErr m); [apply keeps_buffered_refl|].
  intros k msgs Hk. cbn.
  destruct (decide (k = H m)) as [->|Hne].
  - rewrite lookup_insert_eq, Hk. by exists [m].
  - rewrite lookup_insert_ne by done. exists []. by rewrite app_nil_r.
Qed.

Lemma submitMisbehavior_futureMsgs chain fd m proofs err :
  futureMsgs (submitMisbehavior chain fd m proofs err) = futureMsgs fd.
Proof.
  unfold submitMisbehavior.
  destruct (errorToRule err) as [rule [e|]];
    destruct (generateOnChainProof _ _ _ _) as [proof [err'|]]; done.
Qed.

Lemma processMsg_keeps chain fd m : keeps_buffered fd (processMsg chain fd m).1.
Proof.
  assert (Hsave : forall fd0,
    futureMsgs
      (let '(ms, (p, err)) := Save (RLPHash chain) (msgStore fd0) m in
       let fd1 := set_msgStore ms fd0 in
       match err, p with
       | Some errEquivocation, Some p =>
           (submitMisbehavior chain fd1 m [p] errEquivocation,
            Some errEquivocation)
       | _, _ => (fd1, None)
       end).1 = futureMsgs fd0).
  { intros fd0.
    destruct (Save _ _ _) as [ms [[p|] [[]|]]]; cbv beta iota zeta; cbn [fst];
      try done.
    by rewrite submitMisbehavior_futureMsgs. }
  unfold processMsg.
  destruct (checkMsgSignature chain m) as [err|].
  - cbn. destruct (is_errFutureMsg err);
      [apply bufferMsg_keeps|apply keeps_buffered_refl].
  - destruct (checkAutoIncriminatingMsg chain m) as [err|].
    + destruct (is_errFutureMsg err).
      * eapply keeps_buffered_trans; [apply bufferMsg_keeps|].
        apply keeps_buffered_same, Hsave.
      * cbn. apply keeps_buffered_same, submitMisbehavior_futureMsgs.
    + apply keeps_buffered_same, Hsave.
Qed.

(** Replaying a bucket hands each of its messages to [processMsg], in
    order, and drops nothing from the buffer. *)
Lemma replay_spec chain msgs s :
  keeps_buffered s.1 (replay chain msgs s).1 /\
  (replay chain msgs s).2 = s.2 ++ msgs.
Proof.
  revert s. induction msgs as [|m msgs IH]; intros s; cbn [replay].
  - split; [apply keeps_buffered_refl|by rewrite app_nil_r].
  - pose proof (processMsg_keeps chain s.1 m) as Hk.
    destruct (processMsg chain s.1 m) as [fd err]. cbn [fst] in Hk.
    match goal with
    | |- context [replay chain msgs (?fd', ?h)] =>
        destruct (IH (fd', h)) as [IH1 IH2];
        assert (Hlog : keeps_buffered fd fd')
          by (apply keeps_buffered_same; by destruct err)
    end.
    split.
    + eapply keeps_buffered_trans; [exact Hk|].
      eapply keeps_buffered_trans; [exact Hlog|exact IH1].
    + rewrite IH2. cbn [snd]. by rewrite <- app_assoc.
Qed.

(** The body of the loop of [processBufferedMsgs]. *)
Lemma visit_spec chain fd0 k (s s' : FaultDetector * list ConsensusMessage) :
  keeps_buffered fd0 s.1 ->
  (let msgs := default [] (futureMsgs s.1 !! k) in
   if k <=? k then s' = replay chain msgs s else s' = s) ->
  keeps_buffered fd0 s'.1 /\
  (forall m, m ∈ s.2 -> m ∈ s'.2) /\
  (forall msgs m, futureMsgs fd0 !! k = Some msgs -> m ∈ msgs -> m ∈ s'.2).
Proof.
  intros Hkeep. cbn zeta. rewrite Z.leb_refl. intros ->.
  destruct (replay_spec chain (default [] (futureMsgs s.1 !! k)) s)
    as [Hk Hh].
  split; [by eapply keeps_buffered_trans|]. rewrite Hh. split.
  - intros m Hm. apply elem_of_app. by left.
  - intros msgs m Hb Hm. destruct (Hkeep _ _ Hb) as (more & ->). cbn.
    rewrite !elem_of_app. right. by left.
Qed.

Lemma loop_spec chain fd0 entries :
  forall s s' : FaultDetector * list ConsensusMessage,
  keeps_buffered fd0 s.1 ->
  for_each (fun (kv : Z * list ConsensusMessage) s s' =>
      let msgs := default [] (futureMsgs s.1 !! kv.1) in
      if kv.1 <=? kv.1 then s' = replay chain msgs s else s' = s)
    entries s s' ->
  keeps_buffered fd0 s'.1 /\
  (forall m, m ∈ s.2 -> m ∈ s'.2) /\
  (forall k v msgs m, (k, v) ∈ entries ->
     futureMsgs fd0 !! k = Some msgs -> m ∈ msgs -> m ∈ s'.2).
Proof.
  induction entries as [|[k v] entries IH]; intros s s' Hkeep; cbn [for_each].
  - intros ->. split; [done|]. split; [done|].
    by intros k v msgs m ?%elem_of_nil.
  - intros (s1 & Hvisit & Hrest).
    destruct (visit_spec chain fd0 k s s1 Hkeep Hvisit) as (Hk1 & Hmono1 & Hin1).
    destruct (IH s1 s' Hk1 Hrest) as (Hk' & Hmono & Hin).
    split; [done|]. split; [by auto|].
    intros k' v' msgs m [[= -> ->]|Hel]%elem_of_cons Hb Hm.
    + eauto.
    + eauto.
Qed.

(** The call always ends: each bucket is a finite slice. Visiting the
    buckets in the order of [map_to_list] is one way for it to run. *)
Lemma processBufferedMsgs_in_map_order chain height fd :
  let result :=
    foldl (fun s (kv : Z * list ConsensusMessage) =>
             replay chain (default [] (futureMsgs s.1 !! kv.1)) s)
      (fd, []) (map_to_list (futureMsgs fd)) in
  processBufferedMsgs chain height fd result.1 result.2.
Proof.
  intros result. exists (map_to_list (futureMsgs fd)). split; [done|].
  replace (result.1, result.2) with result by (by destruct result).
  subst result. generalize (fd, @nil ConsensusMessage).
  induction (map_to_list (futureMsgs fd)) as [|kv entries IH];
    intros s; cbn [for_each foldl]; [done|].
  eexists. split; [|apply IH]. cbn zeta. by rewrite Z.leb_refl.
Qed.

Lemma processBufferedMsgs_total chain height fd :
  exists fd' handled, processBufferedMsgs chain height fd fd' handled.
Proof.
  eexists _, _. apply processBufferedMsgs_in_map_order.
Qed.

(** Every buffered message is handed to [processMsg], whatever its
    height, and every bucket is kept. *)
Lemma processBufferedMsgs_all chain height fd fd' handled :
  processBufferedMsgs chain height fd fd' handled ->
  keeps_buffered fd fd' /\
  forall k msgs m, futureMsgs fd !! k = Some msgs -> m ∈ msgs -> m ∈ handled.
Proof.
  intros (entries & Hperm & Hloop).
  destruct (loop_spec chain fd entries (fd, []) (fd', handled)
              (keeps_buffered_refl fd) Hloop) as (Hk & _ & Hin).
  split; [exact Hk|]. intros k msgs m Hb Hm.
  apply (Hin k msgs msgs m); [|done..].
  rewrite Hperm. by apply elem_of_map_to_list.
Qed.

(** C5, as the code has it. When the head advances to [height],
    [processBufferedMsgs] returns, having handed to [processMsg] every
    buffered message of a height up to [height + 1]; it purges no bucket:
    every message buffered before the call, at whatever height, is still
    buffered after it. *)
Theorem processBufferedMsgs_replays_and_keeps chain height fd :
  (exists fd' handled, processBufferedMsgs chain height fd fd' handled) /\
  forall fd' handled, processBufferedMsgs chain height fd fd' handled ->
    (forall k msgs m, futureMsgs fd !! k = Some msgs -> m ∈ msgs ->
       k <= height + 1 -> m ∈ handled) /\
    (forall k msgs, futureMsgs fd !! k = Some msgs ->
       exists more, futureMsgs fd' !! k = Some (msgs ++ more)).
Proof.
  split; [apply processBufferedMsgs_total|].
  intros fd' handled Hp.
  destruct (processBufferedMsgs_all _ _ _ _ _ Hp) as [Hk Hin].
  split; [by eauto|exact Hk].
Qed.

Lemma processBufferedMsgs_replays_and_keeps_witness :
  processBufferedMsgs (scenario.chain_at 10) 10 scenario.buffered
    scenario.replayed.1 scenario.replayed.2 /\
  scenario.proposal_h5 ∈ scenario.replayed.2 /\
  exists more,
    futureMsgs scenario.replayed.1 !! 5 = Some ([scenario.proposal_h5] ++ more).
Proof.
  assert (Hp : processBufferedMsgs (scenario.chain_at 10) 10 scenario.buffered
                 scenario.replayed.1 scenario.replayed.2).
  { exact (processBufferedMsgs_in_map_order (scenario.chain_at 10) 10
             scenario.buffered). }
  split; [exact Hp|].
  destruct (proj2 (processBufferedMsgs_replays_and_keeps
                     (scenario.chain_at 10) 10 scenario.buffered)
              _ _ Hp) as [Hin Hkeep].
  split.
  - apply (Hin 5 [scenario.proposal_h5]).
    + vm_compute. reflexivity.
    + apply list_elem_of_here.
    + lia.
  - apply Hkeep. vm_compute. reflexivity.
Defined.

(** C5, as the claim states it, fails. The proposals of heights 5 and 20
    were buffered while the head was at 3. When the head advances to 10,
    [processBufferedMsgs 10] also hands the proposal of height 20 to
    [processMsg], which buffers it a second time, and the bucket of height
    5 is still there afterwards. *)
Lemma processBufferedMsgs_replays_future_and_purges_nothing :
  let chain := scenario.chain_at 10 in
  let fd := scenario.buffered in
  futureMsgs fd !! 5 = Some [scenario.proposal_h5] /\
  futureMsgs fd !! 20 = Some [scenario.proposal_h20] /\
  (exists fd' handled, processBufferedMsgs chain 10 fd fd' handled) /\
  forall fd' handled, processBufferedMsgs chain 10 fd fd' handled ->
    scenario.proposal_h20 ∈ handled /\
    futureMsgs fd' !! 20 = Some [scenario.proposal_h20; scenario.proposal_h20] /\
    futureMsgs fd' !! 5 = Some [scenario.proposal_h5].
Proof.
  intros chain fd.
  split; [vm_compute; reflexivity|]. split; [vm_compute; reflexivity|].
  split; [apply processBufferedMsgs_total|].
  intros fd' handled Hp. split.
  - apply (proj2 (processBufferedMsgs_all _ _ _ _ _ Hp)
             20 [scenario.proposal_h20]).
    + vm_compute. reflexivity.
    + apply list_elem_of_here.
  - destruct Hp as (entries & Hperm & Hloop).
    assert (Hl : map_to_list (futureMsgs fd)
                 = [(5, [scenario.proposal_h5]); (20, [scenario.proposal_h20])]
                 \/ map_to_list (futureMsgs fd)
                 = [(20, [scenario.proposal_h20]); (5, [scenario.proposal_h5])]).
    { vm_compute. auto. }
    assert (He : entries
                 = [(5, [scenario.proposal_h5]); (20, [scenario.proposal_h20])]
                 \/ entries
                 = [(20, [scenario.proposal_h20]); (5, [scenario.proposal_h5])]).
    { symmetry in Hperm.
      destruct Hl as [Hl|Hl]; rewrite Hl in Hperm;
        apply Permutation_length_2_inv in Hperm; tauto. }
    destruct He as [-> | ->]; cbn [for_each fst snd] in Hloop;
      destruct Hloop as (s1 & H1 & s2 & H2 & H3);
      cbn zeta in H1, H2; rewrite Z.leb_refl in H1, H2;
      subst s1 s2; apply (f_equal fst) in H3; cbn [fst] in H3; subst fd';
      split; vm_compute; reflexivity.
Qed.

End pipeline_spec.

(* ===================================================================== *)
(** * Properties of the algorithm under its driver *)
(* ===================================================================== *)

Module rounds_spec.
Import algorithm rounds.
Import algorithm_spec.

(** The guards of the value-carrying blocks, read back from [upon]. *)
Lemma upon_Line22_guard o a cm :
  upon o a cm = Line22 ->
  MsgType cm = Propose /\ Round cm = round a /\ ValidRound cm = -1 /\
  step a = Propose.
Proof.
  intros Hu. upon_inv Hu.
  destruct (MsgType cm); try discriminate. destruct (step a); try discriminate.
  repeat split; lia.
Qed.

Lemma upon_Line28_guard o a cm :
  upon o a cm = Line28 ->
  exists p, MatchingProposal o cm = Some p /\ Round p = round a /\
    PrevoteQThresh o (ValidRound p) (Some (Value p)) = true /\
    step a = Propose /\ 0 <= ValidRound p < round a.
Proof.
  intros Hu. upon_inv Hu.
  destruct (MatchingProposal o cm) as [p|]; [|discriminate].
  upon_inv Hu. exists p. destruct (step a); try discriminate.
  repeat split; try done; lia.
Qed.

Lemma upon_Line36_guard o a cm :
  upon o a cm = Line36 ->
  exists p, MatchingProposal o cm = Some p /\ Round p = round a /\
    PrevoteQThresh o (round a) (Some (Value p)) = true /\
    Valid o (Value p) = true /\ step a <> Propose /\
    line36Executed a = false.
Proof.
  intros Hu. upon_inv Hu.
  destruct (MatchingProposal o cm) as [p|]; [|discriminate].
  upon_inv Hu. exists p. repeat split; try done; try lia.
  - destruct (step a); [discriminate|done|done].
  - by apply negb_true_iff.
Qed.

Lemma upon_Line44_guard o a cm :
  upon o a cm = Line44 -> step a = Prevote.
Proof. intros Hu. upon_inv Hu. by destruct (step a). Qed.

Lemma upon_Line49_guard o a cm :
  upon o a cm = Line49 ->
  exists p, MatchingProposal o cm = Some p /\
    PrecommitQThresh o (Round p) (Some (Value p)) = true.
Proof.
  intros Hu. upon_inv Hu.
  destruct (MatchingProposal o cm) as [p|]; [|discriminate]. by exists p.
Qed.

Lemma upon_Line55_guard o a cm :
  upon o a cm = Line55 ->
  round a < Round cm /\ FThresh o (Round cm) = true.
Proof. intros Hu. upon_inv Hu. split; [lia|done]. Qed.

(** X1. Of the three values that [ReceiveMessage] returns at most one is
    not nil, and when all three are nil the state has not changed. *)
Theorem ReceiveMessage_returns_at_most_one o a cm :
  match ReceiveMessage o a cm with
  | (_, (Some _, None, None)) | (_, (None, Some _, None))
  | (_, (None, None, Some _)) => True
  | (a', (None, None, None)) => a' = a
  | _ => False
  end.
Proof.
  unfold ReceiveMessage. destruct (upon o a cm) eqn:Hu.
  - by destruct (_ || _).
  - destruct (upon_Line28 _ _ _ Hu) as [p ->]. by destruct (_ && _).
  - by destruct (upon_Line36 _ _ _ Hu) as [_ [p ->]].
  - done.
  - done.
  - by destruct (upon_Line49 _ _ _ Hu) as [p ->].
  - done.
  - done.
  - by destruct (MatchingProposal o cm).
Qed.

(** What a [StartRound] that returns leaves and gives back: the round is
    started, the locked and valid fields are kept, and the result is the
    proposal of the proposer, for its valid value if it has one, or the
    propose timeout of any other node, or the oracle's error. *)
Lemma StartRound_result o r a a' res :
  StartRound o r a = (a', Returned res) ->
  a' = {| nodeID := nodeID a; round := r; step := Propose;
          lockedRound := lockedRound a; lockedValue := lockedValue a;
          validRound := validRound a; validValue := validValue a;
          line34Executed := false; line36Executed := false;
          line47Executed := false |} /\
  let proposal v :=
    {| MsgType := Propose; Height := OracleHeight o; Round := r;
       Value := v; ValidRound := validRound a |} in
  if Proposer o r (nodeID a) then
    if decide (validValue a = NilValue) then
      match OracleValue o with
      | inl v => res = (Some (proposal v), None, None)
      | inr err => res = (None, None, Some err)
      end
    else res = (Some (proposal (validValue a)), None, None)
  else
    res = (None,
           Some {| TimeoutType := Propose; Delay := 1;
                   TimeoutHeight := OracleHeight o; TimeoutRound := r |},
           None).
Proof.
  unfold StartRound. destruct (r <=? round a); [done|]. cbn.
  destruct (Proposer o r (nodeID a)); [|by intros [= <- <-]].
  destruct (Z.eqb_spec (validValue a) NilValue) as [He|Hne]; cbn.
  - rewrite decide_True by done.
    destruct (OracleValue o); by intros [= <- <-].
  - rewrite decide_False by done. by intros [= <- <-].
Qed.

(** One call within a round keeps the round and never takes the step
    back. *)
Lemma exec_round_step a c :
  round (exec a c).1 = round a /\
  Step_u8 (step a) <= Step_u8 (step (exec a c).1).
Proof.
  destruct c as [o cm|o h r|o h r|o h r]; cbn [exec].
  - unfold ReceiveMessage. destruct (upon o a cm) eqn:Hu.
    + destruct (upon_Line22_guard _ _ _ Hu) as (_ & _ & _ & Hs).
      rewrite Hs. by destruct (_ || _).
    + destruct (upon_Line28_guard _ _ _ Hu) as (p & -> & _ & _ & Hs & _).
      rewrite Hs. by destruct (_ && _).
    + destruct (upon_Line36_guard _ _ _ Hu) as (p & -> & _ & _ & _ & Hs & _).
      destruct (step a) eqn:Es; [by destruct Hs|..]; cbn; rewrite ?Es; cbn;
        (split; [done|lia]).
    + rewrite (upon_Line44_guard _ _ _ Hu). by cbn.
    + cbn. lia.
    + destruct (upon_Line49_guard _ _ _ Hu) as (p & -> & _).
      destruct (Valid _ _); cbn; lia.
    + cbn. lia.
    + cbn. lia.
    + destruct (MatchingProposal o cm); cbn; lia.
  - unfold OnTimeoutPropose.
    destruct (_ && _) eqn:E; cbn; [|lia]. split; [done|].
    apply andb_prop in E as [_ E]. by destruct (step a).
  - unfold OnTimeoutPrevote.
    destruct (_ && _) eqn:E; cbn; [|lia]. split; [done|].
    apply andb_prop in E as [_ E]. by destruct (step a).
  - cbn. lia.
Qed.

(** X2. Between two [StartRound] calls the round stays the same and the
    step only moves forward, from propose to prevote to precommit,
    whatever messages and timeouts arrive. *)
Theorem run_keeps_round_and_advances_step calls a :
  round (run a calls).1 = round a /\
  Step_u8 (step a) <= Step_u8 (step (run a calls).1).
Proof.
  revert a. induction calls as [|c calls IH]; intros a; [cbn; lia|].
  rewrite run_cons. cbn [fst].
  destruct (IH (exec a c).1) as [IHr IHs].
  destruct (exec_round_step a c) as [Hr Hs]. split; [congruence|lia].
Qed.

Lemma StartRound_locks_in_order o r a a' res :
  -1 <= round a ->
  (0 <= round a -> locks_in_order a) ->
  (round a = -1 -> a = New (nodeID a)) ->
  StartRound o r a = (a', Returned res) -> locks_in_order a'.
Proof.
  intros Hr Hinv Hnew Hstart.
  assert (Hlt : round a < r).
  { unfold StartRound in Hstart.
    destruct (Z.leb_spec r (round a)); [done|lia]. }
  destruct (StartRound_result _ _ _ _ _ Hstart) as [-> _].
  unfold locks_in_order. cbn.
  destruct (decide (round a = -1)) as [Hm|Hm].
  - rewrite (Hnew Hm). cbn. repeat split; try done; lia.
  - destruct Hinv as (? & ? & ? & ? & ?); [lia|]. repeat split; try done; lia.
Qed.

Lemma exec_locks_in_order a c :
  locks_in_order a -> locks_in_order (exec a c).1.
Proof.
  intros (Hr & Hl & Hv & Hlv & Hvv).
  destruct c as [o cm|o h r|o h r|o h r]; cbn [exec].
  - unfold ReceiveMessage. destruct (upon o a cm) eqn:Hu.
    + by destruct (_ || _).
    + destruct (upon_Line28 _ _ _ Hu) as [p ->]. by destruct (_ && _).
    + destruct (upon_Line36 _ _ _ Hu) as [_ [p ->]].
      unfold locks_in_order.
      destruct (Step_eqb (step a) Prevote); cbn;
        repeat split; try done; try lia.
    + done.
    + done.
    + destruct (upon_Line49 _ _ _ Hu) as [p ->]. unfold locks_in_order.
      destruct (Valid _ _); cbn; repeat split; try done; lia.
    + done.
    + done.
    + by destruct (MatchingProposal o cm).
  - unfold OnTimeoutPropose. by destruct (_ && _).
  - unfold OnTimeoutPrevote. by destruct (_ && _).
  - done.
Qed.

(** X3. In every state that the driver can reach the round is at least 0,
    the locked round is at most the valid round and the valid round at most
    the round, and a locked or valid round of -1 goes with the nil
    value. *)
Theorem reachable_locks_in_order a :
  reachable a ->
  0 <= round a /\
  -1 <= lockedRound a <= validRound a /\ validRound a <= round a /\
  (lockedRound a = -1 -> lockedValue a = NilValue) /\
  (validRound a = -1 -> validValue a = NilValue).
Proof.
  intros Hreach. change (locks_in_order a).
  induction Hreach as [id o r a res Hstart|a o r a' res _ IH Hstart|a c _ IH].
  - apply (StartRound_locks_in_order o r (New id) a res); cbn;
      [lia|lia|done|done].
  - apply (StartRound_locks_in_order o r a a' res); try done.
    + destruct IH as [? _]. lia.
    + destruct IH as [? _]. lia.
  - by apply exec_locks_in_order.
Qed.

Lemma reachable_locks_in_order_witness :
  let a := scenario.locked_on_X in
  0 <= round a /\
  -1 <= lockedRound a <= validRound a /\ validRound a <= round a /\
  (lockedRound a = -1 -> lockedValue a = NilValue) /\
  (validRound a = -1 -> validValue a = NilValue).
Proof.
  pose (o := scenario.oracle true 0).
  pose proof (reachable_first 1 o 0 scenario.started
                (None, Some (timeout o scenario.started Propose), None)
                eq_refl) as R1.
  pose proof (reachable_exec _ (CallReceiveMessage o (scenario.proposal 0)) R1)
    as R2.
  pose proof (reachable_exec _
                (CallReceiveMessage o (scenario.prevote 0 scenario.X)) R2)
    as R3.
  pose proof (reachable_StartRound _ o 1 scenario.locked_on_X
                (None, Some (timeout o scenario.locked_on_X Propose), None)
                R3 eq_refl) as R4.
  exact (reachable_locks_in_order scenario.locked_on_X R4).
Defined.

(** X4. A propose or prevote timeout that is delivered twice has its
    effect once: the second delivery changes nothing and returns nil,
    whatever the first did. A propose timeout takes effect only for the
    current height and round and only in step propose: then the node moves
    to step prevote and prevotes nil. A timeout for another height or
    round, or one that arrives after the step has moved on, changes nothing
    and returns nil. The prevote timeout behaves alike, one step later. *)
Theorem timeouts_fire_once_in_their_step o a h r :
  OnTimeoutPropose o (OnTimeoutPropose o a h r).1 h r
  = ((OnTimeoutPropose o a h r).1, None) /\
  OnTimeoutPrevote o (OnTimeoutPrevote o a h r).1 h r
  = ((OnTimeoutPrevote o a h r).1, None) /\
  (h = OracleHeight o -> r = round a -> step a = Propose ->
     OnTimeoutPropose o a h r
     = (set_step Prevote a,
        Some {| MsgType := Prevote; Height := OracleHeight o;
                Round := round a; Value := NilValue; ValidRound := 0 |})) /\
  (h <> OracleHeight o \/ r <> round a \/ step a <> Propose ->
     OnTimeoutPropose o a h r = (a, None)) /\
  (h = OracleHeight o -> r = round a -> step a = Prevote ->
     OnTimeoutPrevote o a h r
     = (set_step Precommit a,
        Some {| MsgType := Precommit; Height := OracleHeight o;
                Round := round a; Value := NilValue; ValidRound := 0 |})) /\
  (h <> OracleHeight o \/ r <> round a \/ step a <> Prevote ->
     OnTimeoutPrevote o a h r = (a, None)).
Proof.
  split_and!.
  - unfold OnTimeoutPropose.
    destruct ((h =? OracleHeight o) && (r =? round a)
              && Step_eqb (step a) Propose) eqn:E; cbn [fst].
    + cbn [set_step step round]. unfold Step_eqb at 1. cbn.
      by rewrite andb_false_r.
    + by rewrite E.
  - unfold OnTimeoutPrevote.
    destruct ((h =? OracleHeight o) && (r =? round a)
              && Step_eqb (step a) Prevote) eqn:E; cbn [fst].
    + cbn [set_step step round]. unfold Step_eqb at 1. cbn.
      by rewrite andb_false_r.
    + by rewrite E.
  - intros -> -> Hs. unfold OnTimeoutPropose. rewrite !Z.eqb_refl, Hs. by cbn.
  - intros Hd. unfold OnTimeoutPropose.
    destruct (Z.eqb_spec h (OracleHeight o)); [|done].
    destruct (Z.eqb_spec r (round a)); [|done].
    destruct (step a) eqn:Es; cbn; try done. by destruct Hd as [|[|]].
  - intros -> -> Hs. unfold OnTimeoutPrevote. rewrite !Z.eqb_refl, Hs. by cbn.
  - intros Hd. unfold OnTimeoutPrevote.
    destruct (Z.eqb_spec h (OracleHeight o)); [|done].
    destruct (Z.eqb_spec r (round a)); [|done].
    destruct (step a) eqn:Es; cbn; try done. by destruct Hd as [|[|]].
Qed.

Lemma timeouts_fire_once_in_their_step_witness :
  let o := scenario.oracle true 0 in
  let a := scenario.started in
  OnTimeoutPropose o a 11 0
  = (set_step Prevote a, Some (scenario.prevote 0 NilValue)) /\
  OnTimeoutPropose o (set_step Prevote a) 11 0 = (set_step Prevote a, None) /\
  OnTimeoutPrevote o (set_step Prevote a) 11 0
  = (set_step Precommit (set_step Prevote a),
     Some (scenario.precommit 0 NilValue)) /\
  OnTimeoutPrevote o a 11 0 = (a, None).
Proof.
  intros o a.
  pose proof (timeouts_fire_once_in_their_step o a 11 0)
    as (_ & _ & H1 & _ & _ & H4).
  pose proof (timeouts_fire_once_in_their_step o (set_step Prevote a) 11 0)
    as (_ & _ & _ & H2 & H3 & _).
  split; [by apply H1|]. split; [apply H2; right; right; discriminate|].
  split; [by apply H3|]. apply H4. right; right; discriminate.
Defined.

(** X5. The round change of a precommit timeout asks for the next round,
    and [StartRound] accepts it, as long as the round is below the largest
    [int64]. At the largest [int64] the addition [a.round + 1] wraps to the
    smallest one, and [StartRound] panics on the round it is given. *)
Theorem precommit_timeout_starts_next_round o o' a h r rc :
  MinInt64 <= round a <= MaxInt64 ->
  OnTimeoutPrecommit o a h r = Some rc ->
  Decision rc = None /\
  (round a < MaxInt64 ->
     RoundChangeRound rc = round a + 1 /\
     exists a' res,
       StartRound o' (RoundChangeRound rc) a = (a', Returned res) /\
       round a' = round a + 1) /\
  (round a = MaxInt64 ->
     RoundChangeRound rc = MinInt64 /\
     StartRound o' (RoundChangeRound rc) a
     = (a, Panicked (PanicNewRound MaxInt64 MinInt64))).
Proof.
  unfold MinInt64, MaxInt64. intros Hr.
  unfold OnTimeoutPrecommit. destruct (_ && _); [|done].
  intros [= <-]. cbn. split; [done|]. split.
  - intros Hlt.
    assert (Hw : wrap_i64 (round a + 1) = round a + 1).
    { unfold wrap_i64.
      rewrite Z.mod_small by lia. lia. }
    rewrite Hw. split; [done|].
    destruct (StartRound o' (round a + 1) a) as [a' [res|pn]] eqn:Hs.
    + exists a', res. split; [done|].
      by destruct (StartRound_result _ _ _ _ _ Hs) as [-> _].
    + unfold StartRound in Hs.
      destruct (Z.leb_spec (round a + 1) (round a)); [lia|].
      destruct (Proposer _ _ _); [|done].
      destruct (negb _); [done|]. by destruct (OracleValue o').
  - intros Hmax.
    assert (Hw : wrap_i64 (round a + 1) = - 2 ^ 63).
    { rewrite Hmax. reflexivity. }
    rewrite Hw. split; [done|].
    unfold StartRound.
    destruct (Z.leb_spec (- 2 ^ 63) (round a)); [|lia].
    by rewrite Hmax.
Qed.

Lemma precommit_timeout_starts_next_round_witness :
  let o := scenario.oracle true 0 in
  let a := scenario.started in
  let rc := {| RoundChangeRound := 1; Decision := None |} in
  Decision rc = None /\
  (round a < MaxInt64 ->
     RoundChangeRound rc = round a + 1 /\
     exists a' res,
       StartRound o (RoundChangeRound rc) a = (a', Returned res) /\
       round a' = round a + 1) /\
  (round a = MaxInt64 ->
     RoundChangeRound rc = MinInt64 /\
     StartRound o (RoundChangeRound rc) a
     = (a, Panicked (PanicNewRound MaxInt64 MinInt64))).
Proof.
  intros o a rc.
  apply (precommit_timeout_starts_next_round o o a 11 0 rc).
  - unfold MinInt64, MaxInt64. cbn. lia.
  - reflexivity.
Defined.

(** X6. A round change without a decision comes from the round-skip rule:
    the state has not changed, the failure threshold is reached for the
    round asked for, that round is above the current one, and [StartRound]
    accepts it. *)
Theorem round_skip_starts_later_round o o' a cm a' rc m t :
  ReceiveMessage o a cm = (a', (Some rc, m, t)) ->
  Decision rc = None ->
  a' = a /\ RoundChangeRound rc = Round cm /\ round a < Round cm /\
  FThresh o (Round cm) = true /\
  exists a'' res,
    StartRound o' (RoundChangeRound rc) a' = (a'', Returned res) /\
    round a'' = Round cm.
Proof.
  intros Hrm Hd.
  destruct (ReceiveMessage_RoundChange _ _ _ _ _ _ _ Hrm)
    as [(_ & _ & [p Hp] & _)|(Hu & Hr & _)]; [congruence|].
  destruct (upon_Line55_guard _ _ _ Hu) as [Hlt Hf].
  assert (Ha : a' = a).
  { unfold ReceiveMessage in Hrm. rewrite Hu in Hrm.
    by destruct (MatchingProposal o cm); injection Hrm as <-. }
  subst a'. repeat split; try done. rewrite Hr.
  destruct (StartRound o' (Round cm) a) as [a'' [res|pn]] eqn:Hs.
  - exists a'', res. split; [done|].
    by destruct (StartRound_result _ _ _ _ _ Hs) as [-> _].
  - unfold StartRound in Hs.
    destruct (Z.leb_spec (Round cm) (round a)); [lia|].
    destruct (Proposer _ _ _); [|done].
    destruct (negb _); [done|]. by destruct (OracleValue o').
Qed.

Lemma round_skip_starts_later_round_witness :
  let o := oracle_round_5 in
  let a := scenario.started in
  let cm := scenario.prevote 5 scenario.X in
  round a < Round cm /\ FThresh o (Round cm) = true /\
  exists a'' res,
    StartRound o 5 a = (a'', Returned res) /\ round a'' = Round cm.
Proof.
  intros o a cm.
  destruct (round_skip_starts_later_round o o a cm a
              {| RoundChangeRound := 5; Decision := None |} None None
              eq_refl eq_refl) as (_ & _ & H1 & H2 & H3).
  split; [exact H1|]. split; [exact H2|exact H3].
Defined.

(** X7. A precommit for a value other than nil is returned only for the
    value of the matching proposal of the current round, when the oracle
    finds that value valid and backed by a quorum of prevotes of the
    current round; the value and the round then become the valid value and
    valid round. *)
Theorem value_precommit_is_justified o a cm a' rc m t :
  ReceiveMessage o a cm = (a', (rc, Some m, t)) ->
  MsgType m = Precommit -> Value m <> NilValue ->
  exists p,
    MatchingProposal o cm = Some p /\ Value p = Value m /\
    Round p = round a /\ Round m = round a /\
    Valid o (Value m) = true /\
    PrevoteQThresh o (round a) (Some (Value m)) = true /\
    validValue a' = Value m /\ validRound a' = round a /\
    (step a = Prevote ->
       lockedValue a' = Value m /\ lockedRound a' = round a).
Proof.
  unfold ReceiveMessage. destruct (upon o a cm) eqn:Hu.
  - by destruct (_ || _); intros [= _ _ <- _] ?.
  - destruct (upon_Line28 _ _ _ Hu) as [p ->].
    by destruct (_ && _); intros [= _ _ <- _] ?.
  - destruct (upon_Line36_guard _ _ _ Hu) as (p & Hp & Hr & Hq & Hv & Hs & _).
    rewrite Hp. intros [= <- _ <- _] _ _. exists p. cbn.
    destruct (step a) eqn:Es; [by destruct Hs|..]; cbn;
      repeat split; try done.
  - by intros [= _ _ <- _] _ Hne.
  - done.
  - by destruct (upon_Line49 _ _ _ Hu) as [p ->].
  - done.
  - done.
  - by destruct (MatchingProposal o cm).
Qed.

Lemma value_precommit_is_justified_witness :
  let o := scenario.oracle true 0 in
  let a := set_step Prevote scenario.started in
  let cm := scenario.prevote 0 scenario.X in
  exists p,
    MatchingProposal o cm = Some p /\ Value p = scenario.X /\
    Round p = round a /\ Valid o scenario.X = true /\
    PrevoteQThresh o (round a) (Some scenario.X) = true.
Proof.
  intros o a cm.
  destruct (value_precommit_is_justified o a cm
              (ReceiveMessage o a cm).1 None (scenario.precommit 0 scenario.X)
              None eq_refl eq_refl)
    as (p & H1 & H2 & H3 & _ & H4 & H5 & _); [discriminate|].
  exists p. repeat split; assumption.
Defined.

(** X8. A round change with a decision carries the matching proposal of
    the message, and the oracle sees a quorum of precommits for that
    proposal's value in that proposal's round, which need not be the
    current round. Round and step are kept; the locked and valid fields are
    reset to (-1, nil) exactly if the oracle finds the value valid. *)
Theorem decision_has_precommit_quorum o a cm a' rc m t p :
  ReceiveMessage o a cm = (a', (Some rc, m, t)) ->
  Decision rc = Some p ->
  MatchingProposal o cm = Some p /\
  PrecommitQThresh o (Round p) (Some (Value p)) = true /\
  round a' = round a /\ step a' = step a /\
  (if Valid o (Value p)
   then lockedRound a' = -1 /\ lockedValue a' = NilValue /\
        validRound a' = -1 /\ validValue a' = NilValue
   else a' = a).
Proof.
  intros Hrm Hd.
  destruct (ReceiveMessage_RoundChange _ _ _ _ _ _ _ Hrm)
    as [(Hu & _ & _ & Hp)|(_ & _ & Hn)]; [|congruence].
  destruct (upon_Line49_guard _ _ _ Hu) as (p' & Hp' & Hq).
  assert (p' = p) by congruence. subst p'.
  unfold ReceiveMessage in Hrm. rewrite Hu, Hp' in Hrm.
  injection Hrm as <- _ _ _.
  repeat split; try done.
  - by destruct (Valid _ _).
  - by destruct (Valid _ _).
  - by destruct (Valid _ _).
Qed.

Lemma decision_has_precommit_quorum_witness :
  let o := scenario.oracle_precommit_quorum in
  let p := scenario.proposal 0 in
  MatchingProposal o (scenario.precommit 0 scenario.X) = Some p /\
  PrecommitQThresh o (Round p) (Some (Value p)) = true.
Proof.
  intros o p.
  destruct (decision_has_precommit_quorum o scenario.started
              (scenario.precommit 0 scenario.X) scenario.started
              {| RoundChangeRound := 0; Decision := Some p |} None None p
              eq_refl eq_refl) as (H1 & H2 & _).
  split; [exact H1|exact H2].
Defined.

End rounds_spec.

(* ===================================================================== *)
(** * Properties of saving, finding and removing messages *)
(* ===================================================================== *)

Module msgstore_spec.
Import types afd msgstore.
Import store_spec.

(** What [Save] leaves at every key. *)
Lemma Save_stored RLPHash ms m h r c a :
  stored (Save RLPHash ms m).1 h r c a
  = if decide (h = H m /\ r = R m /\ c = Code m /\ a = Address m)
    then match stored ms h r c a with
         | Some msg => Some msg
         | None => Some m
         end
    else stored ms h r c a.
Proof.
  unfold Save. cbv zeta.
  destruct (default ∅ (default ∅ (default ∅ (messages ms !! H m) !! R m)
                         !! Code m) !! Address m) as [msg|] eqn:Hp.
  - assert (Hst : stored ms (H m) (R m) (Code m) (Address m) = Some msg)
      by (by rewrite stored_default).
    cbv zeta. rewrite (relink_id _ _ _ _ _ _ Hst).
    destruct (negb _); cbn [fst]; (case_decide as Hd; [|done]);
      destruct Hd as (-> & -> & -> & ->); by rewrite Hst.
  - cbn [fst]. rewrite stored_link.
    destruct (decide (h = H m /\ r = R m /\ c = Code m)) as [(-> & -> & ->)|Hk].
    + destruct (decide (a = Address m)) as [->|Ha].
      * rewrite lookup_insert_eq, decide_True by done.
        by rewrite stored_default, Hp.
      * rewrite lookup_insert_ne by done.
        rewrite decide_False by (intros (?&?&?&?); done).
        by rewrite stored_default.
    + rewrite decide_False; [done|]. intros (?&?&?&?). by apply Hk.
Qed.

Lemma newMsgStore_well_keyed : well_keyed newMsgStore.
Proof.
  intros h r c a m'. unfold stored, newMsgStore. cbn. by rewrite lookup_empty.
Qed.

Lemma Save_well_keyed RLPHash ms m :
  well_keyed ms -> well_keyed (Save RLPHash ms m).1.
Proof.
  intros Hwk h r c a m'. rewrite Save_stored. case_decide as Hd.
  - destruct Hd as (-> & -> & -> & ->).
    destruct (stored ms (H m) (R m) (Code m) (Address m)) as [msg|] eqn:Hp.
    + intros [= <-]. by apply Hwk.
    + by intros [= <-].
  - apply Hwk.
Qed.

(** X9. [Save] keeps every message under the key that the message
    names: the empty store is so keyed, and a store that is stays so after
    any [Save], whatever it returns. *)
Theorem Save_keeps_well_keyed RLPHash ms m :
  well_keyed newMsgStore /\
  (well_keyed ms -> well_keyed (Save RLPHash ms m).1).
Proof. split; [apply newMsgStore_well_keyed|apply Save_well_keyed]. Qed.

Lemma Save_keeps_well_keyed_witness :
  well_keyed (Save scenario.positional_hash newMsgStore
                scenario.prevote_r0_s1).1.
Proof.
  apply (Save_keeps_well_keyed scenario.positional_hash newMsgStore
           scenario.prevote_r0_s1).
  apply newMsgStore_well_keyed.
Defined.

(** X10. [removeMsg m] empties the key that [m] names and leaves every
    other key as it was; when no level of the store has that key it does
    nothing. So removing a message right after a [Save] that stored it
    gives back the contents the store had before. *)
Theorem removeMsg_removes_only_its_key RLPHash ms m :
  (forall h r c a,
     stored (removeMsg ms m) h r c a
     = if decide (h = H m /\ r = R m /\ c = Code m /\ a = Address m)
       then None else stored ms h r c a) /\
  (stored ms (H m) (R m) (Code m) (Address m) = None ->
   forall h r c a,
     stored (removeMsg (Save RLPHash ms m).1 m) h r c a = stored ms h r c a).
Proof.
  assert (Hrm : forall ms0 h r c a,
     stored (removeMsg ms0 m) h r c a
     = if decide (h = H m /\ r = R m /\ c = Code m /\ a = Address m)
       then None else stored ms0 h r c a).
  { intros ms0 h r c a. unfold removeMsg.
    destruct (messages ms0 !! H m) as [rm|] eqn:Hh.
    2:{ case_decide as Hd; [|done]. destruct Hd as (-> & _).
        unfold stored. by rewrite Hh. }
    destruct (rm !! R m) as [tm|] eqn:Hr.
    2:{ case_decide as Hd; [|done]. destruct Hd as (-> & -> & _).
        unfold stored. by rewrite Hh, Hr. }
    destruct (tm !! Code m) as [am|] eqn:Hc.
    2:{ case_decide as Hd; [|done]. destruct Hd as (-> & -> & -> & _).
        unfold stored. by rewrite Hh, Hr, Hc. }
    pose proof (stored_link ms0 (H m) (R m) (Code m)
                  (delete (Address m) am) h r c a) as Hl.
    cbn zeta in Hl. rewrite Hh in Hl. cbn in Hl. rewrite Hr in Hl.
    cbn in Hl. cbn [messages]. rewrite Hl. clear Hl.
    destruct (decide (h = H m /\ r = R m /\ c = Code m)) as [(-> & -> & ->)|Hk].
    - destruct (decide (a = Address m)) as [->|Ha].
      + by rewrite lookup_delete_eq, decide_True.
      + rewrite lookup_delete_ne by done.
        rewrite decide_False by (intros (?&?&?&?); done).
        unfold stored. by rewrite Hh, Hr, Hc.
    - rewrite decide_False; [done|]. intros (?&?&?&?). by apply Hk. }
  split; [apply Hrm|].
  intros Hp h r c a. rewrite Hrm, Save_stored.
  case_decide as Hd; [|done]. by destruct Hd as (-> & -> & -> & ->).
Qed.

Lemma removeMsg_removes_only_its_key_witness :
  stored newMsgStore 11 0 MsgPrevote 1 = None /\
  stored (removeMsg (Save scenario.positional_hash newMsgStore
                       scenario.prevote_r0_s1).1 scenario.prevote_r0_s1)
    11 0 MsgPrevote 1
  = stored newMsgStore 11 0 MsgPrevote 1.
Proof.
  split; [reflexivity|].
  apply (proj2 (removeMsg_removes_only_its_key scenario.positional_hash
                  newMsgStore scenario.prevote_r0_s1)).
  reflexivity.
Defined.

(** Loops over a map keep what every step keeps, and end when every step
    does. *)
Lemma range_invariant {V S : Type} (m : gmap Z V)
    (body : Z -> V -> S -> S -> Prop) (P : S -> Prop) :
  (forall k v s s', m !! k = Some v -> P s -> body k v s s' -> P s') ->
  forall s s', P s -> range m body s s' -> P s'.
Proof.
  intros Hbody s s' Hs (entries & Hperm & Hloop).
  assert (Hin : forall kv, kv ∈ entries -> m !! kv.1 = Some kv.2).
  { intros [k v] Hkv. rewrite Hperm in Hkv. by apply elem_of_map_to_list. }
  clear Hperm. revert s Hs Hloop.
  induction entries as [|kv entries IH]; intros s Hs; cbn [for_each].
  - by intros ->.
  - intros (s1 & H1 & Hrest).
    apply (IH (fun kv' Hkv' => Hin kv' (list_elem_of_further _ _ _ Hkv')) s1);
      [|done].
    apply (Hbody kv.1 kv.2 s s1); [|done..].
    apply Hin, list_elem_of_here.
Qed.

Lemma range_total {V S : Type} (m : gmap Z V)
    (body : Z -> V -> S -> S -> Prop) :
  (forall k v s, exists s', body k v s s') ->
  forall s, exists s', range m body s s'.
Proof.
  intros Hbody s.
  assert (Hloop : forall entries s0, exists s',
            for_each (fun kv : Z * V => body kv.1 kv.2) entries s0 s').
  { induction entries as [|kv entries IH]; intros s0; cbn [for_each].
    - by exists s0.
    - destruct (Hbody kv.1 kv.2 s0) as (s1 & H1).
      destruct (IH s1) as (s' & Hs'). exists s', s1. by split. }
  destruct (Hloop (map_to_list m) s) as (s' & Hs').
  exists s', (map_to_list m). by split.
Qed.

(** X11. [DeleteMsgsAtHeight height] returns and leaves no map for the
    height, so [Get] finds nothing there any more. If the messages stored
    at the height name that height, as they do in a store filled by [Save],
    every other height is left as it was. *)
Theorem DeleteMsgsAtHeight_drops_the_height ms height :
  (exists ms', DeleteMsgsAtHeight ms height ms') /\
  forall ms', DeleteMsgsAtHeight ms height ms' ->
    messages ms' !! height = None /\
    (forall query result, Get ms' height query result <-> result = []) /\
    ((forall r c a m, stored ms height r c a = Some m -> H m = height) ->
     messages ms' = delete height (messages ms)).
Proof.
  split.
  - destruct (range_total (default ∅ (messages ms !! height))
      (fun r msgTypeMap =>
        range msgTypeMap (fun c addressMap =>
          range addressMap (fun a m (s s' : MsgStore) =>
            s' = match stored s height r c a with
                 | Some _ => removeMsg s m
                 | None => s
                 end)))) with (s := ms) as (s' & Hs').
    + intros r tm s. apply range_total. intros c am s0.
      apply range_total. intros a m s1. by eexists.
    + eexists. exists s'. by split.
  - intros ms' (s & Hloop & ->). cbn [messages].
    split; [apply lookup_delete_eq|]. split.
    + intros query result. unfold Get. cbn [messages].
      by rewrite lookup_delete_eq.
    + intros Hkey.
      refine (range_invariant _ _
                (fun s => delete height (messages s)
                          = delete height (messages ms)) _ ms s eq_refl Hloop).
      intros r tm s0 s1 Hr Hs0.
      refine (range_invariant _ _
                (fun s => delete height (messages s)
                          = delete height (messages ms)) _ s0 s1 Hs0).
      intros c am s2 s3 Hc Hs2.
      refine (range_invariant _ _
                (fun s => delete height (messages s)
                          = delete height (messages ms)) _ s2 s3 Hs2).
      intros a m s4 s5 Ha Hs4 ->.
      destruct (stored s4 height r c a); [|done].
      assert (Hm : H m = height).
      { apply (Hkey r c a). unfold stored.
        destruct (messages ms !! height) as [rm|]; cbn in Hr;
          [|by rewrite lookup_empty in Hr].
        by rewrite Hr, Hc. }
      rewrite <- Hs4. unfold removeMsg.
      destruct (messages s4 !! H m) as [rm'|]; [|done].
      destruct (rm' !! R m) as [tm'|]; [|done].
      destruct (tm' !! Code m) as [am'|]; [|done].
      cbn [messages]. rewrite Hm. apply delete_insert_eq.
Qed.

Lemma DeleteMsgsAtHeight_drops_the_height_witness :
  exists ms',
    DeleteMsgsAtHeight scenario.two_rounds 11 ms' /\
    messages ms' = delete 11 (messages scenario.two_rounds).
Proof.
  destruct (DeleteMsgsAtHeight_drops_the_height scenario.two_rounds 11)
    as [[ms' Hd] Hall].
  exists ms'. split; [exact Hd|].
  apply (Hall ms' Hd).
  intros r c a m Hst.
  assert (Hwk : well_keyed scenario.two_rounds).
  { unfold scenario.two_rounds, scenario.store_of. cbn [foldl].
    apply Save_well_keyed, Save_well_keyed, newMsgStore_well_keyed. }
  by destruct (Hwk _ _ _ _ _ Hst).
Defined.

(** What any result of [Get] holds. *)
Lemma Get_elem_of ms height query result m :
  Get ms height query result ->
  m ∈ result <->
  query m = true /\ exists r c a, stored ms height r c a = Some m.
Proof.
  intros Hget. rewrite <- elem_of_Get_ascending.
  assert (Hperm : result ≡ₚ Get_ascending ms height query).
  { unfold Get, Get_ascending in *.
    destruct (messages ms !! height) as [roundMap|]; [|by subst].
    destruct (range_appended roundMap _ (fun rm => scan_types query rm.2)
                (fun kv s s' => types_loop_Permutation query kv.2 s s')
                _ _ Hget) as (e & He & ->).
    done. }
  by rewrite Hperm.
Qed.

(** X12. After [Save m], whatever it returned, [Get] returns at any
    height what it returned before, and in addition [m] itself at the
    height of [m] if the key of [m] was free: saving never hides a stored
    message, and a stored message is found by every query that it
    satisfies. *)
Theorem Get_after_Save RLPHash ms m height query result :
  Get (Save RLPHash ms m).1 height query result ->
  forall m', m' ∈ result <->
    query m' = true /\
    ((exists r c a, stored ms height r c a = Some m') \/
     (m' = m /\ height = H m /\
      stored ms (H m) (R m) (Code m) (Address m) = None)).
Proof.
  intros Hget m'. rewrite (Get_elem_of _ _ _ _ _ Hget).
  split; intros [Hq Hst]; (split; [done|]).
  - destruct Hst as (r & c & a & Hst). rewrite Save_stored in Hst.
    case_decide as Hd; [|by eauto 6].
    destruct Hd as (-> & -> & -> & ->).
    destruct (stored ms (H m) (R m) (Code m) (Address m)) eqn:Hp;
      [left; exists (R m), (Code m), (Address m); congruence|].
    right. by injection Hst as <-.
  - destruct Hst as [(r & c & a & Hst)|(-> & -> & Hp)].
    + exists r, c, a. rewrite Save_stored. case_decide as Hd; [|done].
      destruct Hd as (-> & -> & -> & ->). by rewrite Hst.
    + exists (R m), (Code m), (Address m).
      rewrite Save_stored, decide_True by done. by rewrite Hp.
Qed.

Lemma Get_after_Save_witness :
  Get (Save scenario.positional_hash newMsgStore scenario.prevote_r0_s1).1
    11 (fun _ => true) [scenario.prevote_r0_s1] /\
  scenario.prevote_r0_s1 ∈ [scenario.prevote_r0_s1].
Proof.
  pose (ms' := (Save scenario.positional_hash newMsgStore
                  scenario.prevote_r0_s1).1).
  assert (Hget : Get ms' 11 (fun _ => true) [scenario.prevote_r0_s1]).
  { refine (eq_rect _ (Get ms' 11 (fun _ => true))
              (Get_in_order_of_rounds ms' 11 (fun _ => true)
                 (default ∅ (messages ms' !! 11))
                 (ascending (default ∅ (messages ms' !! 11))) _ _)
              _ _).
    - vm_compute. reflexivity.
    - apply ascending_Permutation.
    - vm_compute. reflexivity. }
  split; [exact Hget|].
  apply (Get_after_Save scenario.positional_hash newMsgStore
           scenario.prevote_r0_s1 11 (fun _ => true)
           [scenario.prevote_r0_s1] Hget).
  split; [done|]. right. repeat split.
Defined.

(** What [Save] returns. *)
Lemma Save_result RLPHash ms m :
  (Save RLPHash ms m).2
  = match stored ms (H m) (R m) (Code m) (Address m) with
    | None => (None, None)
    | Some msg =>
        if negb (RLPHash (Payload msg) =? RLPHash (Payload m))
        then (Some msg, Some errEquivocation) else (None, None)
    end.
Proof.
  rewrite stored_default. unfold Save. cbv zeta.
  destruct (default ∅ _ !! Address m) as [msg|]; [|done].
  by destruct (negb _).
Qed.

End msgstore_spec.

(* ===================================================================== *)
(** * Properties of the steps of the message pipeline *)
(* ===================================================================== *)

Module handler_spec.
Import types afd buffer.
Import store_spec msgstore_spec pipeline_spec.

(** The store and the proofs sent after the last stage of [processMsg],
    the [Save]. *)
Lemma save_stage chain fd m :
  let '(ms, (p, err)) := Save (RLPHash chain) (msgStore fd) m in
  let result :=
    match err, p with
    | Some errEquivocation, Some p =>
        (submitMisbehavior chain (set_msgStore ms fd) m [p] errEquivocation,
         Some errEquivocation)
    | _, _ => (set_msgStore ms fd, None)
    end in
  futureMsgs result.1 = futureMsgs fd /\
  match stored_at_key_of (msgStore fd) m with
  | None =>
      result.2 = None /\ sent result.1 = sent fd /\
      stored_at_key_of (msgStore result.1) m = Some m
  | Some msg =>
      stored_at_key_of (msgStore result.1) m = Some msg /\
      if RLPHash chain (Payload msg) =? RLPHash chain (Payload m)
      then result.2 = None /\ sent result.1 = sent fd
      else result.2 = Some errEquivocation /\
           sent result.1
           = sent fd ++ [(ChallengeProof,
                          [(generateOnChainProof chain m [msg] Equivocation).1])]
  end.
Proof.
  pose proof (Save_result (RLPHash chain) (msgStore fd) m) as Hres.
  pose proof (Save_stored (RLPHash chain) (msgStore fd) m
                (H m) (R m) (Code m) (Address m)) as Hst.
  rewrite decide_True in Hst by done.
  destruct (Save (RLPHash chain) (msgStore fd) m) as [ms [p err]].
  cbn [fst snd] in Hres, Hst. unfold stored_at_key_of.
  destruct (stored (msgStore fd) (H m) (R m) (Code m) (Address m)) as [msg|].
  - destruct (RLPHash chain (Payload msg) =? RLPHash chain (Payload m));
      cbn [negb] in Hres; injection Hres as -> ->; cbn zeta.
    + by cbn.
    + unfold submitMisbehavior. cbn [errorToRule].
      destruct (generateOnChainProof chain m [msg] Equivocation)
        as [proof [e|]]; by cbn.
  - injection Hres as -> ->. by cbn.
Qed.

(** X13. A message whose height cannot be read or whose signature is not
    that of a committee member is dropped: [processMsg] returns the error
    and leaves store, buffer, proofs and log as they were. The error is
    that of [Height()] or [errNotCommitteeMsg], never [errFutureMsg]. *)
Theorem unchecked_message_is_dropped chain fd m err :
  checkMsgSignature chain m = Some err ->
  processMsg chain fd m = (fd, Some err) /\
  (err = errNotCommitteeMsg \/
   exists text, HeightErr m = Some text /\ err = errOther text).
Proof.
  intros Hc. split.
  - unfold processMsg. rewrite Hc.
    destruct err; try done. by destruct (checkMsgSignature_not_future chain m).
  - unfold checkMsgSignature in Hc.
    destruct (HeightErr m) as [text|]; [right; exists text; by injection Hc|].
    destruct (_ >? 1) eqn:E.
    + pose proof (Cmp_range (H m) (CurrentHeaderNumber chain)). lia.
    + destruct (Validate _ _ _); [|done]. left. by injection Hc.
Qed.

Lemma unchecked_message_is_dropped_witness :
  processMsg chain_rejecting scenario.newFaultDetector scenario.prevote_r0_s1
  = (scenario.newFaultDetector, Some errNotCommitteeMsg).
Proof.
  apply (unchecked_message_is_dropped chain_rejecting
           scenario.newFaultDetector scenario.prevote_r0_s1
           errNotCommitteeMsg).
  reflexivity.
Defined.

(** X14. A message with a good signature that incriminates itself, by
    being undecodable, a proposal from a node that is not the proposer, a
    proposal of an invalid block, or of an unknown type, is not stored and
    not buffered. One challenge is sent whose evidence is the message
    itself and whose rule is the one [errorToRule] gives the error, which
    for a message of unknown type is [UnknownRule]; the error is
    returned. *)
Theorem incriminating_message_is_challenged chain fd m err :
  checkMsgSignature chain m = None ->
  checkAutoIncriminatingMsg chain m = Some err ->
  err <> errFutureMsg ->
  let fd' := (processMsg chain fd m).1 in
  (processMsg chain fd m).2 = Some err /\
  msgStore fd' = msgStore fd /\ futureMsgs fd' = futureMsgs fd /\
  sent fd'
  = sent fd ++ [(ChallengeProof,
                 [(generateOnChainProof chain m [m] (errorToRule err).1).1])] /\
  (err = errGarbageMsg \/ err = errProposer \/ err = errProposal \/
   err = errUnknownMsg).
Proof.
  intros Hc Ha Hne. unfold processMsg. rewrite Hc, Ha.
  assert (Hcases : err = errGarbageMsg \/ err = errProposer \/
                   err = errProposal \/ err = errUnknownMsg).
  { unfold checkAutoIncriminatingMsg, checkProposal, decodeVote in Ha.
    destruct (Code m =? MsgProposal).
    - destruct (Decode chain m); [simplify_eq; tauto|].
      destruct (negb _); [simplify_eq; tauto|].
      destruct (verifyProposal chain m) as [[]|]; simplify_eq; tauto.
    - destruct (_ || _); [|simplify_eq; tauto].
      destruct (Decode chain m); simplify_eq; tauto. }
  assert (Hf : is_errFutureMsg err = false) by (by destruct err).
  rewrite Hf. cbn [fst snd]. unfold submitMisbehavior.
  destruct (errorToRule err) as [rule [e|]]; cbn [fst];
    destruct (generateOnChainProof chain m [m] rule) as [proof [e'|]];
    by cbn.
Qed.

Lemma incriminating_message_is_challenged_witness :
  let fd' := (processMsg chain_garbling scenario.newFaultDetector
                scenario.prevote_r0_s1).1 in
  msgStore fd' = newMsgStore /\
  sent fd'
  = [(ChallengeProof,
      [(generateOnChainProof chain_garbling scenario.prevote_r0_s1
          [scenario.prevote_r0_s1] GarbageMessage).1])].
Proof.
  destruct (incriminating_message_is_challenged chain_garbling
              scenario.newFaultDetector scenario.prevote_r0_s1 errGarbageMsg
              eq_refl eq_refl) as (_ & H1 & _ & H2 & _); [discriminate|].
  split; [exact H1|exact H2].
Defined.

(** X15. A message that passes both checks reaches [Save] and the buffer
    is left alone. If its key is free it is stored and nil is returned. If
    the key holds a message of the same payload hash, nothing changes and
    nil is returned. If the key holds a message of another payload hash,
    that first message stays, [errEquivocation] is returned, and one
    challenge is sent with rule [Equivocation] and the first message as
    evidence. *)
Theorem checked_message_is_saved chain fd m :
  checkMsgSignature chain m = None ->
  checkAutoIncriminatingMsg chain m = None ->
  let result := processMsg chain fd m in
  futureMsgs result.1 = futureMsgs fd /\
  match stored_at_key_of (msgStore fd) m with
  | None =>
      result.2 = None /\ sent result.1 = sent fd /\
      stored_at_key_of (msgStore result.1) m = Some m
  | Some msg =>
      stored_at_key_of (msgStore result.1) m = Some msg /\
      if RLPHash chain (Payload msg) =? RLPHash chain (Payload m)
      then result.2 = None /\ sent result.1 = sent fd
      else result.2 = Some errEquivocation /\
           sent result.1
           = sent fd ++ [(ChallengeProof,
                          [(generateOnChainProof chain m [msg] Equivocation).1])]
  end.
Proof.
  intros Hc Ha. unfold processMsg. rewrite Hc, Ha.
  pose proof (save_stage chain fd m) as Hs.
  by destruct (Save (RLPHash chain) (msgStore fd) m) as [ms [p err]].
Qed.

Lemma checked_message_is_saved_witness :
  let chain := scenario.chain_at 10 in
  let fd := (processMsg chain scenario.newFaultDetector
               scenario.prevote_r0_s1).1 in
  let result := processMsg chain fd scenario.prevote_r0_s1' in
  stored_at_key_of (msgStore result.1) scenario.prevote_r0_s1'
  = Some scenario.prevote_r0_s1 /\
  result.2 = Some errEquivocation /\
  sent result.1
  = [(ChallengeProof,
      [(generateOnChainProof chain scenario.prevote_r0_s1'
          [scenario.prevote_r0_s1] Equivocation).1])].
Proof.
  intros chain fd result.
  destruct (checked_message_is_saved chain fd scenario.prevote_r0_s1'
              eq_refl eq_refl) as (_ & H1).
  exact H1.
Defined.

(** X16. A proposal with a good signature whose block the verifier finds
    to be a future block is appended to the bucket of its height, and it is
    handed to [Save] all the same: afterwards its key in the store holds it
    or the message that was there before. *)
Theorem future_proposal_is_buffered_and_saved chain fd m :
  checkMsgSignature chain m = None ->
  checkAutoIncriminatingMsg chain m = Some errFutureMsg ->
  let fd' := (processMsg chain fd m).1 in
  Code m = MsgProposal /\ verifyProposal chain m = Some ErrFutureBlock /\
  futureMsgs fd'
  = <[H m := default [] (futureMsgs fd !! H m) ++ [m]]> (futureMsgs fd) /\
  stored_at_key_of (msgStore fd') m
  = Some (default m (stored_at_key_of (msgStore fd) m)).
Proof.
  intros Hc Ha.
  assert (Hh : HeightErr m = None).
  { unfold checkMsgSignature in Hc. by destruct (HeightErr m). }
  assert (Hprop : Code m = MsgProposal /\
                  verifyProposal chain m = Some ErrFutureBlock).
  { unfold checkAutoIncriminatingMsg, checkProposal, decodeVote in Ha.
    destruct (Z.eqb_spec (Code m) MsgProposal).
    - destruct (Decode chain m); [done|]. destruct (negb _); [done|].
      by destruct (verifyProposal chain m) as [[]|].
    - destruct (_ || _); [|done]. by destruct (Decode chain m). }
  destruct Hprop as [Hcode Hv]. cbn zeta.
  unfold processMsg. rewrite Hc, Ha. cbn [is_errFutureMsg].
  pose proof (save_stage chain (bufferMsg fd m) m) as Hs.
  destruct (Save (RLPHash chain) (msgStore (bufferMsg fd m)) m)
    as [ms [p err]].
  cbv beta iota zeta in Hs. cbv beta iota zeta. destruct Hs as [Hf Hst].
  assert (Hb : futureMsgs (bufferMsg fd m)
               = <[H m := default [] (futureMsgs fd !! H m) ++ [m]]>
                   (futureMsgs fd)).
  { unfold bufferMsg. by rewrite Hh. }
  assert (Hms : msgStore (bufferMsg fd m) = msgStore fd).
  { unfold bufferMsg. by rewrite Hh. }
  rewrite Hms in Hst.
  repeat split; try done.
  - by rewrite Hf.
  - destruct (stored_at_key_of (msgStore fd) m) as [msg|].
    + destruct Hst as [Hst _]. exact Hst.
    + destruct Hst as (_ & _ & Hst). exact Hst.
Qed.

Lemma future_proposal_is_buffered_and_saved_witness :
  let fd' := (processMsg (scenario.chain_at 3) scenario.newFaultDetector
                scenario.proposal_h20).1 in
  futureMsgs fd' !! 20 = Some [scenario.proposal_h20] /\
  stored_at_key_of (msgStore fd') scenario.proposal_h20
  = Some scenario.proposal_h20.
Proof.
  destruct (future_proposal_is_buffered_and_saved (scenario.chain_at 3)
              scenario.newFaultDetector scenario.proposal_h20
              eq_refl eq_refl) as (_ & _ & H1 & H2).
  split; [|exact H2]. rewrite H1. reflexivity.
Defined.

(** ** The buffer under [processMsg] and under replay *)

(** [processMsg] leaves the buffer alone or appends the message to the
    bucket of its height. *)
Lemma processMsg_buffer chain fd m :
  futureMsgs (processMsg chain fd m).1 = futureMsgs fd \/
  (HeightErr m = None /\
   futureMsgs (processMsg chain fd m).1
   = <[H m := default [] (futureMsgs fd !! H m) ++ [m]]> (futureMsgs fd)).
Proof.
  unfold processMsg.
  destruct (checkMsgSignature chain m) as [err|] eqn:Hc.
  - left. destruct err; try done.
    by destruct (checkMsgSignature_not_future chain m).
  - assert (Hh : HeightErr m = None).
    { unfold checkMsgSignature in Hc. by destruct (HeightErr m). }
    destruct (checkAutoIncriminatingMsg chain m) as [err|].
    + destruct (is_errFutureMsg err).
      * right. split; [done|].
        pose proof (save_stage chain (bufferMsg fd m) m) as Hs.
        destruct (Save (RLPHash chain) (msgStore (bufferMsg fd m)) m)
          as [ms [p e]].
        destruct Hs as [Hs _]. cbv beta iota zeta. rewrite Hs.
        unfold bufferMsg. by rewrite Hh.
      * left. cbn [fst]. apply submitMisbehavior_futureMsgs.
    + left. pose proof (save_stage chain fd m) as Hs.
      destruct (Save (RLPHash chain) (msgStore fd) m) as [ms [p e]].
      by destruct Hs as [Hs _].
Qed.

Lemma insert_bucket_by_height fd fd' m :
  by_height fd -> HeightErr m = None ->
  futureMsgs fd'
  = <[H m := default [] (futureMsgs fd !! H m) ++ [m]]> (futureMsgs fd) ->
  by_height fd'.
Proof.
  intros Hby Hh Hf k msgs m' Hk Hm'. rewrite Hf in Hk.
  destruct (decide (k = H m)) as [->|Hne].
  - rewrite lookup_insert_eq in Hk. injection Hk as <-.
    apply elem_of_app in Hm' as [Hm'|Hm'].
    + destruct (futureMsgs fd !! H m) as [old|] eqn:Ho; cbn in Hm';
        [by eapply Hby|by apply elem_of_nil in Hm'].
    + by apply list_elem_of_singleton in Hm' as ->.
  - rewrite lookup_insert_ne in Hk by done. by eapply Hby.
Qed.

Lemma processMsg_by_height chain fd m :
  by_height fd -> by_height (processMsg chain fd m).1.
Proof.
  intros Hby. destruct (processMsg_buffer chain fd m) as [Hf|[Hh Hf]].
  - intros k msgs m' Hk. rewrite Hf in Hk. by eapply Hby.
  - by eapply insert_bucket_by_height.
Qed.

(** X17. In a detector that starts with an empty buffer every buffered
    message sits in the bucket of its own height: the empty buffer is so
    ordered, and [processMsg], the only code that buffers, keeps it so. *)
Theorem buffer_stays_by_height chain fd m :
  by_height scenario.newFaultDetector /\
  (by_height fd -> by_height (processMsg chain fd m).1).
Proof.
  split; [|apply processMsg_by_height].
  intros k msgs m' Hk. cbn in Hk. by rewrite lookup_empty in Hk.
Qed.

Lemma newFaultDetector_by_height : by_height scenario.newFaultDetector.
Proof. intros k msgs m' Hk. cbn in Hk. by rewrite lookup_empty in Hk. Qed.

Lemma buffer_stays_by_height_witness : by_height scenario.buffered.
Proof.
  unfold scenario.buffered.
  apply (buffer_stays_by_height (scenario.chain_at 3)
           (processMsg (scenario.chain_at 3) scenario.newFaultDetector
              scenario.proposal_h5).1 scenario.proposal_h20).
  apply processMsg_by_height, newFaultDetector_by_height.
Defined.

(** Replaying a bucket of height [k] touches no other bucket. *)
Lemma replay_other_buckets chain k msgs s :
  by_height s.1 -> (forall m, m ∈ msgs -> H m = k) ->
  by_height (replay chain msgs s).1 /\
  forall k', k' <> k ->
    futureMsgs (replay chain msgs s).1 !! k' = futureMsgs s.1 !! k'.
Proof.
  revert s. induction msgs as [|m msgs IH]; intros s Hby Hk; cbn [replay].
  - done.
  - assert (Hm : H m = k) by (apply Hk, list_elem_of_here).
    pose proof (processMsg_by_height chain s.1 m Hby) as Hby1.
    pose proof (processMsg_buffer chain s.1 m) as Hbuf.
    destruct (processMsg chain s.1 m) as [fd err]. cbn [fst] in Hby1, Hbuf.
    match goal with
    | |- context [replay chain msgs (?fd', ?h)] =>
        assert (Hlog : futureMsgs fd' = futureMsgs fd) by (by destruct err);
        destruct (IH (fd', h)) as [IH1 IH2]
    end.
    + intros k0 ms0 m0. cbn [fst]. rewrite Hlog. apply Hby1.
    + intros m0 Hm0. by apply Hk, list_elem_of_further.
    + split; [exact IH1|]. intros k' Hne. rewrite (IH2 k' Hne).
      cbn [fst]. rewrite Hlog.
      destruct Hbuf as [->|[_ ->]]; [done|].
      rewrite lookup_insert_ne; [done|congruence].
Qed.

Lemma loop_once chain entries :
  forall s s' : FaultDetector * list ConsensusMessage,
  by_height s.1 -> NoDup entries.*1 ->
  (forall k v, (k, v) ∈ entries -> futureMsgs s.1 !! k = Some v) ->
  for_each (fun (kv : Z * list ConsensusMessage) s s' =>
      let msgs := default [] (futureMsgs s.1 !! kv.1) in
      if kv.1 <=? kv.1 then s' = replay chain msgs s else s' = s)
    entries s s' ->
  by_height s'.1 /\ s'.2 = s.2 ++ concat entries.*2.
Proof.
  induction entries as [|[k v] entries IH]; intros s s' Hby Hnd Hcur;
    cbn [for_each].
  - intros ->. split; [done|]. by rewrite app_nil_r.
  - intros (s1 & Hvisit & Hrest). cbn zeta in Hvisit.
    rewrite Z.leb_refl in Hvisit. cbn [fst] in Hvisit.
    rewrite (Hcur k v (list_elem_of_here _ _)) in Hvisit. cbn in Hvisit.
    subst s1.
    apply NoDup_cons in Hnd as [Hk Hnd].
    destruct (replay_other_buckets chain k v s Hby) as [Hby1 Hother].
    { intros m Hm. by destruct (Hby k v m (Hcur k v (list_elem_of_here _ _)) Hm). }
    destruct (replay_spec chain v s) as [_ Hh].
    destruct (IH (replay chain v s) s' Hby1 Hnd) as [Hby' Hs']; [|done|].
    + intros k' v' Hel. rewrite Hother.
      * apply Hcur. by apply list_elem_of_further.
      * intros ->. apply Hk.
        by apply (list_elem_of_fmap_2 fst entries (k, v')).
    + split; [done|]. rewrite Hs', Hh. cbn. by rewrite app_assoc.
Qed.

(** X18. When every buffered message sits in the bucket of its height,
    [processBufferedMsgs] hands each of them to [processMsg] exactly once,
    whatever the height it is called with, and the buffer stays ordered by
    height. *)
Theorem buffered_messages_are_replayed_once chain height fd fd' handled :
  by_height fd ->
  processBufferedMsgs chain height fd fd' handled ->
  handled ≡ₚ concat (map_to_list (futureMsgs fd)).*2 /\ by_height fd'.
Proof.
  intros Hby (entries & Hperm & Hloop).
  destruct (loop_once chain entries (fd, []) (fd', handled)) as [Hby' Hh];
    try done.
  - rewrite Hperm. apply NoDup_fst_map_to_list.
  - intros k v Hel. rewrite Hperm in Hel. by apply elem_of_map_to_list.
  - split; [|done]. cbn in Hh. rewrite Hh. by rewrite Hperm.
Qed.

Lemma buffered_messages_are_replayed_once_witness :
  scenario.replayed.2
  ≡ₚ concat (map_to_list (futureMsgs scenario.buffered)).*2.
Proof.
  apply (buffered_messages_are_replayed_once (scenario.chain_at 10) 10
           scenario.buffered scenario.replayed.1 scenario.replayed.2).
  - unfold scenario.buffered.
    apply processMsg_by_height, processMsg_by_height,
      newFaultDetector_by_height.
  - exact (processBufferedMsgs_in_map_order (scenario.chain_at 10) 10
             scenario.buffered).
Defined.

End handler_spec.

(* ===================================================================== *)
(** * Properties of the rule engine *)
(* ===================================================================== *)

Module rule_engine_spec.
Import types afd rule_engine.
Import store_spec msgstore_spec rules_spec.

Lemma powerOfVotes_0 votes : powerOfVotes votes = 0.
Proof. apply powerOfVotes_loop_skips. Qed.

(** [Get] always has a result. *)
Lemma Get_total ms height query : exists result, Get ms height query result.
Proof.
  exists (Get_ascending ms height query). unfold Get_ascending.
  destruct (messages ms !! height) as [roundMap|] eqn:Hh.
  - eapply Get_in_order_of_rounds; [done|apply ascending_Permutation].
  - unfold Get. by rewrite Hh.
Qed.

Lemma Get_held ms height query result m :
  Get ms height query result -> m ∈ result <-> held ms height query m.
Proof. apply Get_elem_of. Qed.

Lemma Get_none_held ms height query m :
  Get ms height query [] -> ~ held ms height query m.
Proof. intros Hget Hh. by apply (Get_held _ _ _ _ _ Hget), elem_of_nil in Hh. Qed.

(** Loops over a slice keep what every step keeps, and end when every
    step does. *)
Lemma for_each_invariant {A S : Type} (body : A -> S -> S -> Prop)
    (P : S -> Prop) l :
  (forall x s s', x ∈ l -> P s -> body x s s' -> P s') ->
  forall s s', P s -> for_each body l s s' -> P s'.
Proof.
  induction l as [|x l IH]; intros Hbody s s' Hs; cbn [for_each].
  - by intros ->.
  - intros (s1 & H1 & Hrest). apply (IH (fun y s0 s0' Hy => Hbody y s0 s0'
      (list_elem_of_further _ _ _ Hy)) s1); [|done].
    apply (Hbody x s s1); [apply list_elem_of_here|done..].
Qed.

Lemma for_each_total {A S : Type} (body : A -> S -> S -> Prop) l :
  (forall x s, exists s', body x s s') ->
  forall s, exists s', for_each body l s s'.
Proof.
  intros Hbody. induction l as [|x l IH]; intros s; cbn [for_each].
  - by exists s.
  - destruct (Hbody x s) as (s1 & H1). destruct (IH s1) as (s' & Hs').
    exists s', s1. by split.
Qed.

Lemma findings_add_proof ms quorum height p f :
  findings_of ms quorum height f -> proof_of ms quorum height p ->
  findings_of ms quorum height (add_proof p f).
Proof.
  intros [Hp Ha] Hnew. split; [|done]. cbn. apply Forall_app. by split; [|constructor].
Qed.

Lemma findings_add_accusation ms quorum height p f :
  findings_of ms quorum height f -> accusation_of ms quorum height p ->
  findings_of ms quorum height (add_accusation p f).
Proof.
  intros [Hp Ha] Hnew. split; [done|]. cbn. apply Forall_app. by split; [|constructor].
Qed.

Lemma PN_step_findings ms quorum height proposal f f' :
  held ms height q_proposalsNew proposal ->
  findings_of ms quorum height f -> PN_step ms height proposal f f' ->
  findings_of ms quorum height f'.
Proof.
  intros Hheld Hf (precommits & Hget & ->).
  destruct precommits as [|e precommits]; [done|].
  apply findings_add_proof; [done|]. by apply proof_PN.
Qed.

Lemma PO_step_findings ms quorum height proposal f f' :
  held ms height q_proposalsOld proposal ->
  findings_of ms quorum height f -> PO_step ms quorum height proposal f f' ->
  findings_of ms quorum height f'.
Proof.
  intros Hheld Hf (pc & pc' & pv & Hpc & Hpc' & Hpv & ->).
  assert (H1 : findings_of ms quorum height
                 match pc with
                 | [] => f
                 | _ => add_proof {| Proof_Rule := PO; Proof_Evidence := pc;
                                     Proof_Message := proposal |} f
                 end).
  { destruct pc; [done|]. apply findings_add_proof; [done|]. by apply proof_PO_at. }
  assert (H2 : findings_of ms quorum height
                 match pc' with
                 | [] => match pc with
                         | [] => f
                         | _ => add_proof {| Proof_Rule := PO; Proof_Evidence := pc;
                                             Proof_Message := proposal |} f
                         end
                 | _ => add_proof {| Proof_Rule := PO; Proof_Evidence := pc';
                                     Proof_Message := proposal |}
                          match pc with
                          | [] => f
                          | _ => add_proof {| Proof_Rule := PO; Proof_Evidence := pc;
                                              Proof_Message := proposal |} f
                          end
                 end).
  { destruct pc'; [done|]. apply findings_add_proof; [done|].
    by apply proof_PO_after. }
  destruct (Z.ltb_spec (powerOfVotes pv) quorum); [|done].
  apply findings_add_accusation; [done|]. by eapply accusation_PO.
Qed.

Lemma precommit_step_findings ms quorum height prevote proposal precommit f f' :
  held ms height q_prevotes prevote ->
  held ms height (q_proposal_for prevote) proposal ->
  held ms height q_precommits precommit ->
  findings_of ms quorum height f ->
  precommit_step ms quorum height precommit f f' ->
  findings_of ms quorum height f'.
Proof.
  intros Hpv Hcp Hpc Hf (proposals & Hget & Hrest).
  destruct proposals as [|proposal' proposals].
  - subst f'. apply findings_add_accusation; [done|].
    eapply accusation_C; [done..|]. intros m. by apply Get_none_held.
  - destruct Hrest as (notV & forV & HnotV & HforV & ->).
    assert (Hp' : held ms height (q_proposal_for precommit) proposal').
    { apply (Get_held _ _ _ _ _ Hget), list_elem_of_here. }
    destruct (Z.geb_spec (powerOfVotes notV) quorum).
    + apply findings_add_proof; [done|]. by eapply proof_C.
    + destruct (Z.ltb_spec (powerOfVotes forV) quorum); [|done].
      apply findings_add_accusation; [done|]. by eapply accusation_C1.
Qed.

Lemma precommit_section_findings ms quorum height prevote proposal f f' :
  held ms height q_prevotes prevote ->
  held ms height (q_proposal_for prevote) proposal ->
  findings_of ms quorum height f ->
  precommit_section ms quorum height f f' ->
  findings_of ms quorum height f'.
Proof.
  intros Hpv Hcp Hf (precommits & Hget & Hloop).
  revert Hloop. apply for_each_invariant; [|done].
  intros precommit s s' Hel Hs.
  apply (precommit_step_findings _ _ _ prevote proposal); try done.
  by apply (Get_held _ _ _ _ _ Hget).
Qed.

Lemma proposals_loop_findings ms quorum height prevote cps :
  held ms height q_prevotes prevote ->
  (forall cp, cp ∈ cps -> held ms height (q_proposal_for prevote) cp) ->
  forall f f', findings_of ms quorum height f ->
    proposals_loop ms quorum height prevote cps f f' ->
    findings_of ms quorum height f'.
Proof.
  intros Hpv. induction cps as [|cp cps IH]; intros Hcps f f' Hf;
    cbn [proposals_loop].
  - by intros ->.
  - assert (Hcp : held ms height (q_proposal_for prevote) cp)
      by apply Hcps, list_elem_of_here.
    assert (Hrest : forall cp', cp' ∈ cps ->
              held ms height (q_proposal_for prevote) cp')
      by (intros cp' Hel; by apply Hcps, list_elem_of_further).
    destruct (Z.eqb_spec (ValidRound cp) (-1)) as [Hvr|_].
    + intros (precommits & Hget & Hcont).
      destruct precommits as [|e precommits].
      * destruct Hcont as (f1 & Hsec & Hloop).
        apply (IH Hrest f1); [|done].
        by apply (precommit_section_findings _ _ _ prevote cp f).
      * subst f'. apply findings_add_proof; [done|]. by apply proof_PVN.
    + intros (precommits & Hget & f1 & Hsec & Hloop).
      apply (IH Hrest f1); [|done].
      by apply (precommit_section_findings _ _ _ prevote cp f).
Qed.

Lemma prevote_step_findings ms quorum height prevote f f' :
  held ms height q_prevotes prevote ->
  findings_of ms quorum height f ->
  prevote_step ms quorum height prevote f f' ->
  findings_of ms quorum height f'.
Proof.
  intros Hpv Hf (cps & Hget & Hloop). cbn zeta in Hloop.
  revert Hloop. apply proposals_loop_findings; [done|..].
  - intros cp Hel. by apply (Get_held _ _ _ _ _ Hget).
  - destruct cps; [|done]. apply findings_add_accusation; [done|].
    apply accusation_PVN; [done|]. intros m. by apply Get_none_held.
Qed.

(** Every finding of [runRules] is of one of the kinds above. *)
Lemma runRules_findings ms quorum height result :
  runRules ms quorum height result -> findings_of ms quorum height result.
Proof.
  intros (pn & f1 & po & f2 & pv & Hpn & Hl1 & Hpo & Hl2 & Hpv & Hl3).
  assert (H1 : findings_of ms quorum height f1).
  { revert Hl1. apply for_each_invariant; [|by split].
    intros proposal s s' Hel Hs. apply PN_step_findings; [|done].
    by apply (Get_held _ _ _ _ _ Hpn). }
  assert (H2 : findings_of ms quorum height f2).
  { revert Hl2. apply for_each_invariant; [|done].
    intros proposal s s' Hel Hs. apply PO_step_findings; [|done].
    by apply (Get_held _ _ _ _ _ Hpo). }
  revert Hl3. apply for_each_invariant; [|done].
  intros prevote s s' Hel Hs. apply prevote_step_findings; [|done].
  by apply (Get_held _ _ _ _ _ Hpv).
Qed.

(** [runRules_ascending] is one of the results of [runRules]. *)
Lemma Get_ascending_Get ms height query :
  Get ms height query (Get_ascending ms height query).
Proof.
  unfold Get_ascending.
  destruct (messages ms !! height) as [roundMap|] eqn:Hh.
  - eapply Get_in_order_of_rounds; [done|apply ascending_Permutation].
  - unfold Get. by rewrite Hh.
Qed.

Lemma for_each_foldl {A S : Type} (body : A -> S -> S -> Prop)
    (g : S -> A -> S) l :
  (forall x s, body x s (g s x)) ->
  forall s, for_each body l s (foldl g s l).
Proof.
  intros Hbody. induction l as [|x l IH]; intros s; cbn [for_each foldl].
  - done.
  - exists (g s x). by split.
Qed.

Lemma precommit_section_ascending_run ms quorum height f :
  precommit_section ms quorum height f
    (precommit_section_ascending ms quorum height f).
Proof.
  exists (Get_ascending ms height q_precommits).
  split; [apply Get_ascending_Get|].
  apply (for_each_foldl _ (precommit_step_ascending ms quorum height)).
  intros precommit s. exists (Get_ascending ms height (q_proposal_for precommit)).
  split; [apply Get_ascending_Get|]. unfold precommit_step_ascending.
  destruct (Get_ascending ms height (q_proposal_for precommit)); [done|].
  exists (Get_ascending ms height (q_prevotesForNotV precommit)),
    (Get_ascending ms height (q_prevotesForV precommit)).
  split; [apply Get_ascending_Get|].
  split; [apply Get_ascending_Get|done].
Qed.

Lemma proposals_loop_ascending_run ms quorum height prevote cps :
  forall f, proposals_loop ms quorum height prevote cps f
              (proposals_loop_ascending ms quorum height prevote cps f).
Proof.
  induction cps as [|cp cps IH]; intros f;
    cbn [proposals_loop proposals_loop_ascending]; [done|].
  destruct (ValidRound cp =? -1).
  - exists (Get_ascending ms height (q_PVN_precommits prevote)).
    split; [apply Get_ascending_Get|].
    destruct (Get_ascending ms height (q_PVN_precommits prevote)); [|done].
    eexists. split; [apply precommit_section_ascending_run|apply IH].
  - exists (Get_ascending ms height (q_PVO_precommits prevote)).
    split; [apply Get_ascending_Get|].
    eexists. split; [apply precommit_section_ascending_run|apply IH].
Qed.

Lemma runRules_ascending_run ms quorum height :
  runRules ms quorum height (runRules_ascending ms quorum height).
Proof.
  unfold runRules, runRules_ascending. cbv zeta.
  exists (Get_ascending ms height q_proposalsNew),
    (foldl (PN_step_ascending ms height) ([], [])
       (Get_ascending ms height q_proposalsNew)),
    (Get_ascending ms height q_proposalsOld),
    (foldl (PO_step_ascending ms quorum height)
       (foldl (PN_step_ascending ms height) ([], [])
          (Get_ascending ms height q_proposalsNew))
       (Get_ascending ms height q_proposalsOld)),
    (Get_ascending ms height q_prevotes).
  split; [apply Get_ascending_Get|]. split.
  { apply (for_each_foldl _ (PN_step_ascending ms height)).
    intros proposal s.
    exists (Get_ascending ms height (q_PN_precommits proposal)).
    split; [apply Get_ascending_Get|]. unfold PN_step_ascending.
    by destruct (Get_ascending ms height (q_PN_precommits proposal)). }
  split; [apply Get_ascending_Get|]. split.
  { apply (for_each_foldl _ (PO_step_ascending ms quorum height)).
    intros proposal s.
    exists (Get_ascending ms height (q_PO_precommits_at proposal)),
      (Get_ascending ms height (q_PO_precommits_after proposal)),
      (Get_ascending ms height (q_PO_prevotes proposal)).
    split; [apply Get_ascending_Get|]. split; [apply Get_ascending_Get|].
    split; [apply Get_ascending_Get|]. unfold PO_step_ascending.
    by destruct (Get_ascending ms height (q_PO_precommits_at proposal)),
      (Get_ascending ms height (q_PO_precommits_after proposal)). }
  split; [apply Get_ascending_Get|].
  apply (for_each_foldl _ (prevote_step_ascending ms quorum height)).
  intros prevote s.
  exists (Get_ascending ms height (q_proposal_for prevote)).
  split; [apply Get_ascending_Get|]. apply proposals_loop_ascending_run.
Qed.

(** ** Proofs of innocence *)



(** X20. Against an accusation of [PVN] or [C] innocence is proved
    exactly when the store holds, at the height of the accused message, a
    proposal for its value in its round. If it does not, both functions
    answer "node is malicious" with an empty proof. If it does, the
    evidence is the list of all such proposals; [GetInnocentProofOfC]
    passes an encoding error on, [GetInnocentProofOfPVN] returns nil for
    it. *)
Theorem PVN_and_C_innocence_needs_the_proposal chain ms c :
  let m := Proof_Message c in
  (exists result, GetInnocentProofOfPVN chain ms c result) /\
  (exists result, GetInnocentProofOfC chain ms c result) /\
  (forall result, GetInnocentProofOfPVN chain ms c result ->
     ((forall p, ~ held ms (H m) (q_proposal_for m) p) ->
        result = (no_proof, Some (errOther "node is malicious"))) /\
     (forall p, held ms (H m) (q_proposal_for m) p ->
        exists proposals,
          (forall p', p' ∈ proposals <-> held ms (H m) (q_proposal_for m) p') /\
          result = ((generateOnChainProof chain m proposals (Proof_Rule c)).1,
                    None))) /\
  (forall result, GetInnocentProofOfC chain ms c result ->
     ((forall p, ~ held ms (H m) (q_proposal_for m) p) ->
        result = (no_proof, Some (errOther "node is malicious"))) /\
     (forall p, held ms (H m) (q_proposal_for m) p ->
        exists proposals,
          (forall p', p' ∈ proposals <-> held ms (H m) (q_proposal_for m) p') /\
          result = generateOnChainProof chain m proposals (Proof_Rule c))).
Proof.
  intros m. split; [|split; [|split]].
  - destruct (Get_total ms (H m) (q_proposal_for m)) as (ps & Hps).
    eexists. exists ps. by split.
  - destruct (Get_total ms (H m) (q_proposal_for m)) as (ps & Hps).
    eexists. exists ps. by split.
  - intros result (ps & Hget & ->). split.
    + intros Hnone. destruct ps as [|p ps]; [done|].
      destruct (Hnone p). apply (Get_held _ _ _ _ _ Hget), list_elem_of_here.
    + intros p Hp. apply (Get_held _ _ _ _ _ Hget) in Hp.
      destruct ps as [|p0 ps]; [by apply elem_of_nil in Hp|].
      exists (p0 :: ps). split; [|done]. intros p'. by apply Get_held.
  - intros result (ps & Hget & ->). split.
    + intros Hnone. destruct ps as [|p ps]; [done|].
      destruct (Hnone p). apply (Get_held _ _ _ _ _ Hget), list_elem_of_here.
    + intros p Hp. apply (Get_held _ _ _ _ _ Hget) in Hp.
      destruct ps as [|p0 ps]; [by apply elem_of_nil in Hp|].
      exists (p0 :: ps). split; [|done]. intros p'. by apply Get_held.
Qed.

Lemma PVN_and_C_innocence_needs_the_proposal_witness :
  let c := {| Proof_Rule := PVN; Proof_Message := scenario.prevote_r0_s1;
              Proof_Evidence := [] |} in
  exists result,
    GetInnocentProofOfPVN (scenario.chain_at 10) scenario.two_rounds c result /\
    result = (no_proof, Some (errOther "node is malicious")).
Proof.
  intros c.
  destruct (PVN_and_C_innocence_needs_the_proposal (scenario.chain_at 10)
              scenario.two_rounds c) as ([result Hr] & _ & Hall & _).
  exists result. split; [exact Hr|].
  apply (Hall result Hr).
  intros p (Hq & r & k & a & Hst).
  assert (Hin : p ∈ Get_ascending scenario.two_rounds 11 (fun _ => true)).
  { apply elem_of_Get_ascending. split; [done|]. by exists r, k, a. }
  assert (Hl : Get_ascending scenario.two_rounds 11 (fun _ => true)
               = [scenario.prevote_r0_s1; scenario.prevote_r1_s1])
    by (vm_compute; reflexivity).
  rewrite Hl in Hin.
  apply elem_of_cons in Hin as [->|Hin]; [discriminate Hq|].
  apply list_elem_of_singleton in Hin as ->. discriminate Hq.
Defined.

(** ** The findings of [runRules] *)

(** Reading a query back from its answer. *)
Ltac unpack H :=
  unfold q_proposalsNew, q_PN_precommits, q_proposalsOld, q_PO_precommits_at,
    q_PO_precommits_after, q_PO_prevotes, q_prevotes, q_proposal_for,
    q_PVN_precommits, q_PVO_precommits, q_precommits, q_prevotesForNotV,
    q_prevotesForV, is_proposal, is_prevote, is_precommit in H;
  repeat match type of H with
         | _ && _ = true =>
             let H' := fresh H in apply andb_prop in H as [H H']
         end;
  repeat match goal with
         | H0 : negb _ = true |- _ => apply negb_true_iff in H0
         | H0 : (_ =? _) = true |- _ => apply Z.eqb_eq in H0
         | H0 : (_ =? _) = false |- _ => apply Z.eqb_neq in H0
         | H0 : (_ <? _) = true |- _ => apply Z.ltb_lt in H0
         | H0 : (_ >? _) = true |- _ => apply Z.gtb_lt in H0
         end.

(** X21. A proof that [runRules] raises against a proposal is sound as
    far as the store goes. Under rule [PN] the message is a stored proposal
    with valid round -1, and the evidence is a non-empty list of stored
    precommits of the proposer, for values other than nil, in rounds before
    the proposal's. Under rule [PO] the message is a stored proposal with a
    valid round of 0 or more, and the evidence is a non-empty list of
    stored precommits of the proposer for values other than nil, each
    either in the valid round for a value other than the proposed one, or
    in a round between the valid round and the proposal's. *)
Theorem proposal_proofs_are_sound ms quorum height proofs accusations p :
  runRules ms quorum height (proofs, accusations) -> p ∈ proofs ->
  let m := Proof_Message p in
  (Proof_Rule p = PN ->
     (exists r c a, stored ms height r c a = Some m) /\
     Code m = MsgProposal /\ ValidRound m = -1 /\
     Proof_Evidence p <> [] /\
     forall e, e ∈ Proof_Evidence p ->
       (exists r c a, stored ms height r c a = Some e) /\
       Code e = MsgPrecommit /\ Address e = Address m /\
       Value e <> nilValue /\ R e < R m) /\
  (Proof_Rule p = PO ->
     (exists r c a, stored ms height r c a = Some m) /\
     Code m = MsgProposal /\ -1 < ValidRound m /\
     Proof_Evidence p <> [] /\
     forall e, e ∈ Proof_Evidence p ->
       (exists r c a, stored ms height r c a = Some e) /\
       Code e = MsgPrecommit /\ Address e = Address m /\
       Value e <> nilValue /\
       ((R e = ValidRound m /\ Value e <> Value m) \/
        ValidRound m < R e < R m)).
Proof.
  intros Hrun Hp m.
  destruct (runRules_findings _ _ _ _ Hrun) as [Hproofs _].
  cbn [fst] in Hproofs. rewrite Forall_forall in Hproofs.
  specialize (Hproofs p Hp). subst m.
  destruct Hproofs as [m ev [Hq Hst] Hget Hne|m ev [Hq Hst] Hget Hne
                      |m ev [Hq Hst] Hget Hne|? ? ? ? ? ? ? ?|? ? ? ? ? ? ? ? ? ? ?];
    cbn [Proof_Rule Proof_Message Proof_Evidence];
    (split; [intros Hr; try discriminate Hr|intros Hr; try discriminate Hr]).
  - unpack Hq. split_and!; try done. intros e He.
    apply (Get_held _ _ _ _ _ Hget) in He as [He Hste]. unpack He.
    split_and!; done.
  - unpack Hq. split_and!; try done. intros e He.
    apply (Get_held _ _ _ _ _ Hget) in He as [He Hste]. unpack He.
    split_and!; try done. left. by split.
  - unpack Hq. split_and!; try done. intros e He.
    apply (Get_held _ _ _ _ _ Hget) in He as [He Hste]. unpack He.
    split_and!; try done. right. lia.
Qed.

(** X22. A proof of [PVN] that [runRules] raises against a prevote has
    as message a stored prevote for a value other than nil, and as evidence
    a non-empty list of stored precommits of the prevoter, in earlier
    rounds, for values that are neither nil nor the prevoted one, followed
    by a stored proposal with valid round -1 for the prevoted value in the
    prevote's round. *)
Theorem prevote_proofs_are_sound ms quorum height proofs accusations p :
  runRules ms quorum height (proofs, accusations) -> p ∈ proofs ->
  Proof_Rule p = PVN ->
  let m := Proof_Message p in
  (exists r c a, stored ms height r c a = Some m) /\
  Code m = MsgPrevote /\ Value m <> nilValue /\
  exists precommits proposal,
    Proof_Evidence p = precommits ++ [proposal] /\ precommits <> [] /\
    (exists r c a, stored ms height r c a = Some proposal) /\
    Code proposal = MsgProposal /\ Value proposal = Value m /\
    R proposal = R m /\ ValidRound proposal = -1 /\
    forall e, e ∈ precommits ->
      (exists r c a, stored ms height r c a = Some e) /\
      Code e = MsgPrecommit /\ Address e = Address m /\
      Value e <> nilValue /\ Value e <> Value m /\ R e < R m.
Proof.
  intros Hrun Hp Hr m.
  destruct (runRules_findings _ _ _ _ Hrun) as [Hproofs _].
  cbn [fst] in Hproofs. rewrite Forall_forall in Hproofs.
  specialize (Hproofs p Hp). subst m.
  destruct Hproofs as [? ? ? ? ?|? ? ? ? ?|? ? ? ? ?
                      |m cp ev [Hq Hst] [Hqc Hstc] Hvr Hget Hne
                      |? ? ? ? ? ? ? ? ? ? ?];
    try discriminate Hr.
  cbn [Proof_Rule Proof_Message Proof_Evidence].
  unpack Hq. unpack Hqc. split_and!; try done.
  exists ev, cp. split_and!; try done. intros e He.
  apply (Get_held _ _ _ _ _ Hget) in He as [He Hste]. unpack He.
  split_and!; done.
Qed.

(** The example, run. *)
Lemma example_run :
  runRules example.store 3 11 (example.findings.1, example.findings.2) /\
  example.findings.1
  = [example.proof_against_1; example.proof_against_3;
     example.proof_against_2] /\
  example.findings.2 = [example.accusation_against_3].
Proof.
  split; [|split; vm_compute; reflexivity].
  refine (eq_rect _ (runRules example.store 3 11)
            (runRules_ascending_run example.store 3 11) _ _).
  vm_compute. reflexivity.
Defined.

Lemma quiet_example_run :
  runRules example.quiet_store 3 11
    (example.quiet_findings.1, example.quiet_findings.2) /\
  example.quiet_findings.1 = [] /\
  example.quiet_findings.2 = [example.accusation_against_c].
Proof.
  split; [|split; vm_compute; reflexivity].
  refine (eq_rect _ (runRules example.quiet_store 3 11)
            (runRules_ascending_run example.quiet_store 3 11) _ _).
  vm_compute. reflexivity.
Defined.

Lemma proposal_proofs_are_sound_witness :
  let p := example.proof_against_1 in
  let m := Proof_Message p in
  (exists r c a, stored example.store 11 r c a = Some m) /\
  Code m = MsgProposal /\ ValidRound m = -1 /\
  Proof_Evidence p <> [] /\
  forall e, e ∈ Proof_Evidence p ->
    (exists r c a, stored example.store 11 r c a = Some e) /\
    Code e = MsgPrecommit /\ Address e = Address m /\
    Value e <> nilValue /\ R e < R m.
Proof.
  destruct example_run as (Hrun & Hproofs & _).
  apply (proj1 (proposal_proofs_are_sound example.store 3 11
                  example.findings.1 example.findings.2
                  example.proof_against_1 Hrun
                  ltac:(rewrite Hproofs; apply list_elem_of_here))).
  reflexivity.
Defined.

Lemma prevote_proofs_are_sound_witness :
  let p := example.proof_against_2 in
  let m := Proof_Message p in
  exists precommits proposal,
    Proof_Evidence p = precommits ++ [proposal] /\ precommits <> [] /\
    (exists r c a, stored example.store 11 r c a = Some proposal) /\
    Code proposal = MsgProposal /\ Value proposal = Value m /\
    R proposal = R m /\ ValidRound proposal = -1 /\
    forall e, e ∈ precommits ->
      (exists r c a, stored example.store 11 r c a = Some e) /\
      Code e = MsgPrecommit /\ Address e = Address m /\
      Value e <> nilValue /\ Value e <> Value m /\ R e < R m.
Proof.
  destruct example_run as (Hrun & Hproofs & _).
  apply (prevote_proofs_are_sound example.store 3 11
           example.findings.1 example.findings.2
           example.proof_against_2 Hrun).
  - rewrite Hproofs. do 2 apply list_elem_of_further. apply list_elem_of_here.
  - reflexivity.
Defined.

(** X23. Every finding of [runRules] is about a message stored at the
    height. A proof carries one of the rules [PN], [PO], [PVN], [C]. An
    accusation carries no evidence and one of the rules [PO], [PVN], [C],
    [C1], which are the rules that [getInnocentProof] has a case for: it
    answers an accusation of [runRules] with the function of its rule. *)
Theorem findings_carry_their_rules ms quorum height proofs accusations :
  runRules ms quorum height (proofs, accusations) ->
  (forall p, p ∈ proofs ->
     (exists r c a, stored ms height r c a = Some (Proof_Message p)) /\
     (Proof_Rule p = PN \/ Proof_Rule p = PO \/ Proof_Rule p = PVN \/
      Proof_Rule p = C)) /\
  (forall a, a ∈ accusations ->
     (exists r c k, stored ms height r c k = Some (Proof_Message a)) /\
     Proof_Evidence a = [] /\
     forall chain ms' quorum' result,
       getInnocentProof chain ms' quorum' a result <->
       (Proof_Rule a = PO /\ GetInnocentProofOfPO chain ms' quorum' a result) \/
       (Proof_Rule a = PVN /\ GetInnocentProofOfPVN chain ms' a result) \/
       (Proof_Rule a = C /\ GetInnocentProofOfC chain ms' a result) \/
       (Proof_Rule a = C1 /\ GetInnocentProofOfC1 chain ms' quorum' a result)).
Proof.
  intros Hrun.
  destruct (runRules_findings _ _ _ _ Hrun) as [Hproofs Haccs].
  cbn [fst snd] in Hproofs, Haccs. rewrite Forall_forall in Hproofs, Haccs.
  split.
  - intros p Hp.
    destruct (Hproofs p Hp) as [? ? [_ ?] _ _|? ? [_ ?] _ _|? ? [_ ?] _ _
                               |? ? ? [_ ?] _ _ _ _|? ? ? ? ? _ _ [_ ?] _ _ _];
      cbn; split; tauto.
  - intros a Ha.
    destruct (Haccs a Ha) as [? ? [_ ?] _ _|? [_ ?] _|? ? ? _ _ [_ ?] _
                             |? ? ? ? ? _ _ [_ ?] _ _ _];
      cbn; (split; [done|]); (split; [done|]);
      intros chain ms' quorum' result; unfold getInnocentProof; cbn;
      split; [tauto| |tauto| |tauto| |tauto|];
      intros [[Hr ?]|[[Hr ?]|[[Hr ?]|[Hr ?]]]]; (done || discriminate Hr).
Qed.

Lemma findings_carry_their_rules_witness :
  let a := example.accusation_against_3 in
  (exists r c k, stored example.store 11 r c k = Some (Proof_Message a)) /\
  forall chain ms' quorum' result,
    getInnocentProof chain ms' quorum' a result ->
    GetInnocentProofOfPO chain ms' quorum' a result.
Proof.
  destruct example_run as (Hrun & _ & Haccs).
  destruct (proj2 (findings_carry_their_rules example.store 3 11
                     example.findings.1 example.findings.2 Hrun)
              example.accusation_against_3
              ltac:(rewrite Haccs; apply list_elem_of_here))
    as (H1 & _ & H3).
  split; [exact H1|].
  intros chain ms' quorum' result Hr.
  destruct (proj1 (H3 chain ms' quorum' result) Hr)
    as [[_ ?]|[[E _]|[[E _]|[E _]]]]; [done|discriminate E..].
Defined.

(** ** Accusations, once made, stay *)

Lemma for_each_adds {A S : Type} (body : A -> S -> S -> Prop)
    (Q : A -> S -> Prop) l :
  (forall x s s', body x s s' -> Q x s') ->
  (forall x y s s', Q x s -> body y s s' -> Q x s') ->
  forall s s', for_each body l s s' -> forall x, x ∈ l -> Q x s'.
Proof.
  intros Hadd Hkeep. induction l as [|y l IH]; intros s s' Hloop x Hx.
  - by apply elem_of_nil in Hx.
  - cbn [for_each] in Hloop. destruct Hloop as (s1 & H1 & Hrest).
    apply elem_of_cons in Hx as [->|Hx].
    + revert Hrest. apply (for_each_invariant body (Q y)); [|by eapply Hadd].
      intros z s0 s0' _ Hq Hb. by eapply Hkeep.
    + by eapply IH.
Qed.

Lemma PO_step_keeps ms quorum height proposal f f' a :
  PO_step ms quorum height proposal f f' -> a ∈ f.2 -> a ∈ f'.2.
Proof.
  intros (pc & pc' & pv & _ & _ & _ & ->) Ha. cbv zeta.
  destruct pc, pc', (powerOfVotes pv <? quorum); cbn;
    try done; apply elem_of_app; by left.
Qed.

Lemma PO_step_accuses ms quorum height proposal f f' :
  0 < quorum -> PO_step ms quorum height proposal f f' ->
  {| Proof_Rule := PO; Proof_Message := proposal; Proof_Evidence := [] |}
  ∈ f'.2.
Proof.
  intros Hq (pc & pc' & pv & _ & _ & _ & ->). cbv zeta.
  rewrite powerOfVotes_0. destruct (Z.ltb_spec 0 quorum) as [_|?]; [|lia].
  destruct pc, pc'; cbn; apply elem_of_app; right; apply list_elem_of_here.
Qed.

Lemma precommit_step_keeps ms quorum height precommit f f' a :
  precommit_step ms quorum height precommit f f' -> a ∈ f.2 -> a ∈ f'.2.
Proof.
  intros (proposals & _ & Hrest) Ha. destruct proposals.
  - subst f'. cbn. apply elem_of_app. by left.
  - destruct Hrest as (notV & forV & _ & _ & ->).
    destruct (powerOfVotes notV >=? quorum); [done|].
    destruct (powerOfVotes forV <? quorum); [|done].
    cbn. apply elem_of_app. by left.
Qed.

Lemma precommit_section_keeps ms quorum height f f' a :
  precommit_section ms quorum height f f' -> a ∈ f.2 -> a ∈ f'.2.
Proof.
  intros (precommits & _ & Hloop) Ha. revert Hloop.
  apply (for_each_invariant _ (fun s => a ∈ s.2)); [|done].
  intros precommit s s' _ Hs Hstep. by eapply precommit_step_keeps.
Qed.

Lemma proposals_loop_keeps ms quorum height prevote cps a :
  forall f f', proposals_loop ms quorum height prevote cps f f' ->
    a ∈ f.2 -> a ∈ f'.2.
Proof.
  induction cps as [|cp cps IH]; intros f f'; cbn [proposals_loop].
  - by intros ->.
  - destruct (ValidRound cp =? -1).
    + intros (precommits & _ & Hcont) Ha. destruct precommits.
      * destruct Hcont as (f1 & Hsec & Hloop).
        apply (IH f1 f' Hloop). by eapply precommit_section_keeps.
      * by subst f'.
    + intros (precommits & _ & f1 & Hsec & Hloop) Ha.
      apply (IH f1 f' Hloop). by eapply precommit_section_keeps.
Qed.

Lemma prevote_step_keeps ms quorum height prevote f f' a :
  prevote_step ms quorum height prevote f f' -> a ∈ f.2 -> a ∈ f'.2.
Proof.
  intros (cps & _ & Hloop) Ha. cbn zeta in Hloop.
  apply (proposals_loop_keeps _ _ _ _ _ _ _ _ Hloop).
  destruct cps; [|done]. cbn. apply elem_of_app. by left.
Qed.

(** X24. With a positive quorum, [runRules] never proves rule [C], and
    it accuses the sender of every stored proposal with a valid round of 0
    or more under rule [PO], whatever prevotes the store holds for the valid
    round: both compare [powerOfVotes], which is 0, with the quorum. The
    accused cannot clear itself either: [getInnocentProof] answers that
    accusation with "node is malicious", from any store, as long as the
    quorum it computes is positive too. *)
Theorem positive_quorum_accuses_old_proposals ms quorum height proofs
    accusations :
  0 < quorum -> runRules ms quorum height (proofs, accusations) ->
  (forall p, p ∈ proofs -> Proof_Rule p <> C) /\
  (forall proposal r c k,
     stored ms height r c k = Some proposal ->
     Code proposal = MsgProposal -> -1 < ValidRound proposal ->
     let a := {| Proof_Rule := PO; Proof_Message := proposal;
                 Proof_Evidence := [] |} in
     a ∈ accusations /\
     forall chain ms' quorum' result,
       0 < quorum' -> getInnocentProof chain ms' quorum' a result ->
       result = (no_proof, Some (errOther "node is malicious"))).
Proof.
  intros Hq Hrun. split.
  - destruct (runRules_findings _ _ _ _ Hrun) as [Hproofs _].
    cbn [fst] in Hproofs. rewrite Forall_forall in Hproofs.
    intros p Hp.
    destruct (Hproofs p Hp) as [? ? _ _ _|? ? _ _ _|? ? _ _ _|? ? ? _ _ _ _ _
                               |? ? ? ? notV _ _ _ _ _ Hpow]; cbn; try done.
    rewrite powerOfVotes_0 in Hpow. lia.
  - intros proposal r c k Hst Hcode Hvr a. split.
    + destruct Hrun as (pn & f1 & po & f2 & pv & _ & _ & Hpo & Hl2 & _ & Hl3).
      assert (Hin : proposal ∈ po).
      { apply (Get_held _ _ _ _ _ Hpo). split; [|by exists r, c, k].
        unfold q_proposalsOld, is_proposal. apply andb_true_intro. split.
        - by apply Z.eqb_eq.
        - apply Z.gtb_lt. lia. }
      assert (H2 : a ∈ f2.2).
      { apply (for_each_adds (PO_step ms quorum height)
                 (fun x s => {| Proof_Rule := PO; Proof_Message := x;
                                Proof_Evidence := [] |} ∈ s.2)
                 po) with (s := f1); [| |done..].
        - intros x s s'. by apply PO_step_accuses.
        - intros x y s s' Hx Hstep. by eapply PO_step_keeps. }
      revert Hl3.
      apply (for_each_invariant _ (fun s : Findings => a ∈ s.2)); [|done].
      intros prevote s s' _ Hs Hstep. by eapply prevote_step_keeps.
    + intros chain ms' quorum' result Hq' (prevotes & _ & ->).
      cbn [Proof_Message a].
      rewrite powerOfVotes_0. by destruct (Z.ltb_spec 0 quorum'); [|lia].
Qed.

Lemma positive_quorum_accuses_old_proposals_witness :
  example.accusation_against_3 ∈ example.findings.2 /\
  forall chain ms' quorum' result,
    0 < quorum' ->
    getInnocentProof chain ms' quorum' example.accusation_against_3 result ->
    result = (no_proof, Some (errOther "node is malicious")).
Proof.
  destruct example_run as (Hrun & _ & _).
  apply (proj2 (positive_quorum_accuses_old_proposals example.store 3 11
                  example.findings.1 example.findings.2 ltac:(lia) Hrun)
           example.proposal_3 2 MsgProposal 3);
    [vm_compute; reflexivity|reflexivity|vm_compute; reflexivity].
Defined.

(** X25. [runRules] examines precommits only from inside its loop over
    the prevotes. A finding of rule [C] or [C1], proof or accusation, is
    about a stored precommit for a value other than nil, and the store then
    holds a prevote for a value other than nil together with a proposal for
    that prevote's value in that prevote's round. A height whose prevotes
    are all for nil, or all without their proposal, yields no finding about
    a precommit. *)
Theorem precommits_are_examined_under_a_prevote ms quorum height proofs
    accusations x :
  runRules ms quorum height (proofs, accusations) ->
  x ∈ proofs ++ accusations -> Proof_Rule x = C \/ Proof_Rule x = C1 ->
  let m := Proof_Message x in
  (exists r c a, stored ms height r c a = Some m) /\
  Code m = MsgPrecommit /\ Value m <> nilValue /\
  exists prevote proposal,
    (exists r c a, stored ms height r c a = Some prevote) /\
    (exists r c a, stored ms height r c a = Some proposal) /\
    Code prevote = MsgPrevote /\ Value prevote <> nilValue /\
    Code proposal = MsgProposal /\ Value proposal = Value prevote /\
    R proposal = R prevote.
Proof.
  intros Hrun Hx Hr m. subst m.
  destruct (runRules_findings _ _ _ _ Hrun) as [Hproofs Haccs].
  cbn [fst snd] in Hproofs, Haccs. rewrite Forall_forall in Hproofs, Haccs.
  apply elem_of_app in Hx as [Hx|Hx].
  - destruct (Hproofs x Hx)
      as [? ? _ _ _|? ? _ _ _|? ? _ _ _|? ? ? _ _ _ _ _
         |prevote proposal precommit ? ? [Hqv Hsv] [Hqp Hsp] [Hqc Hsc] _ _ _];
      cbn in Hr |- *; try (destruct Hr as [Hr|Hr]; discriminate Hr).
    unpack Hqv. unpack Hqp. unpack Hqc. split_and!; try done.
    exists prevote, proposal. split_and!; done.
  - destruct (Haccs x Hx)
      as [? ? _ _ _|? _ _
         |prevote proposal precommit [Hqv Hsv] [Hqp Hsp] [Hqc Hsc] _
         |prevote proposal precommit ? ? [Hqv Hsv] [Hqp Hsp] [Hqc Hsc] _ _ _];
      cbn in Hr |- *; try (destruct Hr as [Hr|Hr]; discriminate Hr).
    + unpack Hqv. unpack Hqp. unpack Hqc. split_and!; try done.
      exists prevote, proposal. split_and!; done.
    + unpack Hqv. unpack Hqp. unpack Hqc. split_and!; try done.
      exists prevote, proposal. split_and!; done.
Qed.

Lemma precommits_are_examined_under_a_prevote_witness :
  exists prevote proposal,
    (exists r c a, stored example.quiet_store 11 r c a = Some prevote) /\
    (exists r c a, stored example.quiet_store 11 r c a = Some proposal) /\
    Code prevote = MsgPrevote /\ Value prevote <> nilValue /\
    Code proposal = MsgProposal /\ Value proposal = Value prevote /\
    R proposal = R prevote.
Proof.
  destruct quiet_example_run as (Hrun & Hproofs & Haccs).
  apply (precommits_are_examined_under_a_prevote example.quiet_store 3 11
           example.quiet_findings.1 example.quiet_findings.2
           example.accusation_against_c Hrun).
  - rewrite Hproofs, Haccs. apply list_elem_of_here.
  - right. reflexivity.
Defined.

(** X26. [runRules] returns for every store, quorum and height. At a
    height where the store holds no message, be it that the height has no
    map or that its maps are empty, it returns no proof and no
    accusation. *)
Theorem runRules_returns ms quorum height :
  (exists result, runRules ms quorum height result) /\
  ((forall r c a, stored ms height r c a = None) ->
   forall result, runRules ms quorum height result -> result = ([], [])).
Proof.
  split; [eexists; apply runRules_ascending_run|].
  intros Hnone [proofs accusations] Hrun.
  destruct (runRules_findings _ _ _ _ Hrun) as [Hproofs Haccs].
  cbn [fst snd] in Hproofs, Haccs.
  assert (Hheld : forall q m, ~ held ms height q m).
  { intros q m (_ & r & c & a & Hst). by rewrite Hnone in Hst. }
  f_equal.
  - destruct proofs as [|p proofs]; [done|].
    apply Forall_cons in Hproofs as [Hp _].
    destruct Hp as [? ? Hh _ _|? ? Hh _ _|? ? Hh _ _|? ? ? Hh _ _ _ _
                   |? ? ? ? ? Hh _ _ _ _ _]; by apply Hheld in Hh.
  - destruct accusations as [|a accusations]; [done|].
    apply Forall_cons in Haccs as [Ha _].
    destruct Ha as [? ? Hh _ _|? Hh _|? ? ? Hh _ _ _|? ? ? ? ? Hh _ _ _ _ _];
      by apply Hheld in Hh.
Qed.

Lemma runRules_returns_witness :
  exists result, runRules example.store 3 12 result /\ result = ([], []).
Proof.
  destruct (runRules_returns example.store 3 12) as [[result Hrun] Hnone].
  exists result. split; [exact Hrun|].
  apply Hnone; [|exact Hrun].
  intros r c a. vm_compute. reflexivity.
Defined.

(** ** [runRuleEngine] *)

Lemma convert_spec chain findings :
  forall acc fd,
    msgStore (convert chain findings acc fd).2 = msgStore fd /\
    futureMsgs (convert chain findings acc fd).2 = futureMsgs fd /\
    sent (convert chain findings acc fd).2 = sent fd /\
    exists new,
      (convert chain findings acc fd).1 = acc ++ new /\
      forall p, p ∈ new ->
        exists x, x ∈ findings /\
          Sender p = Address (Proof_Message x) /\
          Msghash p = RLPHash chain (Payload (Proof_Message x)) /\
          EncodeToBytes chain
            (rawProof (Proof_Message x) (Proof_Evidence x) (Proof_Rule x))
          = inl (Rawproof p).
Proof.
  induction findings as [|x rest IH]; intros acc fd; cbn [convert].
  - split_and!; try done. exists []. split; [by rewrite app_nil_r|].
    intros p Hp. by apply elem_of_nil in Hp.
  - unfold generateOnChainProof.
    destruct (EncodeToBytes chain
                (rawProof (Proof_Message x) (Proof_Evidence x) (Proof_Rule x)))
      as [rp|text] eqn:E.
    + match goal with
      | |- context [convert chain rest (acc ++ [?p0]) fd] =>
          destruct (IH (acc ++ [p0]) fd) as (H1 & H2 & H3 & new & Hnew & Hall);
          split_and!; try done; exists (p0 :: new)
      end.
      split; [by rewrite Hnew, <- app_assoc|].
      intros p Hp. apply elem_of_cons in Hp as [->|Hp].
      * exists x. split; [apply list_elem_of_here|done].
      * destruct (Hall p Hp) as (x' & Hx' & Hrest).
        exists x'. split; [by apply list_elem_of_further|done].
    + match goal with
      | |- context [convert chain rest acc ?fd0] =>
          destruct (IH acc fd0) as (H1 & H2 & H3 & new & Hnew & Hall)
      end.
      split_and!; try done. exists new. split; [done|].
      intros p Hp. destruct (Hall p Hp) as (x' & Hx' & Hrest).
      exists x'. split; [by apply list_elem_of_further|done].
Qed.

Lemma send_findings_spec chain t findings fd :
  msgStore (send_findings chain t findings fd) = msgStore fd /\
  futureMsgs (send_findings chain t findings fd) = futureMsgs fd /\
  exists batches,
    sent (send_findings chain t findings fd) = sent fd ++ batches /\
    batches.*1 = match findings with [] => [] | _ => [t] end /\
    forall ps p, (t, ps) ∈ batches -> p ∈ ps ->
      exists x, x ∈ findings /\
        Sender p = Address (Proof_Message x) /\
        Msghash p = RLPHash chain (Payload (Proof_Message x)) /\
        EncodeToBytes chain
          (rawProof (Proof_Message x) (Proof_Evidence x) (Proof_Rule x))
        = inl (Rawproof p).
Proof.
  unfold send_findings. destruct findings as [|x rest].
  - split_and!; try done. exists []. split; [by rewrite app_nil_r|].
    split; [done|]. intros ps p Hin. by apply elem_of_nil in Hin.
  - destruct (convert_spec chain (x :: rest) [] fd)
      as (H1 & H2 & H3 & new & Hnew & Hall).
    destruct (convert chain (x :: rest) [] fd) as [out fd1].
    cbn [fst snd] in *. cbn. split_and!; try done.
    exists [(t, out)]. split; [by rewrite H3|]. split; [done|].
    intros ps p Hin Hp. apply list_elem_of_singleton in Hin.
    injection Hin as ->. subst out. by apply Hall.
Qed.


Lemma detector_run :
  runRules (msgStore detector) 3 11 (example.findings.1, example.findings.2).
Proof.
  refine (eq_rect _ (runRules (msgStore detector) 3 11)
            (runRules_ascending_run (msgStore detector) 3 11) _ _).
  vm_compute. reflexivity.
Defined.


End rule_engine_spec.
